(** * Contour-integral quadrature over implicit operators

    A shallow embedding of [gpytorch/utils/contour_integral_quad.py] and of
    [gpytorch/lazy/non_lazy_variable.py].

    Floating-point numbers are an abstract scalar type [R] with the operations
    the code uses on them ([Scalar]); rounding and dtype conversion are not
    modelled, so a conversion between dtypes is the identity on [R].
    A tensor is its shape together with its elements in row-major order.
    Python exceptions are outcomes of a computation ([Raise]); the process-wide
    diagnostics record and the calls made to collaborators are threaded
    through a state monad. *)

From Stdlib Require Import List Arith Lia Bool QArith Qabs.
From Stdlib Require Import ZArith.
Import ListNotations.
Local Open Scope nat_scope.

Set Implicit Arguments.

(** ** Exceptions *)

Inductive exn : Type := RuntimeError | IndexError | TypeError | ZeroDivisionError.

Inductive result (A : Type) : Type :=
| Ok (a : A)
| Raise (e : exn).
Arguments Ok {A} a.
Arguments Raise {A} e.

Definition rbind {A B} (r : result A) (f : A -> result B) : result B :=
  match r with
  | Ok a => f a
  | Raise e => Raise e
  end.

Fixpoint rmapM {A B} (f : A -> result B) (l : list A) : result (list B) :=
  match l with
  | [] => Ok []
  | a :: l' => rbind (f a) (fun b => rbind (rmapM f l') (fun bs => Ok (b :: bs)))
  end.

(** ** Scalars *)

(** The operations of Python floats, numpy float64 and tensor elements that
    the code uses.  [lit q] is the value of the literal [q]. *)
Class Scalar (R : Type) : Type := {
  lit : Q -> R;
  pi : R;
  fadd : R -> R -> R;
  fsub : R -> R -> R;
  fmul : R -> R -> R;
  fdiv : R -> R -> R;
  fsqrt : R -> R;
  fabs : R -> R;
  fmax : R -> R -> R;
  fmin : R -> R -> R;
  fle : R -> R -> bool;
  (** scipy.special.ellipk(m) *)
  ellipk : R -> R;
  (** scipy.special.ellipj(u, m): sn, cn, dn (the amplitude is discarded) *)
  ellipj : R -> R -> R * R * R
}.

Definition of_nat {R} `{Scalar R} (n : nat) : R := lit (inject_Z (Z.of_nat n)).

(** ** Tensors *)

Section Torch.
Context {R : Type} `{Scalar R}.

Definition zero : R := lit 0%Q.

(** y == 0.0 on floats: y <= 0 and 0 <= y both hold (of -0.0 too; of nan
    neither does) *)
Definition is_zero (y : R) : bool := fle y zero && fle zero y.

(** x / y on Python floats: a zero divisor raises ZeroDivisionError *)
Definition float_div (x y : R) : result R :=
  if is_zero y then Raise ZeroDivisionError else Ok (fdiv x y).

Record Tensor : Type := mkTensor { shape : list nat; data : list R }.

Definition prod_shape (s : list nat) : nat := fold_right Nat.mul 1 s.
Definition numel (t : Tensor) : nat := prod_shape (shape t).
Definition dim (t : Tensor) : nat := length (shape t).

(** A tensor holds as many elements as its shape says. *)
Definition wf (t : Tensor) : Prop := length (data t) = numel t.

(** s[:-1] and s[:-2] on a shape *)
Definition drop_last (s : list nat) : list nat := removelast s.
Definition drop_last2 (s : list nat) : list nat := removelast (removelast s).
(** s[-2:] *)
Definition last2 (s : list nat) : list nat := skipn (length s - 2) s.

Definition scalar_tensor (x : R) : Tensor := mkTensor [] [x].

(** torch.zeros(s) *)
Definition zeros (s : list nat) : Tensor := mkTensor s (repeat zero (prod_shape s)).

(** t.view(s) *)
Definition view (t : Tensor) (s : list nat) : result Tensor :=
  if prod_shape s =? numel t then Ok (mkTensor s (data t)) else Raise RuntimeError.

(** [k] consecutive blocks of [n] elements *)
Fixpoint chunks (k n : nat) (l : list R) : list (list R) :=
  match k with
  | 0 => []
  | S k' => firstn n l :: chunks k' n (skipn n l)
  end.

(** the [p] columns of a list of rows *)
Definition columns (p : nat) (rows : list (list R)) : list (list R) :=
  map (fun j => map (fun row => nth j row zero) rows) (seq 0 p).

(** iteration over a tensor: its slices along dimension 0 *)
Definition unbind (t : Tensor) : result (list Tensor) :=
  match shape t with
  | [] => Raise TypeError
  | d :: s => Ok (map (mkTensor s) (chunks d (prod_shape s) (data t)))
  end.

(** t[0] *)
Definition index0 (t : Tensor) : result Tensor :=
  match shape t with
  | [] => Raise IndexError
  | 0 :: _ => Raise IndexError
  | S _ :: s => Ok (mkTensor s (firstn (prod_shape s) (data t)))
  end.

(** t[1:] *)
Definition slice_from1 (t : Tensor) : result Tensor :=
  match shape t with
  | [] => Raise IndexError
  | d :: s => Ok (mkTensor ((d - 1) :: s) (skipn (prod_shape s) (data t)))
  end.

Definition shape_eqb (s1 s2 : list nat) : bool :=
  if list_eq_dec Nat.eq_dec s1 s2 then true else false.

(** torch.stack(ts, 0) *)
Definition stack (ts : list Tensor) : result Tensor :=
  match ts with
  | [] => Raise RuntimeError
  | t :: _ =>
      if forallb (fun u => shape_eqb (shape u) (shape t)) ts
      then Ok (mkTensor (length ts :: shape t) (concat (map data ts)))
      else Raise RuntimeError
  end.

(** Broadcasting the elements of a tensor of shape [src] to the shape [tgt]
    of the same number of dimensions. *)
Fixpoint expand_aligned (src tgt : list nat) (l : list R) : result (list R) :=
  match src, tgt with
  | [], [] => Ok l
  | s :: src', d :: tgt' =>
      if s =? d then
        rbind (rmapM (expand_aligned src' tgt') (chunks s (prod_shape src') l))
              (fun ls => Ok (concat ls))
      else if s =? 1 then
        rbind (expand_aligned src' tgt' l)
              (fun l' => Ok (concat (repeat l' d)))
      else Raise RuntimeError
  | _, _ => Raise RuntimeError
  end.

(** Broadcasting to a shape that may have more leading dimensions. *)
Fixpoint expand_data (src tgt : list nat) (l : list R) : result (list R) :=
  if length tgt =? length src then expand_aligned src tgt l
  else
    match tgt with
    | [] => Raise RuntimeError
    | d :: tgt' =>
        rbind (expand_data src tgt' l) (fun l' => Ok (concat (repeat l' d)))
    end.

(** t.expand(tgt) *)
Definition expand (t : Tensor) (tgt : list nat) : result Tensor :=
  rbind (expand_data (shape t) tgt (data t)) (fun l => Ok (mkTensor tgt l)).

(** *** Element-wise operations *)

Definition tmap (f : R -> R) (t : Tensor) : Tensor :=
  mkTensor (shape t) (map f (data t)).

Fixpoint map2 (f : R -> R -> R) (l1 l2 : list R) : list R :=
  match l1, l2 with
  | x :: l1', y :: l2' => f x y :: map2 f l1' l2'
  | _, _ => []
  end.

Definition pad_shape (n : nat) (s : list nat) : list nat :=
  repeat 1 (n - length s) ++ s.

Fixpoint broadcast_aligned (s1 s2 : list nat) : result (list nat) :=
  match s1, s2 with
  | [], [] => Ok []
  | a :: s1', b :: s2' =>
      rbind (broadcast_aligned s1' s2')
            (fun s => if a =? b then Ok (a :: s)
                      else if a =? 1 then Ok (b :: s)
                      else if b =? 1 then Ok (a :: s)
                      else Raise RuntimeError)
  | _, _ => Raise RuntimeError
  end.

(** the shape two operands broadcast to *)
Definition broadcast_shapes (s1 s2 : list nat) : result (list nat) :=
  let n := Nat.max (length s1) (length s2) in
  broadcast_aligned (pad_shape n s1) (pad_shape n s2).

(** a binary operator on tensors, with broadcasting: a + b, a * b, a / b *)
Definition binop (f : R -> R -> R) (a b : Tensor) : result Tensor :=
  rbind (broadcast_shapes (shape a) (shape b)) (fun s =>
  rbind (expand a s) (fun a' =>
  rbind (expand b s) (fun b' =>
  Ok (mkTensor s (map2 f (data a') (data b')))))).

(** its in-place form: a.div_(b), a.sub_(b); the result has the shape of [a] *)
Definition binop_ (f : R -> R -> R) (a b : Tensor) : result Tensor :=
  rbind (broadcast_shapes (shape a) (shape b)) (fun s =>
  if shape_eqb s (shape a) then
    rbind (expand b s) (fun b' => Ok (mkTensor s (map2 f (data a) (data b'))))
  else Raise RuntimeError).

(** t.clamp_min_(c) *)
Definition clamp_min_ (t : Tensor) (c : R) : Tensor := tmap (fun x => fmax x c) t.

(** *** Reductions *)

Definition sum_list (l : list R) : R := fold_left fadd l zero.
Definition norm_list (l : list R) : R := fsqrt (sum_list (map (fun x => fmul x x) l)).

Definition fold1 (f : R -> R -> R) (l : list R) : R :=
  match l with
  | [] => zero
  | x :: l' => fold_left f l' x
  end.

(** reduction of dimension [d], counted from the front *)
Definition reduce_dim (f : list R -> R) (d : nat) (keepdim : bool) (t : Tensor)
  : result Tensor :=
  let pre := firstn d (shape t) in
  match skipn d (shape t) with
  | [] => Raise IndexError
  | n :: post =>
      let p := prod_shape post in
      Ok (mkTensor (pre ++ (if keepdim then [1] else []) ++ post)
            (flat_map (fun c => map f (columns p (chunks n p c)))
                      (chunks (prod_shape pre) (n * p) (data t))))
  end.

(** reduction of dimension -2 *)
Definition reduce_dim_m2 (f : list R -> R) (keepdim : bool) (t : Tensor)
  : result Tensor :=
  if dim t <? 2 then Raise IndexError else reduce_dim f (dim t - 2) keepdim t.

(** t.max(dim=-1)[0] and t.min(dim=-1)[0] *)
Definition reduce_last (f : R -> R -> R) (t : Tensor) : result Tensor :=
  match shape t with
  | [] => Ok t
  | _ :: _ =>
      let n := last (shape t) 0 in
      if n =? 0 then Raise IndexError
      else Ok (mkTensor (drop_last (shape t))
                 (map (fold1 f) (chunks (prod_shape (drop_last (shape t))) n (data t))))
  end.

(** t.min() *)
Definition tmin (t : Tensor) : result R :=
  match data t with
  | [] => Raise RuntimeError
  | x :: l => Ok (fold_left fmin l x)
  end.

(** t.mean().item() *)
Definition mean_item (t : Tensor) : R := fdiv (sum_list (data t)) (of_nat (numel t)).

(** *** Indexing *)

(** t[0, ..., 0] with [k] zeros *)
Fixpoint index0_n (k : nat) (t : Tensor) : result Tensor :=
  match k with
  | 0 => Ok t
  | S k' => rbind (index0 t) (index0_n k')
  end.

(** t[..., :, :1] *)
Definition first_col (t : Tensor) : result Tensor :=
  if dim t <? 2 then Raise IndexError
  else
    let c := last (shape t) 0 in
    let pre := drop_last (shape t) in
    Ok (mkTensor (pre ++ [Nat.min 1 c])
          (concat (map (firstn 1) (chunks (prod_shape pre) c (data t))))).

(** l[n] = x *)
Fixpoint set_nth (n : nat) (x : R) (l : list R) : list R :=
  match l, n with
  | [], _ => []
  | _ :: l', 0 => x :: l'
  | y :: l', S n' => y :: set_nth n' x l'
  end.

(** the elements [vals] written down column [i] of a matrix with [c] columns,
    from row [row] on *)
Fixpoint write_column (c i row : nat) (vals : list R) (l : list R) : list R :=
  match vals with
  | [] => l
  | v :: vals' => write_column c i (S row) vals' (set_nth (row * c + i) v l)
  end.

(** t[row0:, i].copy_(vals) on a matrix [t] *)
Definition copy_column (t : Tensor) (row0 i : nat) (vals : list R) : result Tensor :=
  match shape t with
  | [r; c] =>
      if c <=? i then Raise IndexError
      else if length vals =? r - row0
      then Ok (mkTensor [r; c] (write_column c i row0 vals (data t)))
      else Raise RuntimeError
  | _ => Raise IndexError
  end.

(** the elements of an [m] x [n] matrix, transposed *)
Definition transpose_block (m n : nat) (c : list R) : list R :=
  concat (columns n (chunks m n c)).

(** t.transpose(-1, -2) *)
Definition transpose_last2 (t : Tensor) : result Tensor :=
  match last2 (shape t) with
  | [m; n] =>
      let pre := drop_last2 (shape t) in
      Ok (mkTensor (pre ++ [n; m])
            (flat_map (transpose_block m n)
                      (chunks (prod_shape pre) (m * n) (data t))))
  | _ => Raise IndexError
  end.

End Torch.

Arguments Tensor R : clear implicits.

(** ** NonLazyVariable *)

Module NonLazy.
Section NonLazyVariable.
Context {R : Type} `{Scalar R}.

(** The wrapper holds the matrix it was built from. *)
Record NonLazyVariable : Type := __init__ { var : Tensor R }.

Definition evaluate (self : NonLazyVariable) : Tensor R := var self.

Definition size (self : NonLazyVariable) : list nat := shape (var self).

Definition _transpose_nonbatch (self : NonLazyVariable) : result NonLazyVariable :=
  rbind (transpose_last2 (var self)) (fun v => Ok (__init__ v)).

End NonLazyVariable.
End NonLazy.

(** ** The operator, the collaborators and the state *)

(** The part of a LazyTensor the engine uses. *)
Record LazyTensor (R : Type) : Type := {
  lt_shape : list nat;
  (** lazy_tensor._matmul(v) *)
  _matmul : Tensor R -> Tensor R;
  (** lazy_tensor.diag() *)
  diag : Tensor R;
  (** lazy_tensor @ v *)
  matmul : Tensor R -> Tensor R
}.

Definition batch_shape {R} (lt : LazyTensor R) : list nat := drop_last2 (lt_shape lt).
Definition matrix_shape {R} (lt : LazyTensor R) : list nat := last2 (lt_shape lt).

(** The routines of the repository and of torch that the engine calls and
    whose code is not part of this development. *)
Class Collaborators (R : Type) : Type := {
  (** lanczos_tridiag(matmul_closure, init_vecs, matrix_shape, batch_shape, max_iter)
      returns the Lanczos basis and the tridiagonal matrix *)
  lanczos_tridiag :
    (Tensor R -> Tensor R) -> Tensor R -> list nat -> list nat -> nat ->
    Tensor R * Tensor R;
  (** mat.symeig()[0]: the eigenvalues; [None] when the decomposition fails,
      which torch reports by raising RuntimeError *)
  symeig : Tensor R -> option (Tensor R);
  (** minres(matmul_closure, rhs, value, shifts): the stacked solutions *)
  minres : (Tensor R -> Tensor R) -> Tensor R -> R -> Tensor R -> Tensor R
}.

(** settings.record_ciq_stats *)
Record Stats (R : Type) : Type := {
  on : bool;
  condition_number : option R;
  minres_residual : option R;
  ciq_diff : option R
}.

(** The places where the engine itself divides. *)
Inductive DivSite : Type := CondRatio | CondNumber | ResidualNorm | CiqDiff.

(** What the engine asks of its collaborators, and the divisors it uses. *)
Inductive Event (R : Type) : Type :=
| EvLanczos (init_vecs : Tensor R) (max_iter : nat)
| EvSymeig (mat : Tensor R)
| EvDiag
| EvMinres (rhs : Tensor R) (value : R) (shifts : Tensor R)
| EvMatmul (v : Tensor R)
| EvAtMatmul (v : Tensor R)
| EvDiv (site : DivSite) (divisor : Tensor R).
Arguments EvDiag {R}.

Record World (R : Type) : Type := { settings : Stats R; trace : list (Event R) }.

(** Computations that read and write the world and may raise. *)
Definition M (R A : Type) : Type := World R -> World R * result A.

Section Monad.
Context {R : Type}.

Definition ret {A} (a : A) : M R A := fun w => (w, Ok a).

Definition bind {A B} (m : M R A) (f : A -> M R B) : M R B :=
  fun w =>
    match m w with
    | (w', Ok a) => f a w'
    | (w', Raise e) => (w', Raise e)
    end.

Definition raise {A} (e : exn) : M R A := fun w => (w, Raise e).

Definition lift {A} (r : result A) : M R A := fun w => (w, r).

Definition emit (e : Event R) : M R unit :=
  fun w => ({| settings := settings w; trace := trace w ++ [e] |}, Ok tt).

Definition get_stats : M R (Stats R) := fun w => (w, Ok (settings w)).

Definition put_stats (s : Stats R) : M R unit :=
  fun w => ({| settings := s; trace := trace w |}, Ok tt).

(** try: body except RuntimeError: handler *)
Definition try_except_RuntimeError {A} (body handler : M R A) : M R A :=
  fun w =>
    match body w with
    | (w', Raise RuntimeError) => handler w'
    | r => r
    end.

End Monad.

Declare Scope ciq_scope.
Delimit Scope ciq_scope with ciq.
Notation "x <- m ;; k" := (bind m (fun x => k))
  (at level 61, m at next level, right associativity) : ciq_scope.
Notation "m ;; k" := (bind m (fun _ => k))
  (at level 61, right associativity) : ciq_scope.
Notation "' pat <- m ;; k" := (bind m (fun x => match x with pat => k end))
  (at level 61, pat pattern, m at next level, right associativity) : ciq_scope.

(** ** contour_integral_quad *)

Section ContourIntegralQuad.
Context {R : Type} `{Scalar R} `{Collaborators R}.
Local Open Scope ciq_scope.

(** Modelled from the spec: [_mul_broadcast_shape] of
    gpytorch/utils/broadcasting.py, the combined broadcast shape of two batch
    shapes; shapes that cannot be broadcast are a fatal error. *)
Definition _mul_broadcast_shape (s1 s2 : list nat) : result (list nat) :=
  broadcast_shapes s1 s2.

(** *** Complex numbers of numpy, as pairs of scalars *)

Definition complex : Type := (R * R)%type.
Definition re (z : complex) : R := fst z.
Definition im (z : complex) : R := snd z.
Definition creal (x : R) : complex := (x, zero).
(** 1j *)
Definition imag_unit : complex := (zero, lit 1%Q).
Definition cmul (z w : complex) : complex :=
  (fsub (fmul (re z) (re w)) (fmul (im z) (im w)),
   fadd (fmul (re z) (im w)) (fmul (im z) (re w))).
Definition cdiv (z w : complex) : complex :=
  let d := fadd (fmul (re w) (re w)) (fmul (im w) (im w)) in
  (fdiv (fadd (fmul (re z) (re w)) (fmul (im z) (im w))) d,
   fdiv (fsub (fmul (im z) (re w)) (fmul (re z) (im w))) d).

(** *** Lines 36-50: the Lanczos seed *)

(** rhs[0, ..., 0, ..., :, :1].expand(lazy_tensor.shape[:-1], 1) *)
Definition init_vecs (lazy_tensor : LazyTensor R) (rhs : Tensor R) : result (Tensor R) :=
  let num_extra_dims := dim rhs - length (lt_shape lazy_tensor) in
  rbind (index0_n num_extra_dims rhs) (fun r =>
  rbind (first_col r) (fun c =>
  expand c (drop_last (lt_shape lazy_tensor) ++ [1]))).

(** *** Lines 60-65: the eigenvalue estimates *)

Definition approx_eigs_of (lazy_tensor : LazyTensor R) (lanczos_mat : Tensor R)
  : M R (Tensor R) :=
  try_except_RuntimeError
    (emit (EvSymeig lanczos_mat) ;;
     approx_eigs <- match symeig lanczos_mat with
                    | Some e => ret e
                    | None => raise RuntimeError
                    end ;;
     m <- lift (tmin approx_eigs) ;;
     if fle m zero then raise RuntimeError else ret approx_eigs)
    (emit EvDiag ;; ret (diag lazy_tensor)).

(** *** Lines 79-94: shifts and weights of one batch element *)

(** t = 1j * (np.arange(1, N + 1) - 0.5) * Kp / N *)
Definition contour_points (N : nat) (Kp : R) : list complex :=
  map (fun j => cdiv (cmul (cmul imag_unit (creal (fsub (of_nat j) (lit 0.5%Q))))
                           (creal Kp))
                     (creal (of_nat N)))
      (seq 1 N).

Definition sub_shifts_weights (N : nat) (sub_k2 sub_min_eig : R) : list R * list R :=
  let Kp := ellipk (fsub (lit 1%Q) sub_k2) in
  let t := contour_points N Kp in
  let j := map (fun tj => ellipj (im tj) (fsub (lit 1%Q) sub_k2)) t in
  let sn := map (fun x => fst (fst x)) j in
  let cn := map (fun x => snd (fst x)) j in
  let dn := map (fun x => snd x) j in
  let cn := map (fun c => fdiv (lit 1%Q) c) cn in
  let dn := map2 fmul dn cn in
  let sn := combine sn cn in
  let sn := map (fun sc => cmul (cmul imag_unit (creal (fst sc))) (creal (snd sc))) sn in
  let w := map (fun s => cmul (creal (fsqrt sub_min_eig)) s) sn in
  let w_pow2 := map (fun z => re (cmul z z)) w in
  let sub_shifts := w_pow2 in
  let constant :=
    fdiv (fmul (fmul (lit (-2)%Q) Kp) (fsqrt sub_min_eig)) (fmul pi (of_nat N)) in
  let dzdt := map2 fmul cn dn in
  let dzdt := map (fun x => fmul x constant) dzdt in
  let sub_weights := dzdt in
  (sub_shifts, sub_weights).

(** *** Lines 77-98: the loop over the batch elements *)

Fixpoint store_loop (N i : nat) (elems : list (R * R))
    (flat_shifts flat_weights : Tensor R) : result (Tensor R * Tensor R) :=
  match elems with
  | [] => Ok (flat_shifts, flat_weights)
  | (sub_k2, sub_min_eig) :: rest =>
      let '(sub_shifts, sub_weights) := sub_shifts_weights N sub_k2 sub_min_eig in
      rbind (copy_column flat_shifts 1 i sub_shifts) (fun flat_shifts' =>
      rbind (copy_column flat_weights 0 i sub_weights) (fun flat_weights' =>
      store_loop N (S i) rest flat_shifts' flat_weights'))
  end.

(** *** Lines 66-101: condition number, flat shifts and weights *)

Definition set_condition_number (x : R) : M R unit :=
  s <- get_stats ;;
  put_stats {| on := on s; condition_number := Some x;
               minres_residual := minres_residual s; ciq_diff := ciq_diff s |}.

Definition set_minres_residual (x : R) : M R unit :=
  s <- get_stats ;;
  put_stats {| on := on s; condition_number := condition_number s;
               minres_residual := Some x; ciq_diff := ciq_diff s |}.

Definition set_ciq_diff (x : R) : M R unit :=
  s <- get_stats ;;
  put_stats {| on := on s; condition_number := condition_number s;
               minres_residual := minres_residual s; ciq_diff := Some x |}.

(** k2, min_eig from the eigenvalue estimates *)
Definition condition (approx_eigs : Tensor R) : M R (Tensor R * Tensor R) :=
  max_eig <- lift (reduce_last fmax approx_eigs) ;;
  min_eig <- lift (reduce_last fmin approx_eigs) ;;
  emit (EvDiv CondRatio max_eig) ;;
  k2 <- lift (binop fdiv min_eig max_eig) ;;
  s <- get_stats ;;
  (if on s then
     let m := mean_item k2 in
     emit (EvDiv CondNumber (scalar_tensor m)) ;;
     c <- lift (float_div (lit 1%Q) m) ;;
     set_condition_number c
   else ret tt) ;;
  ret (k2, min_eig).

(** flat_shifts and flat_weights after the loop *)
Definition flat_shifts_weights (N : nat) (k2 min_eig : Tensor R)
  : result (Tensor R * Tensor R) :=
  let flat_shifts := zeros [N + 1; numel k2] in
  let flat_weights := zeros [N; numel k2] in
  store_loop N 0 (combine (data k2) (data min_eig)) flat_shifts flat_weights.

(** *** Lines 100-106: the shapes of weights and shifts *)

Definition shape_weights_shifts (N : nat) (k2_shape output_batch_shape : list nat)
    (flat_shifts flat_weights : Tensor R) : result (Tensor R * Tensor R) :=
  rbind (view flat_weights (N :: k2_shape ++ [1; 1])) (fun weights =>
  rbind (view flat_shifts ((N + 1) :: k2_shape)) (fun shifts =>
  if shape_eqb k2_shape output_batch_shape then Ok (weights, shifts)
  else
    rbind (unbind weights) (fun ws =>
    rbind (rmapM (fun w => expand w (output_batch_shape ++ [1; 1])) ws) (fun ws' =>
    rbind (stack ws') (fun weights' =>
    rbind (unbind shifts) (fun ss =>
    rbind (rmapM (fun s => expand s output_batch_shape) ss) (fun ss' =>
    rbind (stack ss') (fun shifts' =>
    Ok (weights', shifts'))))))))).

(** *** Lines 66-106: from the eigenvalue estimates to weights and shifts *)

Definition contour_from_eigs (num_contour_quadrature : nat)
    (output_batch_shape : list nat) (approx_eigs : Tensor R)
  : M R (Tensor R * Tensor R) :=
  ' (k2, min_eig) <- condition approx_eigs ;;
  ' (flat_shifts, flat_weights) <-
      lift (flat_shifts_weights num_contour_quadrature k2 min_eig) ;;
  lift (shape_weights_shifts num_contour_quadrature (shape k2) output_batch_shape
          flat_shifts flat_weights).

(** *** Lines 35-106: the branch taken when shifts is None *)

Definition derive (lazy_tensor : LazyTensor R) (rhs : Tensor R)
    (max_lanczos_iter num_contour_quadrature : nat) (output_batch_shape : list nat)
  : M R (Tensor R * Tensor R) :=
  iv <- lift (init_vecs lazy_tensor rhs) ;;
  emit (EvLanczos iv max_lanczos_iter) ;;
  let '(lanczos_basis, lanczos_mat) :=
    lanczos_tridiag (fun v => _matmul lazy_tensor v) iv
      (matrix_shape lazy_tensor) (batch_shape lazy_tensor) max_lanczos_iter in
  approx_eigs <- approx_eigs_of lazy_tensor lanczos_mat ;;
  contour_from_eigs num_contour_quadrature output_batch_shape approx_eigs.

(** *** Lines 118-134: the diagnostics *)

Definition record_stats (lazy_tensor : LazyTensor R) (rhs : Tensor R)
    (no_shift_solves inverse_solves : Tensor R) (weights : option (Tensor R))
  : M R unit :=
  s <- get_stats ;;
  if on s then
    emit (EvAtMatmul no_shift_solves) ;;
    r <- lift (binop fadd (matmul lazy_tensor no_shift_solves) rhs) ;;
    n <- lift (reduce_dim_m2 norm_list true rhs) ;;
    let d := clamp_min_ n (lit (1 # 10000000000)%Q) in
    emit (EvDiv ResidualNorm d) ;;
    r <- lift (binop_ fdiv r d) ;;
    r <- lift (reduce_dim_m2 norm_list false r) ;;
    set_minres_residual (mean_item r) ;;
    p <- lift (binop fmul no_shift_solves rhs) ;;
    p <- lift (reduce_dim_m2 sum_list false p) ;;
    let inv_quad_res := tmap (fun x => fmul x (lit (-1)%Q)) p in
    w <- match weights with
         | None => raise TypeError
         | Some w => ret w
         end ;;
    q <- lift (binop fmul inverse_solves w) ;;
    q <- lift (reduce_dim sum_list 0 false q) ;;
    let q := tmap (fun x => fmul x x) q in
    q <- lift (reduce_dim_m2 sum_list false q) ;;
    q <- lift (binop_ fsub q inv_quad_res) ;;
    let d := clamp_min_ inv_quad_res (lit (1 # 100000)%Q) in
    emit (EvDiv CiqDiff d) ;;
    q <- lift (binop_ fdiv q d) ;;
    let q := tmap fabs q in
    set_ciq_diff (mean_item q)
  else ret tt.

(** *** The function *)

Definition contour_integral_quad (lazy_tensor : LazyTensor R) (rhs : Tensor R)
    (inverse : bool) (weights shifts : option (Tensor R))
    (max_lanczos_iter num_contour_quadrature : nat)
  : M R (Tensor R * option (Tensor R) * Tensor R * Tensor R) :=
  output_batch_shape <-
    lift (_mul_broadcast_shape (batch_shape lazy_tensor) (drop_last2 (shape rhs))) ;;
  ' (weights, shifts) <-
    match shifts with
    | None =>
        ' (weights, shifts) <-
          derive lazy_tensor rhs max_lanczos_iter num_contour_quadrature
                 output_batch_shape ;;
        ret (Some weights, shifts)
    | Some shifts => ret (weights, shifts)
    end ;;
  emit (EvMinres rhs (lit (-1)%Q) shifts) ;;
  let solves := minres (fun v => _matmul lazy_tensor v) rhs (lit (-1)%Q) shifts in
  no_shift_solves <- lift (index0 solves) ;;
  solves <- lift (slice_from1 solves) ;;
  let inverse_solves := solves in
  solves <- (if negb inverse
             then emit (EvMatmul solves) ;; ret (_matmul lazy_tensor solves)
             else ret solves) ;;
  record_stats lazy_tensor rhs no_shift_solves inverse_solves weights ;;
  ret (solves, weights, no_shift_solves, shifts).

End ContourIntegralQuad.

Arguments sub_shifts_weights : simpl never.

(** ** A computable instance: rational scalars, 1x1 operators

    Over the rationals the definitions above run.  The square root and the
    elliptic functions are replaced by short rational approximations; for a
    1x1 operator Lanczos, the eigen-decomposition and the shifted solves are
    exact and are computed directly. *)

Module Toy.

Definition newton_sqrt (x : Q) : Q :=
  let step := fun y : Q => Qred ((y + x / y) / 2)%Q in
  if Qle_bool x 0 then 0%Q else step (step (step (step 1%Q))).

Definition ellipk_series (m : Q) : Q :=
  Qred ((355 # 226) * (1 + m / 4 + (9 # 64) * m * m))%Q.

Definition ellipj_series (u m : Q) : Q * Q * Q :=
  (Qred (u - (1 + m) * u * u * u / 6)%Q,
   Qred (1 - u * u / 2)%Q,
   Qred (1 - m * u * u / 2)%Q).

#[export] Instance ScalarQ : Scalar Q := {|
  lit := fun q => q;
  pi := (355 # 113)%Q;
  fadd := fun x y => Qred (x + y)%Q;
  fsub := fun x y => Qred (x - y)%Q;
  fmul := fun x y => Qred (x * y)%Q;
  fdiv := fun x y => Qred (x / y)%Q;
  fsqrt := newton_sqrt;
  fabs := Qabs;
  fmax := fun x y => if Qle_bool x y then y else x;
  fmin := fun x y => if Qle_bool x y then x else y;
  fle := Qle_bool;
  ellipk := ellipk_series;
  ellipj := ellipj_series
|}.

(** the only entry of K, read off K applied to [[1]] *)
Definition entry (closure : Tensor Q -> Tensor Q) : Q :=
  hd 0%Q (data (closure (mkTensor [1; 1] [1%Q]))).

Definition lanczos_1x1 (closure : Tensor Q -> Tensor Q) (init_vecs : Tensor Q)
    (matrix_shape batch_shape : list nat) (max_iter : nat) : Tensor Q * Tensor Q :=
  (mkTensor [1; 1] [1%Q], closure (mkTensor [1; 1] [1%Q])).

Definition symeig_1x1 (mat : Tensor Q) : option (Tensor Q) :=
  match shape mat with
  | [1; 1] => Some (mkTensor [1] (data mat))
  | _ => None
  end.

Definition solve_1x1 (closure : Tensor Q -> Tensor Q) (rhs : Tensor Q) (value : Q)
    (shift : Tensor Q) : result (Tensor Q) :=
  binop fdiv rhs
    (mkTensor (shape shift ++ [1; 1])
       (map (fun s => Qred (value * entry closure + s)%Q) (data shift))).

Definition minres_1x1 (closure : Tensor Q -> Tensor Q) (rhs : Tensor Q) (value : Q)
    (shifts : Tensor Q) : Tensor Q :=
  match rbind (unbind shifts) (fun ss =>
        rbind (rmapM (solve_1x1 closure rhs value) ss) (@stack Q)) with
  | Ok t => t
  | Raise _ => mkTensor [0] []
  end.

#[export] Instance Collaborators1x1 : Collaborators Q := {|
  lanczos_tridiag := lanczos_1x1;
  symeig := symeig_1x1;
  minres := minres_1x1
|}.

(** the operator [[k]] *)
Definition K1 (k : Q) : LazyTensor Q := {|
  lt_shape := [1; 1];
  _matmul := tmap (fun x => Qred (k * x)%Q);
  diag := mkTensor [1] [k];
  matmul := tmap (fun x => Qred (k * x)%Q)
|}.

Definition stats_off : Stats Q :=
  {| on := false; condition_number := None; minres_residual := None; ciq_diff := None |}.
Definition stats_on : Stats Q :=
  {| on := true; condition_number := None; minres_residual := None; ciq_diff := None |}.
Definition world_off : World Q := {| settings := stats_off; trace := [] |}.
Definition world_on : World Q := {| settings := stats_on; trace := [] |}.

(** the right-hand side [[1]], and two shifts with one weight for it *)
Definition b1 : Tensor Q := mkTensor [1; 1] [1%Q].
Definition two_shifts : Tensor Q := mkTensor [2] [0%Q; (-2)%Q].
Definition one_weight : Tensor Q := mkTensor [1; 1; 1] [(-1)%Q].

(** a 2 x 3 matrix *)
Definition m23 : Tensor Q := mkTensor [2; 3] [1%Q; 2%Q; 3%Q; 4%Q; 5%Q; 6%Q].

(** *** The operator diag(0, 1), with Lanczos stopped after one step *)

Definition dot (a b : list Q) : Q :=
  fold_left (fun acc p => Qred (acc + fst p * snd p)%Q) (combine a b) 0%Q.

(** Lanczos with max_iter = 1 on a single seed q: the basis is q / |q| and
    the matrix is 1x1, the Rayleigh quotient q.Kq / q.q *)
Definition lanczos_one_step (closure : Tensor Q -> Tensor Q) (init_vecs : Tensor Q)
    (matrix_shape batch_shape : list nat) (max_iter : nat) : Tensor Q * Tensor Q :=
  let q := data init_vecs in
  (tmap (fun x => Qred (x / newton_sqrt (dot q q))%Q) init_vecs,
   mkTensor [1; 1] [Qred (dot q (data (closure init_vecs)) / dot q q)%Q]).

(** diag(0, 1) applied to a tensor of two rows *)
Definition rows01 (v : Tensor Q) : Tensor Q :=
  let k := (length (data v) / 2)%nat in
  mkTensor (shape v) (repeat 0%Q k ++ skipn k (data v)).

Definition D01 : LazyTensor Q := {|
  lt_shape := [2; 2];
  _matmul := rows01;
  diag := mkTensor [2] [0%Q; 1%Q];
  matmul := rows01
|}.

(** the solutions of (value * diag(0, 1) + s) x = rhs, one for each shift s *)
Definition solve_D01 (rhs : Tensor Q) (value : Q) (shift : Tensor Q)
  : result (Tensor Q) :=
  let s := hd 0%Q (data shift) in
  let k := (length (data rhs) / 2)%nat in
  Ok (mkTensor (shape rhs)
        (map (fun x => Qred (x / s)%Q) (firstn k (data rhs)) ++
         map (fun x => Qred (x / (value + s))%Q) (skipn k (data rhs)))).

Definition minres_D01 (closure : Tensor Q -> Tensor Q) (rhs : Tensor Q) (value : Q)
    (shifts : Tensor Q) : Tensor Q :=
  match rbind (unbind shifts) (fun ss =>
        rbind (rmapM (solve_D01 rhs value) ss) (@stack Q)) with
  | Ok t => t
  | Raise _ => mkTensor [0] []
  end.

Definition CollaboratorsOneStep : Collaborators Q := {|
  lanczos_tridiag := lanczos_one_step;
  symeig := symeig_1x1;
  minres := minres_D01
|}.

(** the right-hand side (1, 0) *)
Definition e1 : Tensor Q := mkTensor [2; 1] [1%Q; 0%Q].

End Toy.

(** ** Notions used in the statements *)

Section Notions.
Context {R : Type} `{Scalar R} `{Collaborators R}.

(** the arguments of the engine's own calls of [_matmul], in order *)
Definition matmul_args (tr : list (Event R)) : list (Tensor R) :=
  flat_map (fun e => match e with EvMatmul v => [v] | _ => [] end) tr.

(** the shift sequences the solver was invoked with, in order *)
Definition minres_shifts (tr : list (Event R)) : list (Tensor R) :=
  flat_map (fun e => match e with EvMinres _ _ s => [s] | _ => [] end) tr.

(** the events of the shift/weight derivation (lines 35-106): the Lanczos
    run, the eigenvalue estimation and the two divisions of the condition
    number, whose divisors are the maximum eigenvalues and the mean of k2 as
    they were computed *)
Inductive derivation_event : Event R -> Prop :=
| de_lanczos iv n : derivation_event (EvLanczos iv n)
| de_symeig mat : derivation_event (EvSymeig mat)
| de_diag : derivation_event EvDiag
| de_ratio approx_eigs max_eig :
    reduce_last fmax approx_eigs = Ok max_eig ->
    derivation_event (EvDiv CondRatio max_eig)
| de_number k2 :
    derivation_event (EvDiv CondNumber (scalar_tensor (mean_item k2))).

(** the events of the diagnostics (lines 118-134): one application of the
    operator and two divisions, whose divisors went through clamp_min_ *)
Inductive diagnostic_event : Event R -> Prop :=
| ge_apply v : diagnostic_event (EvAtMatmul v)
| ge_residual t :
    diagnostic_event (EvDiv ResidualNorm (clamp_min_ t (lit (1 # 10000000000)%Q)))
| ge_ciq t :
    diagnostic_event (EvDiv CiqDiff (clamp_min_ t (lit (1 # 100000)%Q))).

(** the events of the shifted solve and of the result assembly (lines 110-115) *)
Inductive solve_event : Event R -> Prop :=
| se_minres rhs value shifts : solve_event (EvMinres rhs value shifts)
| se_matmul v : solve_event (EvMatmul v).

(** the world after the events [evs] *)
Definition logged (w : World R) (evs : list (Event R)) : World R :=
  {| settings := settings w; trace := trace w ++ evs |}.

(** a computation only adds events that satisfy [P] *)
Definition emits_only {A} (P : Event R -> Prop) (m : M R A) : Prop :=
  forall w w' r, m w = (w', r) ->
    exists evs, trace w' = trace w ++ evs /\ Forall P evs.

(** *** The formulas of the contour, for one batch element and one node *)

(** the complete elliptic integral at the complementary modulus *)
Definition Kp_of (k2 : R) : R := ellipk (fsub (lit 1%Q) k2).

(** the [j]-th of the [N] contour points, [j] counted from 0 *)
Definition contour_point (N : nat) (k2 : R) (j : nat) : complex :=
  cdiv (cmul (cmul imag_unit (creal (fsub (of_nat (S j)) (lit 0.5%Q))))
             (creal (Kp_of k2)))
       (creal (of_nat N)).

(** sn, cn and dn at that point, through the imaginary transformation *)
Definition jacobi_at (N : nat) (k2 : R) (j : nat) : complex * R * R :=
  let '(sn, cn, dn) := ellipj (im (contour_point N k2 j)) (fsub (lit 1%Q) k2) in
  let cn' := fdiv (lit 1%Q) cn in
  (cmul (cmul imag_unit (creal sn)) (creal cn'), cn', fmul dn cn').

Definition shift_formula (N : nat) (k2 min_eig : R) (j : nat) : R :=
  let '(sn, _, _) := jacobi_at N k2 j in
  let w := cmul (creal (fsqrt min_eig)) sn in
  re (cmul w w).

Definition weight_constant (N : nat) (k2 min_eig : R) : R :=
  fdiv (fmul (fmul (lit (-2)%Q) (Kp_of k2)) (fsqrt min_eig)) (fmul pi (of_nat N)).

Definition weight_formula (N : nat) (k2 min_eig : R) (j : nat) : R :=
  let '(_, cn, dn) := jacobi_at N k2 j in
  fmul (fmul cn dn) (weight_constant N k2 min_eig).

End Notions.

(** ** More of torch: diagonals, index tensors, repetition *)

Section TorchMore.
Context {R : Type} `{Scalar R}.

(** an index into a dimension of size [n]; a negative index counts from the
    end *)
Definition wrap_index (n : nat) (i : Z) : result nat :=
  if ((0 <=? i) && (i <? Z.of_nat n))%Z then Ok (Z.to_nat i)
  else if ((i <? 0) && (- Z.of_nat n <=? i))%Z then Ok (Z.to_nat (Z.of_nat n + i))
  else Raise IndexError.

(** the common length of one-dimensional index tensors that broadcast *)
Definition broadcast_len (lens : list nat) : result nat :=
  match filter (fun n => negb (n =? 1)) lens with
  | [] => Ok 1
  | a :: rest => if forallb (Nat.eqb a) rest then Ok a else Raise IndexError
  end.

Definition stretch (len : nat) (l : list Z) : list Z :=
  if length l =? len then l else repeat (hd 0%Z l) len.

(** the block of [size] elements number [off] *)
Definition block_at (t : Tensor R) (off size : nat) : list R :=
  firstn size (skipn (off * size) (data t)).

(** t[left, right] for one-dimensional index tensors *)
Definition index_pairs (t : Tensor R) (left right : list Z) : result (Tensor R) :=
  match shape t with
  | m :: n :: rest =>
      rbind (broadcast_len [length left; length right]) (fun len =>
      rbind (rmapM (fun p =>
               rbind (wrap_index m (fst p)) (fun i =>
               rbind (wrap_index n (snd p)) (fun j =>
               Ok (block_at t (i * n + j) (prod_shape rest)))))
             (combine (stretch len left) (stretch len right))) (fun blocks =>
      Ok (mkTensor (len :: rest) (concat blocks))))
  | _ => Raise IndexError
  end.

(** t[batch, left, right] for one-dimensional index tensors *)
Definition index_triples (t : Tensor R) (batch left right : list Z)
  : result (Tensor R) :=
  match shape t with
  | b :: m :: n :: rest =>
      rbind (broadcast_len [length batch; length left; length right]) (fun len =>
      rbind (rmapM (fun p =>
               rbind (wrap_index b (fst (fst p))) (fun k =>
               rbind (wrap_index m (snd (fst p))) (fun i =>
               rbind (wrap_index n (snd p)) (fun j =>
               Ok (block_at t ((k * m + i) * n + j) (prod_shape rest))))))
             (combine (combine (stretch len batch) (stretch len left))
                      (stretch len right))) (fun blocks =>
      Ok (mkTensor (len :: rest) (concat blocks))))
  | _ => Raise IndexError
  end.

(** t.diag(): the diagonal of a matrix, the diagonal matrix of a vector *)
Definition tdiag (t : Tensor R) : result (Tensor R) :=
  match shape t with
  | [n] =>
      Ok (mkTensor [n; n]
            (flat_map (fun i => map (fun j => if i =? j then nth i (data t) zero
                                               else zero) (seq 0 n))
                      (seq 0 n)))
  | [m; n] =>
      Ok (mkTensor [Nat.min m n]
            (map (fun i => nth (i * n + i) (data t) zero) (seq 0 (Nat.min m n))))
  | _ => Raise RuntimeError
  end.

(** the elements of a tensor of shape [sh], repeated [reps] times along each
    dimension *)
Fixpoint tile (reps sh : list nat) (l : list R) : list R :=
  match reps, sh with
  | r :: reps', d :: sh' =>
      concat (repeat (flat_map (tile reps' sh') (chunks d (prod_shape sh') l)) r)
  | _, _ => l
  end.

(** t.repeat(sizes): called without a size it raises TypeError, with fewer
    sizes than the tensor has dimensions RuntimeError *)
Definition trepeat (t : Tensor R) (sizes : list nat) : result (Tensor R) :=
  match sizes with
  | [] => Raise TypeError
  | _ :: _ =>
      if length sizes <? dim t then Raise RuntimeError
      else
        let sh := pad_shape (length sizes) (shape t) in
        Ok (mkTensor (map (fun p => fst p * snd p) (combine sizes sh))
              (tile sizes sh (data t)))
  end.

End TorchMore.

(** ** The other methods of NonLazyVariable *)

Module NonLazyMethods.
Section Methods.
Context {R : Type} `{Scalar R}.
Import NonLazy.

Definition diag (self : @NonLazyVariable R) : result (Tensor R) := tdiag (var self).

Definition repeat (self : @NonLazyVariable R) (sizes : list nat)
  : result (@NonLazyVariable R) :=
  rbind (trepeat (var self) sizes) (fun v => Ok (__init__ v)).

Definition _get_indices (self : @NonLazyVariable R) (left_indices right_indices : list Z)
  : result (Tensor R) :=
  index_pairs (var self) left_indices right_indices.

Definition _batch_get_indices (self : @NonLazyVariable R)
    (batch_indices left_indices right_indices : list Z) : result (Tensor R) :=
  index_triples (var self) batch_indices left_indices right_indices.

End Methods.
End NonLazyMethods.

(** np.arange(n), as an index tensor *)
Definition arange (n : nat) : list Z := map Z.of_nat (seq 0 n).

(** the events of the diagnostics and of the recorded condition number *)
Definition is_stats_event {R} (e : Event R) : bool :=
  match e with
  | EvAtMatmul _ => true
  | EvDiv CondNumber _ | EvDiv ResidualNorm _ | EvDiv CiqDiff _ => true
  | _ => false
  end.

(** a computation that, run with the diagnostics off, leaves the diagnostics
    record as it is and adds no event of the diagnostics *)
Definition stats_untouched {R A} (m : M R A) : Prop :=
  forall w w' r, m w = (w', r) -> on (settings w) = false ->
    settings w' = settings w /\
    exists evs, trace w' = trace w ++ evs /\
                Forall (fun e => is_stats_event e = false) evs.

(** * Properties *)

Unset Implicit Arguments.

(** ** Blocks, columns and transposition *)

Section ListFacts.
Context {R : Type} `{Scalar R}.

Lemma chunks_length (k n : nat) (l : list R) : length (chunks k n l) = k.
Proof.
  revert l; induction k as [|k IH]; intros l; simpl; [reflexivity|].
  now rewrite IH.
Qed.

Lemma chunks_each (k n : nat) (l : list R) :
  k * n <= length l -> Forall (fun c => length c = n) (chunks k n l).
Proof.
  revert l; induction k as [|k IH]; intros l Hl; simpl; constructor.
  - rewrite length_firstn. simpl in Hl. lia.
  - apply IH. rewrite length_skipn. simpl in Hl. lia.
Qed.

Lemma concat_chunks (k n : nat) (l : list R) :
  length l = k * n -> concat (chunks k n l) = l.
Proof.
  revert l; induction k as [|k IH]; intros l Hl; simpl.
  - simpl in Hl. now apply length_zero_iff_nil in Hl.
  - rewrite IH.
    + apply firstn_skipn.
    + rewrite length_skipn. simpl in Hl. lia.
Qed.

Lemma chunks_concat (n : nat) (cs : list (list R)) :
  Forall (fun c => length c = n) cs ->
  chunks (length cs) n (concat cs) = cs.
Proof.
  induction 1 as [|c cs Hc _ IH]; simpl; [reflexivity|].
  rewrite firstn_app, <- Hc, firstn_all, Nat.sub_diag, firstn_O, app_nil_r.
  rewrite skipn_app, skipn_all, Nat.sub_diag, skipn_O. simpl.
  rewrite Hc in *. now rewrite IH.
Qed.

Lemma length_concat_each (n : nat) (cs : list (list R)) :
  Forall (fun c => length c = n) cs -> length (concat cs) = length cs * n.
Proof.
  induction 1 as [|c cs Hc _ IH]; simpl; [reflexivity|].
  rewrite length_app, IH, Hc. reflexivity.
Qed.

Lemma columns_length (p : nat) (rows : list (list R)) :
  length (columns p rows) = p.
Proof. unfold columns. now rewrite length_map, length_seq. Qed.

Lemma columns_each (p : nat) (rows : list (list R)) :
  Forall (fun c => length c = length rows) (columns p rows).
Proof.
  unfold columns. apply Forall_forall. intros c Hc.
  apply in_map_iff in Hc. destruct Hc as [j [<- _]]. apply length_map.
Qed.

Lemma map_nth_seq (l : list R) :
  map (fun j => nth j l zero) (seq 0 (length l)) = l.
Proof.
  apply nth_ext with (d := zero) (d' := zero).
  - now rewrite length_map, length_seq.
  - intros i Hi. rewrite length_map, length_seq in Hi.
    rewrite nth_indep with (d' := nth 0 l zero) by (now rewrite length_map, length_seq).
    rewrite map_nth with (f := fun j => nth j l zero).
    rewrite seq_nth by assumption. reflexivity.
Qed.

Lemma columns_columns (n : nat) (rows : list (list R)) :
  Forall (fun r => length r = n) rows ->
  columns (length rows) (columns n rows) = rows.
Proof.
  intros Hrows. unfold columns at 1.
  apply nth_ext with (d := []) (d' := []).
  - now rewrite length_map, length_seq.
  - intros i Hi. rewrite length_map, length_seq in Hi.
    rewrite nth_indep with (d' := (fun j => map (fun row => nth j row zero) (columns n rows)) 0)
      by (now rewrite length_map, length_seq).
    rewrite map_nth with (f := fun j => map (fun row => nth j row zero) (columns n rows)).
    rewrite seq_nth by assumption. simpl.
    unfold columns. rewrite map_map.
    assert (Hlen : length (nth i rows []) = n).
    { rewrite Forall_forall in Hrows. apply Hrows. now apply nth_In. }
    transitivity (map (fun j => nth j (nth i rows []) zero)
                      (seq 0 (length (nth i rows [])))); [|apply map_nth_seq].
    rewrite Hlen.
    apply map_ext_in. intros j Hj. apply in_seq in Hj.
    rewrite nth_indep with (d' := (fun row => nth j row zero) []) by (now rewrite length_map).
    now rewrite map_nth with (f := fun row => nth j row zero).
Qed.

End ListFacts.

Section TransposeFacts.
Context {R : Type} `{Scalar R}.

Lemma prod_shape_app (s1 s2 : list nat) :
  prod_shape (s1 ++ s2) = prod_shape s1 * prod_shape s2.
Proof.
  induction s1 as [|a s1 IH]; simpl.
  - lia.
  - unfold prod_shape in *. simpl. rewrite IH. lia.
Qed.

Lemma shape_split2 (s : list nat) :
  2 <= length s -> exists pre m n, s = pre ++ [m; n].
Proof.
  intros Hs.
  destruct (exists_last (l := s)) as [s1 [n ->]].
  { intros ->. simpl in Hs. lia. }
  rewrite length_app in Hs. simpl in Hs.
  destruct (exists_last (l := s1)) as [pre [m ->]].
  { intros ->. simpl in Hs. lia. }
  exists pre, m, n. now rewrite <- app_assoc.
Qed.

Lemma last2_app (pre : list nat) (m n : nat) : last2 (pre ++ [m; n]) = [m; n].
Proof.
  unfold last2. rewrite length_app. simpl.
  replace (length pre + 2 - 2) with (length pre + 0) by lia.
  rewrite skipn_app, Nat.add_0_r, skipn_all, Nat.sub_diag. reflexivity.
Qed.

Lemma drop_last2_app (pre : list nat) (m n : nat) :
  drop_last2 (pre ++ [m; n]) = pre.
Proof.
  unfold drop_last2.
  replace (pre ++ [m; n]) with ((pre ++ [m]) ++ [n]) by now rewrite <- app_assoc.
  now rewrite !removelast_last.
Qed.

Lemma transpose_block_length (m n : nat) (c : list R) :
  length (transpose_block m n c) = n * m.
Proof.
  unfold transpose_block.
  rewrite length_concat_each with (n := m).
  - now rewrite columns_length.
  - pose proof (columns_each n (chunks m n c)) as Hc.
    now rewrite chunks_length in Hc.
Qed.

Lemma transpose_block_twice (m n : nat) (c : list R) :
  length c = m * n -> transpose_block n m (transpose_block m n c) = c.
Proof.
  intros Hc. unfold transpose_block.
  pose proof (columns_each n (chunks m n c)) as Hcols.
  rewrite chunks_length in Hcols.
  pose proof (chunks_concat _ _ Hcols) as Hcc.
  rewrite columns_length in Hcc. rewrite Hcc.
  pose proof (@columns_columns R _ n (chunks m n c)) as Hrows.
  rewrite chunks_length in Hrows. rewrite Hrows.
  - now apply concat_chunks.
  - apply chunks_each. lia.
Qed.

Lemma transpose_data_twice (k m n : nat) (l : list R) :
  length l = k * (m * n) ->
  flat_map (transpose_block n m)
    (chunks k (n * m) (flat_map (transpose_block m n) (chunks k (m * n) l))) = l.
Proof.
  intros Hl. rewrite !flat_map_concat_map.
  assert (Hlen : Forall (fun c => length c = n * m)
                   (map (transpose_block m n) (chunks k (m * n) l))).
  { apply Forall_forall. intros c Hc. apply in_map_iff in Hc.
    destruct Hc as [c0 [<- _]]. apply transpose_block_length. }
  pose proof (chunks_concat _ _ Hlen) as Hcc.
  rewrite length_map, chunks_length in Hcc. rewrite Hcc.
  rewrite map_map.
  rewrite map_ext_in with (g := fun c => c).
  - rewrite map_id. now apply concat_chunks.
  - intros c Hc. apply transpose_block_twice.
    pose proof (@chunks_each R k (m * n) l) as He.
    rewrite Forall_forall in He. apply He; [lia | assumption].
Qed.

Lemma transpose_last2_shape (pre : list nat) (m n : nat) (l : list R) :
  transpose_last2 (mkTensor (pre ++ [m; n]) l) =
  Ok (mkTensor (pre ++ [n; m])
        (flat_map (transpose_block m n) (chunks (prod_shape pre) (m * n) l))).
Proof.
  unfold transpose_last2. simpl. rewrite last2_app, drop_last2_app. reflexivity.
Qed.

End TransposeFacts.

(** ** NonLazyVariable *)

Section NonLazyVariableFacts.
Context {R : Type} `{Scalar R}.
Import NonLazy.

(** C10. [evaluate] returns the matrix the variable was built from, unchanged;
    and for a matrix [var] (a tensor of at least two dimensions)
    [_transpose_nonbatch] applied twice to [NonLazyVariable(var)] succeeds and
    yields a variable whose [evaluate()] is [var] again. *)
Theorem transpose_nonbatch_twice (v : Tensor R) (Hwf : wf v) (Hdim : 2 <= dim v) :
  evaluate (__init__ v) = v /\
  exists t1 t2,
    _transpose_nonbatch (__init__ v) = Ok t1 /\
    _transpose_nonbatch t1 = Ok t2 /\
    evaluate t2 = v.
Proof.
  split; [reflexivity|].
  destruct v as [s l]. unfold dim, wf, numel in *. simpl in *.
  destruct (shape_split2 s Hdim) as [pre [m [n ->]]].
  rewrite prod_shape_app in Hwf.
  assert (Hmn : prod_shape [m; n] = m * n) by (unfold prod_shape; simpl; lia).
  rewrite Hmn in Hwf.
  unfold _transpose_nonbatch. simpl var.
  rewrite transpose_last2_shape. simpl rbind.
  eexists. eexists. split; [reflexivity|].
  simpl var. rewrite transpose_last2_shape. simpl rbind.
  split; [reflexivity|].
  unfold evaluate. simpl var. f_equal.
  now apply transpose_data_twice.
Qed.

End NonLazyVariableFacts.

(** ** The state monad *)

Section MonadFacts.
Context {R : Type}.

Lemma bind_Ok_inv {A B} (m : M R A) (f : A -> M R B) (w w' : World R) (b : B) :
  bind m f w = (w', Ok b) ->
  exists a w1, m w = (w1, Ok a) /\ f a w1 = (w', Ok b).
Proof.
  unfold bind. destruct (m w) as [w1 [a|e]]; intros Hb.
  - now exists a, w1.
  - discriminate.
Qed.

Lemma lift_Ok_inv {A} (r : result A) (w w' : World R) (a : A) :
  lift r w = (w', Ok a) -> w' = w /\ r = Ok a.
Proof. unfold lift. intros Hl. inversion Hl. now split. Qed.

Lemma ret_Ok_inv {A} (x a : A) (w w' : World R) :
  ret x w = (w', Ok a) -> w' = w /\ a = x.
Proof. unfold ret. intros Hr. inversion Hr. now split. Qed.

Lemma emit_inv (e : Event R) (w w' : World R) (r : result unit) :
  emit e w = (w', r) ->
  settings w' = settings w /\ trace w' = trace w ++ [e] /\ r = Ok tt.
Proof. unfold emit. intros He. inversion He. now repeat split. Qed.

Lemma emits_only_ret {A} (P : Event R -> Prop) (a : A) : emits_only P (ret a).
Proof.
  intros w w' r Hr. inversion Hr. subst. exists []. now rewrite app_nil_r.
Qed.

Lemma emits_only_lift {A} (P : Event R -> Prop) (x : result A) :
  emits_only P (lift x).
Proof.
  intros w w' r Hr. inversion Hr. subst. exists []. now rewrite app_nil_r.
Qed.

Lemma emits_only_raise {A} (P : Event R -> Prop) (e : exn) :
  emits_only P (@raise R A e).
Proof.
  intros w w' r Hr. inversion Hr. subst. exists []. now rewrite app_nil_r.
Qed.

Lemma emits_only_get_stats (P : Event R -> Prop) : emits_only P get_stats.
Proof.
  intros w w' r Hr. inversion Hr. subst. exists []. now rewrite app_nil_r.
Qed.

Lemma emits_only_put_stats (P : Event R -> Prop) (s : Stats R) :
  emits_only P (put_stats s).
Proof.
  intros w w' r Hr. inversion Hr. subst. exists []. simpl. now rewrite app_nil_r.
Qed.

Lemma emits_only_emit (P : Event R -> Prop) (e : Event R) :
  P e -> emits_only P (emit e).
Proof.
  intros He w w' r Hr. inversion Hr. subst. exists [e]. simpl. auto.
Qed.

Lemma emits_only_bind {A B} (P : Event R -> Prop) (m : M R A) (f : A -> M R B) :
  emits_only P m -> (forall a, emits_only P (f a)) -> emits_only P (bind m f).
Proof.
  intros Hm Hf w w' r. unfold bind.
  destruct (m w) as [w1 [a|e]] eqn:Em; intros Hr.
  - destruct (Hm _ _ _ Em) as [e1 [T1 F1]].
    destruct (Hf a _ _ _ Hr) as [e2 [T2 F2]].
    exists (e1 ++ e2). split.
    + now rewrite T2, T1, app_assoc.
    + now apply Forall_app.
  - inversion Hr. subst. eauto.
Qed.

Lemma emits_only_try {A} (P : Event R -> Prop) (body handler : M R A) :
  emits_only P body -> emits_only P handler ->
  emits_only P (try_except_RuntimeError body handler).
Proof.
  intros Hb Hh w w' r. unfold try_except_RuntimeError.
  destruct (body w) as [w1 [a|e]] eqn:Eb.
  - intros Hr. inversion Hr. subst. eauto.
  - destruct (Hb _ _ _ Eb) as [e1 [T1 F1]].
    destruct e; intros Hr;
      try (inversion Hr; subst; eauto; fail).
    destruct (Hh _ _ _ Hr) as [e2 [T2 F2]].
    exists (e1 ++ e2). split.
    + now rewrite T2, T1, app_assoc.
    + now apply Forall_app.
Qed.

Lemma emits_only_weaken {A} (P Q : Event R -> Prop) (m : M R A) :
  (forall e, P e -> Q e) -> emits_only P m -> emits_only Q m.
Proof.
  intros HPQ Hm w w' r Hr. destruct (Hm _ _ _ Hr) as [evs [T F]].
  exists evs. split; [assumption|].
  eapply Forall_impl; eauto.
Qed.

Lemma emits_only_bind_lift {A B} (P : Event R -> Prop) (x : result A)
    (f : A -> M R B) :
  (forall a, x = Ok a -> emits_only P (f a)) -> emits_only P (bind (lift x) f).
Proof.
  intros Hf w w' r. unfold bind, lift. destruct x as [a|e]; intros Hr.
  - eapply Hf; eauto.
  - inversion Hr. subst. exists []. now rewrite app_nil_r.
Qed.

End MonadFacts.

Ltac emits_step :=
  first
    [ apply emits_only_ret
    | apply emits_only_lift
    | apply emits_only_raise
    | apply emits_only_get_stats
    | apply emits_only_put_stats
    | apply emits_only_emit; solve [constructor | econstructor; eauto]
    | apply emits_only_bind_lift; intros ? ?
    | apply emits_only_bind; [|intros ?] ].


(** ** The eigenvalue estimates *)

Section EigenvalueFacts.
Context {R : Type} `{Scalar R} `{Collaborators R}.

Lemma approx_eigs_fallback (lazy_tensor : LazyTensor R) (mat : Tensor R) (w : World R) :
  symeig mat = None \/
  (exists e m, symeig mat = Some e /\ tmin e = Ok m /\ fle m zero = true) ->
  approx_eigs_of lazy_tensor mat w =
    (logged w [EvSymeig mat; EvDiag], Ok (diag lazy_tensor)).
Proof.
  intros Hfail.
  unfold approx_eigs_of, try_except_RuntimeError, bind, emit, lift, raise, ret, logged.
  destruct Hfail as [-> | [e [m [-> [Hm Hle]]]]]; simpl.
  - now rewrite <- app_assoc.
  - rewrite Hm, Hle. simpl. now rewrite <- app_assoc.
Qed.

(** C4. When the eigen-decomposition of the Lanczos tridiagonal matrix fails
    (torch raises RuntimeError) or yields eigenvalues whose minimum is at most
    zero, the estimates are the operator's [diag()]: the handler returns them
    normally, and the branch continues from them exactly as it would from
    estimates of the decomposition. *)
Theorem eigs_fallback_to_diag (lazy_tensor : LazyTensor R) (rhs iv : Tensor R)
    (max_lanczos_iter N : nat) (obs : list nat) (w : World R)
    (Hiv : init_vecs lazy_tensor rhs = Ok iv)
    (Hfail :
       let mat := snd (lanczos_tridiag (fun v => _matmul lazy_tensor v) iv
                         (matrix_shape lazy_tensor) (batch_shape lazy_tensor)
                         max_lanczos_iter) in
       symeig mat = None \/
       (exists e m, symeig mat = Some e /\ tmin e = Ok m /\ fle m zero = true)) :
  let mat := snd (lanczos_tridiag (fun v => _matmul lazy_tensor v) iv
                    (matrix_shape lazy_tensor) (batch_shape lazy_tensor)
                    max_lanczos_iter) in
  approx_eigs_of lazy_tensor mat (logged w [EvLanczos iv max_lanczos_iter]) =
    (logged w [EvLanczos iv max_lanczos_iter; EvSymeig mat; EvDiag],
     Ok (diag lazy_tensor)) /\
  derive lazy_tensor rhs max_lanczos_iter N obs w =
    contour_from_eigs N obs (diag lazy_tensor)
      (logged w [EvLanczos iv max_lanczos_iter; EvSymeig mat; EvDiag]).
Proof.
  intros mat. subst mat. simpl in Hfail.
  assert (Happ := approx_eigs_fallback lazy_tensor _
                    (logged w [EvLanczos iv max_lanczos_iter]) Hfail).
  assert (Hlog : logged (logged w [EvLanczos iv max_lanczos_iter])
                   [EvSymeig (snd (lanczos_tridiag (fun v => _matmul lazy_tensor v) iv
                         (matrix_shape lazy_tensor) (batch_shape lazy_tensor)
                         max_lanczos_iter)); EvDiag] =
                 logged w [EvLanczos iv max_lanczos_iter;
                   EvSymeig (snd (lanczos_tridiag (fun v => _matmul lazy_tensor v) iv
                         (matrix_shape lazy_tensor) (batch_shape lazy_tensor)
                         max_lanczos_iter)); EvDiag]).
  { unfold logged. simpl. now rewrite <- app_assoc. }
  rewrite Hlog in Happ. split; [exact Happ|].
  unfold derive. unfold bind at 1. unfold lift at 1. rewrite Hiv.
  unfold bind at 1. unfold emit at 1.
  destruct (lanczos_tridiag _ iv _ _ _) as [basis mat] eqn:El. simpl in Happ.
  unfold bind at 1. unfold logged in Happ at 1. simpl in Happ. rewrite Happ.
  reflexivity.
Qed.

End EigenvalueFacts.

(** ** Shifts and weights of one batch element *)

Section NodeFacts.
Context {R : Type} `{Scalar R}.

Lemma map2_map {A} (f : R -> R -> R) (g h : A -> R) (l : list A) :
  map2 f (map g l) (map h l) = map (fun x => f (g x) (h x)) l.
Proof. induction l as [|a l IH]; simpl; [reflexivity | now rewrite IH]. Qed.

Lemma combine_map {A B C} (g : A -> B) (h : A -> C) (l : list A) :
  combine (map g l) (map h l) = map (fun x => (g x, h x)) l.
Proof. induction l as [|a l IH]; simpl; [reflexivity | now rewrite IH]. Qed.

Lemma nth_map_seq (F : nat -> R) (N j : nat) :
  j < N -> nth j (map F (seq 1 N)) zero = F (S j).
Proof.
  intros Hj.
  rewrite nth_indep with (d' := F 0) by (now rewrite length_map, length_seq).
  rewrite map_nth. now rewrite seq_nth.
Qed.

Lemma sub_shifts_weights_length (N : nat) (k2 min_eig : R) :
  length (fst (sub_shifts_weights N k2 min_eig)) = N /\
  length (snd (sub_shifts_weights N k2 min_eig)) = N.
Proof.
  unfold sub_shifts_weights, contour_points. simpl.
  repeat (rewrite ?map_map, ?map2_map, ?combine_map).
  now rewrite !length_map, length_seq.
Qed.

Lemma sub_shifts_weights_nth (N : nat) (k2 min_eig : R) (j : nat) :
  j < N ->
  nth j (fst (sub_shifts_weights N k2 min_eig)) zero = shift_formula N k2 min_eig j /\
  nth j (snd (sub_shifts_weights N k2 min_eig)) zero = weight_formula N k2 min_eig j.
Proof.
  intros Hj. unfold sub_shifts_weights, contour_points. simpl.
  repeat (rewrite ?map_map, ?map2_map, ?combine_map).
  rewrite !nth_map_seq by assumption.
  unfold shift_formula, weight_formula, weight_constant, jacobi_at, contour_point, Kp_of.
  destruct (ellipj _ _) as [[sn cn] dn]. simpl. split; reflexivity.
Qed.

End NodeFacts.

(** ** Writing the columns of the flat tensors *)

Section ColumnFacts.
Context {R : Type} `{Scalar R}.

Lemma set_nth_length (n : nat) (x : R) (l : list R) :
  length (set_nth n x l) = length l.
Proof.
  revert n; induction l as [|y l IH]; intros [|n]; simpl; auto.
Qed.

Lemma nth_set_nth_eq (n : nat) (x d : R) (l : list R) :
  n < length l -> nth n (set_nth n x l) d = x.
Proof.
  revert n; induction l as [|y l IH]; intros [|n] Hn; simpl in *; try lia; auto.
  apply IH. lia.
Qed.

Lemma nth_set_nth_neq (n k : nat) (x d : R) (l : list R) :
  n <> k -> nth k (set_nth n x l) d = nth k l d.
Proof.
  revert n k; induction l as [|y l IH]; intros [|n] [|k] Hn; simpl;
    auto; congruence.
Qed.

Lemma write_column_length (c i row : nat) (vals l : list R) :
  length (write_column c i row vals l) = length l.
Proof.
  revert row l; induction vals as [|v vals IH]; intros row l; simpl; [reflexivity|].
  now rewrite IH, set_nth_length.
Qed.

Lemma write_column_miss (c i row k : nat) (d : R) (vals l : list R) :
  (forall j, j < length vals -> k <> (row + j) * c + i) ->
  nth k (write_column c i row vals l) d = nth k l d.
Proof.
  revert row l; induction vals as [|v vals IH]; intros row l Hk; simpl; [reflexivity|].
  rewrite IH.
  - apply nth_set_nth_neq. specialize (Hk 0). simpl in Hk.
    rewrite Nat.add_0_r in Hk. intros E. apply Hk; [lia | now symmetry].
  - intros j Hj. specialize (Hk (S j)). simpl in Hk.
    replace (S row + j) with (row + S j) by lia. apply Hk. lia.
Qed.

Lemma write_column_hit (c i row j : nat) (d : R) (vals l : list R) :
  i < c -> j < length vals -> (row + j) * c + i < length l ->
  nth ((row + j) * c + i) (write_column c i row vals l) d = nth j vals d.
Proof.
  intros Hi. revert row j l; induction vals as [|v vals IH]; intros row j l Hj Hl;
    simpl in *; [lia|].
  destruct j as [|j].
  - rewrite write_column_miss.
    + rewrite Nat.add_0_r in *. now apply nth_set_nth_eq.
    + intros j' _. nia.
  - replace (row + S j) with (S row + j) in * by lia.
    apply IH; [lia|]. now rewrite set_nth_length.
Qed.

Lemma copy_column_Ok (t t' : Tensor R) (row0 i : nat) (vals : list R) :
  copy_column t row0 i vals = Ok t' ->
  exists r c, shape t = [r; c] /\ i < c /\ length vals = r - row0 /\
              t' = mkTensor [r; c] (write_column c i row0 vals (data t)).
Proof.
  unfold copy_column.
  destruct (shape t) as [|r [|c [|x s]]]; try discriminate.
  destruct (c <=? i) eqn:Ec; [discriminate|].
  destruct (length vals =? r - row0) eqn:El; [|discriminate].
  intros Hc. inversion Hc. apply Nat.leb_gt in Ec. apply Nat.eqb_eq in El.
  now exists r, c.
Qed.

Lemma copy_column_total (t : Tensor R) (r c row0 i : nat) (vals : list R) :
  shape t = [r; c] -> i < c -> length vals = r - row0 ->
  copy_column t row0 i vals =
    Ok (mkTensor [r; c] (write_column c i row0 vals (data t))).
Proof.
  intros Hs Hi Hl. unfold copy_column. rewrite Hs.
  apply Nat.leb_gt in Hi. rewrite Hi.
  apply Nat.eqb_eq in Hl. now rewrite Hl.
Qed.

End ColumnFacts.

Section LoopFacts.
Context {R : Type} `{Scalar R}.

Lemma index_inj (c a i b i' : nat) :
  i < c -> i' < c -> a * c + i = b * c + i' -> a = b /\ i = i'.
Proof.
  intros Hi Hi' E.
  destruct (lt_eq_lt_dec a b) as [[Hab | Hab] | Hab]; [exfalso; nia | | exfalso; nia].
  subst. split; [reflexivity | lia].
Qed.

Lemma prod_shape2 (a b : nat) : prod_shape [a; b] = a * b.
Proof. unfold prod_shape. simpl. lia. Qed.

(** What the loop leaves in the flat tensors: the columns of the batch
    elements it went through hold their shifts (from row 1 on) and weights;
    everything else is as it was. *)
Lemma store_loop_spec (N c : nat) (elems : list (R * R)) :
  forall (i0 : nat) (fs fw fs' fw' : Tensor R),
    shape fs = [N + 1; c] -> shape fw = [N; c] ->
    length (data fs) = (N + 1) * c -> length (data fw) = N * c ->
    store_loop N i0 elems fs fw = Ok (fs', fw') ->
    (forall e, e < length elems -> i0 + e < c) /\
    shape fs' = [N + 1; c] /\ shape fw' = [N; c] /\
    length (data fs') = (N + 1) * c /\ length (data fw') = N * c /\
    (forall k,
        (forall e j, e < length elems -> j < N -> k <> (1 + j) * c + (i0 + e)) ->
        nth k (data fs') zero = nth k (data fs) zero) /\
    (forall k,
        (forall e j, e < length elems -> j < N -> k <> j * c + (i0 + e)) ->
        nth k (data fw') zero = nth k (data fw) zero) /\
    (forall e j, e < length elems -> j < N ->
        let k2 := fst (nth e elems (zero, zero)) in
        let min_eig := snd (nth e elems (zero, zero)) in
        nth ((1 + j) * c + (i0 + e)) (data fs') zero =
          nth j (fst (sub_shifts_weights N k2 min_eig)) zero /\
        nth (j * c + (i0 + e)) (data fw') zero =
          nth j (snd (sub_shifts_weights N k2 min_eig)) zero).
Proof.
  induction elems as [|[a b] rest IH]; intros i0 fs fw fs' fw' Hsfs Hsfw Hlfs Hlfw Hrun.
  - simpl in Hrun. inversion Hrun. subst.
    repeat split; auto; simpl in *; lia.
  - cbn [store_loop] in Hrun.
    destruct (sub_shifts_weights_length N a b) as [Lss Lsw].
    destruct (sub_shifts_weights N a b) as [ss sw] eqn:Esw.
    cbn [fst snd] in Lss, Lsw.
    destruct (copy_column fs 1 i0 ss) as [fs1|e1] eqn:E1;
      simpl in Hrun; [|discriminate].
    destruct (copy_column fw 0 i0 sw) as [fw1|e2] eqn:E2;
      simpl in Hrun; [|discriminate].
    apply copy_column_Ok in E1. destruct E1 as [r1 [c1 [S1 [Hi [_ ->]]]]].
    apply copy_column_Ok in E2. destruct E2 as [r2 [c2 [S2 [_ [_ ->]]]]].
    rewrite Hsfs in S1. inversion S1. subst r1 c1.
    rewrite Hsfw in S2. inversion S2. subst r2 c2.
    apply IH in Hrun;
      [ | reflexivity | reflexivity
        | cbn [data]; now rewrite write_column_length
        | cbn [data]; now rewrite write_column_length ].
    cbn [data] in Hrun.
    destruct Hrun as [Hb [Hs1 [Hs2 [Hl1 [Hl2 [Hm1 [Hm2 Hv]]]]]]].
    assert (Hbound : forall e, e < length ((a, b) :: rest) -> i0 + e < c).
    { intros [|e] He; simpl in He; [lia|].
      specialize (Hb e). lia. }
    split; [exact Hbound|].
    do 4 (split; [assumption|]).
    split; [|split].
    + intros k Hk. rewrite Hm1.
      * apply write_column_miss. intros j Hj.
        specialize (Hk 0 j). cbn [length] in Hk. rewrite Nat.add_0_r in Hk.
        apply Hk; lia.
      * intros e j He Hj. specialize (Hk (S e) j). cbn [length] in Hk.
        replace (S i0 + e) with (i0 + S e) by lia. apply Hk; lia.
    + intros k Hk. rewrite Hm2.
      * apply write_column_miss. intros j Hj.
        specialize (Hk 0 j). cbn [length] in Hk. rewrite Nat.add_0_r in Hk.
        apply Hk; lia.
      * intros e j He Hj. specialize (Hk (S e) j). cbn [length] in Hk.
        replace (S i0 + e) with (i0 + S e) by lia. apply Hk; lia.
    + intros e j He Hj. cbn [length] in He.
      destruct e as [|e]; cbn [nth fst snd].
      * rewrite Nat.add_0_r, Esw. cbn [fst snd]. split.
        -- rewrite Hm1.
           ++ apply write_column_hit; [assumption | lia | nia].
           ++ intros e' j' He' Hj' E.
              specialize (Hb e' He').
              apply (@index_inj c (1 + j) i0 (1 + j') (S i0 + e')) in E; lia.
        -- rewrite Hm2.
           ++ replace (j * c + i0) with ((0 + j) * c + i0) by lia.
              apply write_column_hit; [assumption | lia | nia].
           ++ intros e' j' He' Hj' E.
              specialize (Hb e' He').
              apply (@index_inj c j i0 j' (S i0 + e')) in E; lia.
      * destruct (Hv e j) as [Hv1 Hv2]; [lia | assumption|].
        cbv zeta in Hv1, Hv2.
        replace (i0 + S e) with (S i0 + e) by lia. now split.
Qed.

Lemma store_loop_total (N c : nat) (elems : list (R * R)) :
  forall (i0 : nat) (fs fw : Tensor R),
    shape fs = [N + 1; c] -> shape fw = [N; c] ->
    i0 + length elems <= c ->
    exists fs' fw', store_loop N i0 elems fs fw = Ok (fs', fw').
Proof.
  induction elems as [|[a b] rest IH]; intros i0 fs fw Hsfs Hsfw Hb;
    cbn [store_loop].
  - eauto.
  - destruct (sub_shifts_weights_length N a b) as [Lss Lsw].
    destruct (sub_shifts_weights N a b) as [ss sw]. simpl in *.
    rewrite (@copy_column_total _ fs (N + 1) c 1 i0 ss) by (auto; lia).
    rewrite (@copy_column_total _ fw N c 0 i0 sw) by (auto; lia).
    simpl. apply IH; auto. lia.
Qed.

End LoopFacts.

(** ** The flat shifts and weights *)

Section FlatFacts.
Context {R : Type} `{Scalar R}.

Lemma zeros_2d (a b : nat) :
  shape (zeros [a; b]) = [a; b] /\ length (data (zeros [a; b])) = a * b.
Proof.
  unfold zeros. cbn [shape data]. now rewrite repeat_length, prod_shape2.
Qed.

(** With [k2] and [min_eig] the per-element ratio and minimum eigenvalue,
    the loop succeeds, and for every batch element [i] and every contour node
    [j] the shift stored at row [1 + j], column [i] of the flat shifts is the
    real part of the square of sqrt(min_eig) times the transformed sn at the
    [j]-th contour point, and the weight stored at row [j], column [i] is
    cn * dn at that point times -2 * Kp * sqrt(min_eig) / (pi * N), with
    Kp = ellipk(1 - k2). *)
Lemma flat_shifts_weights_formulas (N : nat) (k2 min_eig : Tensor R)
    (Hk : wf k2) (Hm : wf min_eig) (Hs : shape min_eig = shape k2) :
  exists fs fw,
    flat_shifts_weights N k2 min_eig = Ok (fs, fw) /\
    shape fs = [N + 1; numel k2] /\ shape fw = [N; numel k2] /\
    forall i j, i < numel k2 -> j < N ->
      nth ((1 + j) * numel k2 + i) (data fs) zero =
        shift_formula N (nth i (data k2) zero) (nth i (data min_eig) zero) j /\
      nth (j * numel k2 + i) (data fw) zero =
        weight_formula N (nth i (data k2) zero) (nth i (data min_eig) zero) j.
Proof.
  unfold wf in Hk, Hm.
  assert (Hlen : length (data min_eig) = length (data k2)).
  { rewrite Hk, Hm. unfold numel. now rewrite Hs. }
  assert (Hcomb : length (combine (data k2) (data min_eig)) = numel k2).
  { rewrite length_combine, Hlen, Hk. lia. }
  destruct (zeros_2d (N + 1) (numel k2)) as [Zs1 Zl1].
  destruct (zeros_2d N (numel k2)) as [Zs2 Zl2].
  unfold flat_shifts_weights.
  destruct (@store_loop_total R _ N (numel k2) (combine (data k2) (data min_eig)) 0
              (zeros [N + 1; numel k2]) (zeros [N; numel k2]) Zs1 Zs2)
    as [fs [fw Hrun]]; [lia|].
  exists fs, fw. split; [exact Hrun|].
  destruct (@store_loop_spec R _ N (numel k2) _ 0 _ _ fs fw Zs1 Zs2 Zl1 Zl2 Hrun)
    as [_ [Hs1 [Hs2 [_ [_ [_ [_ Hv]]]]]]].
  split; [assumption|]. split; [assumption|].
  intros i j Hi Hj.
  destruct (Hv i j) as [Hv1 Hv2]; [lia | assumption|].
  cbv zeta in Hv1, Hv2. cbn [Nat.add] in Hv1, Hv2.
  rewrite combine_nth in Hv1, Hv2 by (now symmetry).
  cbn [fst snd] in Hv1, Hv2.
  destruct (@sub_shifts_weights_nth R _ N (nth i (data k2) zero)
              (nth i (data min_eig) zero) j Hj) as [F1 F2].
  rewrite F1 in Hv1. rewrite F2 in Hv2.
  split; [|exact Hv2].
  rewrite <- Hv1. reflexivity.
Qed.

End FlatFacts.

(** ** Broadcasting and stacking *)

Section ExpandFacts.
Context {R : Type} `{Scalar R}.

Lemma rmapM_Forall2 {A B} (f : A -> result B) (l : list A) (ls : list B) :
  rmapM f l = Ok ls -> Forall2 (fun a b => f a = Ok b) l ls.
Proof.
  revert ls; induction l as [|a l IH]; intros ls Hm; simpl in Hm.
  - inversion Hm. constructor.
  - destruct (f a) as [b|e] eqn:Ea; simpl in Hm; [|discriminate].
    destruct (rmapM f l) as [bs|e] eqn:El; simpl in Hm; [|discriminate].
    inversion Hm. subst. constructor; auto.
Qed.

Lemma Forall2_rmapM {A B} (f : A -> result B) (l : list A) (ls : list B) :
  Forall2 (fun a b => f a = Ok b) l ls -> rmapM f l = Ok ls.
Proof.
  induction 1 as [|a b l ls Hab _ IH]; simpl; [reflexivity|].
  now rewrite Hab, IH.
Qed.

Lemma Forall_firstn_skipn {A} (P : A -> Prop) (n : nat) (l : list A) :
  Forall P l -> Forall P (firstn n l) /\ Forall P (skipn n l).
Proof.
  intros Hl. rewrite <- (firstn_skipn n l) in Hl. now apply Forall_app in Hl.
Qed.

Lemma chunks_Forall (P : R -> Prop) (k n : nat) (l : list R) :
  Forall P l -> Forall (Forall P) (chunks k n l).
Proof.
  revert l; induction k as [|k IH]; intros l Hl; simpl; constructor.
  - now apply Forall_firstn_skipn.
  - apply IH. now apply Forall_firstn_skipn.
Qed.

Lemma Forall_concat_repeat (P : R -> Prop) (l : list R) (d : nat) :
  Forall P l -> Forall P (concat (repeat l d)).
Proof.
  intros Hl. induction d as [|d IH]; simpl; [constructor|].
  now apply Forall_app.
Qed.

Lemma length_concat_repeat (l : list R) (d : nat) :
  length (concat (repeat l d)) = d * length l.
Proof.
  induction d as [|d IH]; simpl; [reflexivity|].
  now rewrite length_app, IH.
Qed.

Lemma prod_shape_cons (a : nat) (s : list nat) :
  prod_shape (a :: s) = a * prod_shape s.
Proof. reflexivity. Qed.

Lemma expand_aligned_spec (P : R -> Prop) (src : list nat) :
  forall (tgt : list nat) (l l' : list R),
    expand_aligned src tgt l = Ok l' ->
    length l = prod_shape src -> Forall P l ->
    length l' = prod_shape tgt /\ Forall P l'.
Proof.
  induction src as [|s src IH]; intros tgt l l' He Hl HP.
  - destruct tgt; simpl in He; [|discriminate]. inversion He. subst. auto.
  - destruct tgt as [|d tgt]; simpl in He; [discriminate|].
    rewrite prod_shape_cons in Hl. rewrite prod_shape_cons.
    destruct (s =? d) eqn:Esd.
    + apply Nat.eqb_eq in Esd. subst d.
      destruct (rmapM (expand_aligned src tgt) (chunks s (prod_shape src) l))
        as [ls|e] eqn:Em; simpl in He; [|discriminate].
      inversion He. subst l'. apply rmapM_Forall2 in Em.
      assert (Hch : Forall (fun c => length c = prod_shape src /\ Forall P c)
                      (chunks s (prod_shape src) l)).
      { apply Forall_and.
        - apply chunks_each. lia.
        - now apply chunks_Forall. }
      assert (Hls : Forall (fun c => length c = prod_shape tgt /\ Forall P c) ls).
      { clear He. revert Hch. induction Em as [|c c' cs cs' Hcc _ IHF];
          intros Hch; constructor.
        - inversion Hch as [|? ? [Hc1 Hc2] _]. subst. eapply IH; eauto.
        - apply IHF. now inversion Hch. }
      apply Forall_and_inv in Hls. destruct Hls as [Hlen Hall].
      split.
      * rewrite length_concat_each with (n := prod_shape tgt) by assumption.
        apply Forall2_length in Em. rewrite chunks_length in Em. now rewrite <- Em.
      * now apply Forall_concat.
    + destruct (s =? 1) eqn:Es1; [|discriminate].
      apply Nat.eqb_eq in Es1. subst s.
      destruct (expand_aligned src tgt l) as [l1|e] eqn:E1; simpl in He; [|discriminate].
      inversion He. subst l'.
      destruct (IH tgt l l1 E1) as [Hlen Hall]; [lia | assumption|].
      split.
      * now rewrite length_concat_repeat, Hlen.
      * now apply Forall_concat_repeat.
Qed.

Lemma expand_data_spec (P : R -> Prop) (src tgt : list nat) :
  forall (l l' : list R),
    expand_data src tgt l = Ok l' ->
    length l = prod_shape src -> Forall P l ->
    length l' = prod_shape tgt /\ Forall P l'.
Proof.
  induction tgt as [|d tgt IH]; intros l l' He Hl HP; cbn [expand_data] in He.
  - destruct (length (@nil nat) =? length src); [|discriminate].
    eapply expand_aligned_spec; eauto.
  - destruct (length (d :: tgt) =? length src).
    + eapply expand_aligned_spec; eauto.
    + destruct (expand_data src tgt l) as [l1|e] eqn:E1; simpl in He; [|discriminate].
      inversion He. subst l'.
      destruct (IH l l1 E1 Hl HP) as [Hlen Hall].
      split.
      * now rewrite length_concat_repeat, Hlen, prod_shape_cons.
      * now apply Forall_concat_repeat.
Qed.

Lemma expand_spec (P : R -> Prop) (t t' : Tensor R) (tgt : list nat) :
  expand t tgt = Ok t' -> wf t -> Forall P (data t) ->
  shape t' = tgt /\ wf t' /\ Forall P (data t').
Proof.
  unfold expand, wf, numel. intros He Hw HP.
  destruct (expand_data (shape t) tgt (data t)) as [l|e] eqn:E; simpl in He; [|discriminate].
  inversion He. subst t'. cbn [shape data].
  destruct (expand_data_spec P _ _ _ _ E Hw HP) as [Hlen Hall]. auto.
Qed.

Lemma stack_Ok (ts : list (Tensor R)) (t : Tensor R) :
  stack ts = Ok t ->
  exists t0 ts', ts = t0 :: ts' /\
    Forall (fun u => shape u = shape t0) ts /\
    t = mkTensor (length ts :: shape t0) (concat (map (@data R) ts)).
Proof.
  unfold stack. destruct ts as [|t0 ts']; [discriminate|].
  destruct (forallb _ _) eqn:Ef; [|discriminate].
  intros Hs. inversion Hs. exists t0, ts'. split; [reflexivity|]. split; [|reflexivity].
  rewrite forallb_forall in Ef. apply Forall_forall. intros u Hu.
  specialize (Ef u Hu). unfold shape_eqb in Ef.
  now destruct (list_eq_dec Nat.eq_dec (shape u) (shape t0)).
Qed.

Lemma view_Ok (t t' : Tensor R) (s : list nat) :
  view t s = Ok t' -> t' = mkTensor s (data t) /\ prod_shape s = numel t.
Proof.
  unfold view. destruct (prod_shape s =? numel t) eqn:E; [|discriminate].
  intros Hv. inversion Hv. apply Nat.eqb_eq in E. auto.
Qed.

Lemma all_zero_repeat (l : list R) :
  Forall (fun x => x = zero) l -> l = repeat zero (length l).
Proof.
  induction 1 as [|x l Hx _ IH]; simpl; [reflexivity|]. now rewrite Hx, <- IH.
Qed.

Lemma Forall_nth_lt (P : R -> Prop) (l : list R) (n : nat) :
  (forall k, k < n -> P (nth k l zero)) -> n <= length l -> Forall P (firstn n l).
Proof.
  revert n; induction l as [|x l IH]; intros n Hk Hn.
  - rewrite firstn_nil. constructor.
  - destruct n as [|n]; simpl; constructor.
    + apply (Hk 0). lia.
    + apply IH.
      * intros k Hlt. apply (Hk (S k)). lia.
      * simpl in Hn. lia.
Qed.

End ExpandFacts.

Section RowFacts.
Context {R : Type} `{Scalar R}.

Lemma rebuild_rows (tgt : list nat) (rows : list (Tensor R)) :
  Forall (fun r => shape r = tgt) rows ->
  map (mkTensor tgt) (map (@data R) rows) = rows.
Proof.
  induction 1 as [|r rows Hr _ IH]; simpl; [reflexivity|].
  rewrite IH. destruct r as [s l]. simpl in Hr. now subst.
Qed.

Lemma unbind_shape (d : nat) (s : list nat) (l : list R) :
  unbind (mkTensor (d :: s) l) = Ok (map (mkTensor s) (chunks d (prod_shape s) l)).
Proof. reflexivity. Qed.

Lemma expand_rows_each (s tgt : list nat) (cs : list (list R)) :
  forall rows' : list (Tensor R),
    Forall (fun c => length c = prod_shape s) cs ->
    Forall2 (fun r r' => expand r tgt = Ok r') (map (mkTensor s) cs) rows' ->
    Forall (fun r => shape r = tgt /\ length (data r) = prod_shape tgt) rows'.
Proof.
  induction cs as [|c cs IH]; intros rows' Hch Hm; simpl in Hm;
    inversion Hm as [|? r' ? rs' Hrr Hrest]; subst; constructor.
  - inversion Hch as [|? ? Hc _]. subst.
    destruct (expand_spec (fun _ => True) _ _ _ Hrr) as [E1 [E2 _]].
    + unfold wf, numel. assumption.
    + apply Forall_forall. auto.
    + split; [assumption|]. unfold wf, numel in E2. now rewrite E1 in E2.
  - apply IH; [now inversion Hch | assumption].
Qed.

(** The slices of a tensor, each expanded to [tgt] and stacked again. *)
Lemma expand_rows_spec (d : nat) (s tgt : list nat) (l : list R)
    (rows' : list (Tensor R)) (t' : Tensor R) :
  length l = d * prod_shape s ->
  rmapM (fun r => expand r tgt) (map (mkTensor s) (chunks d (prod_shape s) l)) = Ok rows' ->
  stack rows' = Ok t' ->
  0 < d /\ shape t' = d :: tgt /\ wf t' /\ unbind t' = Ok rows' /\
  (forall P : R -> Prop,
      Forall P (firstn (prod_shape s) l) ->
      Forall P (firstn (prod_shape tgt) (data t'))).
Proof.
  intros Hl Hm Hs.
  apply rmapM_Forall2 in Hm.
  assert (Hrows : Forall (fun r => shape r = tgt /\ length (data r) = prod_shape tgt) rows').
  { eapply expand_rows_each; [|exact Hm]. apply chunks_each. lia. }
  apply Forall_and_inv in Hrows. destruct Hrows as [Hshape Hlen].
  assert (Hcount : length rows' = d).
  { apply Forall2_length in Hm. now rewrite length_map, chunks_length in Hm. }
  destruct (stack_Ok _ _ Hs) as [t0 [ts' [-> [_ ->]]]].
  assert (Ht0 : shape t0 = tgt) by now inversion Hshape.
  assert (Hdata : Forall (fun c => length c = prod_shape tgt)
                    (map (@data R) (t0 :: ts'))).
  { apply Forall_forall. intros c Hc. apply in_map_iff in Hc.
    destruct Hc as [r [<- Hr]]. rewrite Forall_forall in Hlen. now apply Hlen. }
  split; [rewrite <- Hcount; simpl; lia|].
  rewrite Ht0, Hcount. split; [reflexivity|].
  split.
  { unfold wf, numel. cbn [shape data]. rewrite prod_shape_cons.
    rewrite (length_concat_each _ _ Hdata). now rewrite length_map, Hcount. }
  split.
  { rewrite unbind_shape. f_equal.
    pose proof (chunks_concat _ _ Hdata) as Hcc.
    rewrite length_map, Hcount in Hcc. rewrite Hcc.
    now apply rebuild_rows. }
  intros P HP. cbn [data].
  destruct d as [|d]; [discriminate|].
  simpl in Hm. inversion Hm as [|? ? ? ? Hexp _]. subst.
  simpl. inversion Hdata as [|? ? Hl0 _]. subst.
  rewrite firstn_app, <- Hl0, firstn_all, Nat.sub_diag, firstn_O, app_nil_r.
  destruct (expand_spec P _ _ _ Hexp) as [_ [_ HP']]; auto.
  unfold wf, numel. cbn [shape data]. rewrite length_firstn. lia.
Qed.

Lemma index0_zero_row (n : nat) (s : list nat) (t : Tensor R) :
  shape t = S n :: s -> wf t ->
  Forall (fun x => x = zero) (firstn (prod_shape s) (data t)) ->
  index0 t = Ok (zeros s).
Proof.
  intros Hs Hw Hz. unfold index0. rewrite Hs. unfold zeros. do 2 f_equal.
  rewrite (all_zero_repeat _ Hz). f_equal.
  rewrite length_firstn. unfold wf, numel in Hw. rewrite Hs, prod_shape_cons in Hw. lia.
Qed.

End RowFacts.

(** ** The shapes of weights and shifts *)

Section ShapeFacts.
Context {R : Type} `{Scalar R}.

Lemma flat_shifts_weights_shape (N : nat) (k2 min_eig fs fw : Tensor R) :
  flat_shifts_weights N k2 min_eig = Ok (fs, fw) ->
  shape fs = [N + 1; numel k2] /\ shape fw = [N; numel k2] /\
  length (data fs) = (N + 1) * numel k2 /\ length (data fw) = N * numel k2 /\
  Forall (fun x => x = zero) (firstn (numel k2) (data fs)).
Proof.
  unfold flat_shifts_weights. intros Hrun.
  destruct (zeros_2d (N + 1) (numel k2)) as [Zs1 Zl1].
  destruct (zeros_2d N (numel k2)) as [Zs2 Zl2].
  destruct (@store_loop_spec R _ N (numel k2) _ 0 _ _ fs fw Zs1 Zs2 Zl1 Zl2 Hrun)
    as [_ [Hs1 [Hs2 [Hl1 [Hl2 [Hm1 _]]]]]].
  repeat (split; [assumption|]).
  apply Forall_nth_lt; [|lia].
  intros k Hk. rewrite Hm1.
  - unfold zeros. cbn [data]. apply nth_repeat.
  - intros e j _ _. nia.
Qed.

Lemma prod_shape_batch11 (s : list nat) : prod_shape (s ++ [1; 1]) = prod_shape s.
Proof. rewrite prod_shape_app, prod_shape2. lia. Qed.

(** The weights and shifts that leave lines 100-106: they have the output
    batch shape, the zero row of the shifts is still zero, and when the shape
    of [k2] is not the output batch shape their slices are the slices of the
    flat tensors, each expanded to the output batch shape. *)
Lemma shape_weights_shifts_spec (N : nat) (k2s obs : list nat)
    (fs fw wts sh : Tensor R) :
  shape fs = [N + 1; prod_shape k2s] -> shape fw = [N; prod_shape k2s] ->
  length (data fs) = (N + 1) * prod_shape k2s ->
  length (data fw) = N * prod_shape k2s ->
  Forall (fun x => x = zero) (firstn (prod_shape k2s) (data fs)) ->
  shape_weights_shifts N k2s obs fs fw = Ok (wts, sh) ->
  shape sh = (N + 1) :: obs /\ shape wts = N :: obs ++ [1; 1] /\
  wf sh /\ wf wts /\ index0 sh = Ok (zeros obs) /\
  (k2s <> obs ->
   exists srows wrows,
     rmapM (fun s => expand s obs)
       (map (mkTensor k2s) (chunks (N + 1) (prod_shape k2s) (data fs))) = Ok srows /\
     unbind sh = Ok srows /\
     rmapM (fun w => expand w (obs ++ [1; 1]))
       (map (mkTensor (k2s ++ [1; 1])) (chunks N (prod_shape k2s) (data fw))) = Ok wrows /\
     unbind wts = Ok wrows).
Proof.
  intros Hsfs Hsfw Hlfs Hlfw Hz Hrun. unfold shape_weights_shifts in Hrun.
  destruct (view fw (N :: k2s ++ [1; 1])) as [weights|e] eqn:Ew;
    cbn [rbind] in Hrun; [|discriminate].
  destruct (view fs ((N + 1) :: k2s)) as [shifts|e] eqn:Es;
    cbn [rbind] in Hrun; [|discriminate].
  apply view_Ok in Ew. destruct Ew as [-> _].
  apply view_Ok in Es. destruct Es as [-> _].
  unfold shape_eqb in Hrun.
  destruct (list_eq_dec Nat.eq_dec k2s obs) as [Heq | Hne].
  - inversion Hrun. subst. cbn [shape].
    assert (Hwf : wf (mkTensor ((N + 1) :: obs) (data fs))).
    { unfold wf, numel. cbn [shape data]. now rewrite prod_shape_cons. }
    repeat split; auto.
    + unfold wf, numel. cbn [shape data].
      now rewrite prod_shape_cons, prod_shape_batch11.
    + apply index0_zero_row with (n := N); auto.
      cbn [shape]. f_equal. lia.
    + intros Hc. now contradiction Hc.
  - rewrite unbind_shape in Hrun. cbn [rbind] in Hrun.
    rewrite prod_shape_batch11 in Hrun.
    destruct (rmapM (fun w => expand w (obs ++ [1; 1])) _) as [wrows|e] eqn:Emw;
      cbn [rbind] in Hrun; [|discriminate].
    destruct (stack wrows) as [weights'|e] eqn:Esw; cbn [rbind] in Hrun; [|discriminate].
    rewrite unbind_shape in Hrun. cbn [rbind] in Hrun.
    destruct (rmapM (fun s => expand s obs) _) as [srows|e] eqn:Ems;
      cbn [rbind] in Hrun; [|discriminate].
    destruct (stack srows) as [shifts'|e] eqn:Ess; cbn [rbind] in Hrun; [|discriminate].
    inversion Hrun. subst weights' shifts'.
    destruct (expand_rows_spec (N + 1) k2s obs (data fs) srows sh Hlfs Ems Ess)
      as [_ [Hsh [Hwsh [Hush Hrow]]]].
    assert (Hlfw' : length (data fw) = N * prod_shape (k2s ++ [1; 1]))
      by now rewrite prod_shape_batch11.
    rewrite <- (prod_shape_batch11 k2s) in Emw.
    destruct (expand_rows_spec N (k2s ++ [1; 1]) (obs ++ [1; 1]) (data fw) wrows wts
                Hlfw' Emw Esw) as [_ [Hsw [Hwsw [Husw _]]]].
    rewrite prod_shape_batch11 in Emw.
    repeat split; auto.
    + apply index0_zero_row with (n := N); auto.
      rewrite Hsh. f_equal. lia.
    + intros _. exists srows, wrows. auto.
Qed.

End ShapeFacts.

(** ** The events of the derivation and of the diagnostics *)

Section EventFacts.
Context {R : Type} `{Scalar R} `{Collaborators R}.
Local Open Scope ciq_scope.

Lemma approx_eigs_of_events (lazy_tensor : LazyTensor R) (mat : Tensor R) :
  emits_only derivation_event (approx_eigs_of lazy_tensor mat).
Proof.
  unfold approx_eigs_of. apply emits_only_try.
  - repeat emits_step.
    + destruct (symeig mat); emits_step.
    + destruct (fle _ _); emits_step.
  - repeat emits_step.
Qed.

Lemma condition_events (approx_eigs : Tensor R) :
  emits_only derivation_event (condition approx_eigs).
Proof.
  unfold condition, set_condition_number. repeat emits_step.
  destruct (on _); repeat emits_step.
Qed.

Lemma contour_from_eigs_events (N : nat) (obs : list nat) (approx_eigs : Tensor R) :
  emits_only derivation_event (contour_from_eigs N obs approx_eigs).
Proof.
  unfold contour_from_eigs.
  apply emits_only_bind; [apply condition_events | intros [k2 min_eig]].
  apply emits_only_bind; [emits_step | intros [fs fw]]. emits_step.
Qed.

Lemma derive_events (lazy_tensor : LazyTensor R) (rhs : Tensor R)
    (max_lanczos_iter N : nat) (obs : list nat) :
  emits_only derivation_event (derive lazy_tensor rhs max_lanczos_iter N obs).
Proof.
  unfold derive. repeat emits_step.
  destruct (lanczos_tridiag _ _ _ _ _) as [basis mat].
  apply emits_only_bind; [apply approx_eigs_of_events | intros e].
  apply contour_from_eigs_events.
Qed.

Lemma record_stats_events (lazy_tensor : LazyTensor R) (rhs ns inv : Tensor R)
    (weights : option (Tensor R)) :
  emits_only diagnostic_event (record_stats lazy_tensor rhs ns inv weights).
Proof.
  unfold record_stats, set_minres_residual, set_ciq_diff.
  apply emits_only_bind; [emits_step | intros s].
  destruct (on s); [|emits_step].
  repeat emits_step.
  destruct weights; emits_step.
Qed.

End EventFacts.

(** ** The runs of contour_integral_quad *)

Section RunFacts.
Context {R : Type} `{Scalar R} `{Collaborators R}.
Local Open Scope ciq_scope.

(** A run that returns went through the stages of the function in order. *)
Lemma contour_integral_quad_Ok (lazy_tensor : LazyTensor R) (rhs : Tensor R)
    (inverse : bool) (weights shifts : option (Tensor R)) (mi N : nat)
    (w w' : World R) (sol : Tensor R) (ws : option (Tensor R)) (ns sh : Tensor R) :
  contour_integral_quad lazy_tensor rhs inverse weights shifts mi N w =
    (w', Ok (sol, ws, ns, sh)) ->
  exists obs w1 inv,
    _mul_broadcast_shape (batch_shape lazy_tensor) (drop_last2 (shape rhs)) = Ok obs /\
    match shifts with
    | None => exists wts,
        derive lazy_tensor rhs mi N obs w = (w1, Ok (wts, sh)) /\ ws = Some wts
    | Some s => w1 = w /\ ws = weights /\ sh = s
    end /\
    index0 (minres (fun v => _matmul lazy_tensor v) rhs (lit (-1)%Q) sh) = Ok ns /\
    slice_from1 (minres (fun v => _matmul lazy_tensor v) rhs (lit (-1)%Q) sh) = Ok inv /\
    sol = (if inverse then inv else _matmul lazy_tensor inv) /\
    record_stats lazy_tensor rhs ns inv ws
      (logged w1 (EvMinres rhs (lit (-1)%Q) sh ::
                  if inverse then [] else [EvMatmul inv])) = (w', Ok tt).
Proof.
  unfold contour_integral_quad. intros Hrun.
  apply bind_Ok_inv in Hrun. destruct Hrun as [obs [w0 [Hobs Hrun]]].
  apply lift_Ok_inv in Hobs. destruct Hobs as [-> Hobs].
  apply bind_Ok_inv in Hrun. destruct Hrun as [[weights' shifts'] [w1 [Hsel Hrun]]].
  apply bind_Ok_inv in Hrun. destruct Hrun as [[] [w2 [Hemit Hrun]]].
  apply emit_inv in Hemit. destruct Hemit as [Hset2 [Htr2 _]].
  apply bind_Ok_inv in Hrun. destruct Hrun as [ns' [w3 [Hidx Hrun]]].
  apply lift_Ok_inv in Hidx. destruct Hidx as [-> Hidx].
  apply bind_Ok_inv in Hrun. destruct Hrun as [inv [w4 [Hsl Hrun]]].
  apply lift_Ok_inv in Hsl. destruct Hsl as [-> Hsl].
  apply bind_Ok_inv in Hrun. destruct Hrun as [sol' [w5 [Hmm Hrun]]].
  apply bind_Ok_inv in Hrun. destruct Hrun as [[] [w6 [Hrec Hrun]]].
  apply ret_Ok_inv in Hrun. destruct Hrun as [-> Hret].
  injection Hret as -> -> -> ->.
  exists obs, w1, inv.
  split; [exact Hobs|].
  assert (Hw5 : w5 = logged w1 (EvMinres rhs (lit (-1)%Q) shifts' ::
                                if inverse then [] else [EvMatmul inv]) /\
                sol' = (if inverse then inv else _matmul lazy_tensor inv)).
  { destruct w2 as [st2 tr2]. cbn [settings trace] in Hset2, Htr2. subst st2 tr2.
    destruct inverse; cbn [negb] in Hmm.
    - apply ret_Ok_inv in Hmm. destruct Hmm as [-> ->]. now split.
    - apply bind_Ok_inv in Hmm. destruct Hmm as [[] [w7 [He Hr]]].
      apply ret_Ok_inv in Hr. destruct Hr as [-> ->].
      unfold emit in He. inversion He. cbn [settings trace].
      unfold logged. cbn [settings trace]. now rewrite <- app_assoc. }
  destruct Hw5 as [-> Hsol].
  split.
  { destruct shifts as [s|].
    - apply ret_Ok_inv in Hsel. destruct Hsel as [-> Hp]. now inversion Hp.
    - apply bind_Ok_inv in Hsel. destruct Hsel as [[wts s'] [w8 [Hd Hr]]].
      apply ret_Ok_inv in Hr. destruct Hr as [-> Hp]. inversion Hp. subst.
      now exists wts. }
  repeat (split; [assumption|]). exact Hrec.
Qed.

Lemma derive_Ok (lazy_tensor : LazyTensor R) (rhs : Tensor R) (mi N : nat)
    (obs : list nat) (w w1 : World R) (wts sh : Tensor R) :
  derive lazy_tensor rhs mi N obs w = (w1, Ok (wts, sh)) ->
  exists iv e w0 k2 min_eig fs fw,
    init_vecs lazy_tensor rhs = Ok iv /\
    approx_eigs_of lazy_tensor
      (snd (lanczos_tridiag (fun v => _matmul lazy_tensor v) iv
              (matrix_shape lazy_tensor) (batch_shape lazy_tensor) mi))
      (logged w [EvLanczos iv mi]) = (w0, Ok e) /\
    condition e w0 = (w1, Ok (k2, min_eig)) /\
    flat_shifts_weights N k2 min_eig = Ok (fs, fw) /\
    shape_weights_shifts N (shape k2) obs fs fw = Ok (wts, sh).
Proof.
  unfold derive. intros Hrun.
  apply bind_Ok_inv in Hrun. destruct Hrun as [iv [w2 [Hiv Hrun]]].
  apply lift_Ok_inv in Hiv. destruct Hiv as [-> Hiv].
  apply bind_Ok_inv in Hrun. destruct Hrun as [[] [w3 [Hemit Hrun]]].
  unfold emit in Hemit. inversion Hemit. subst w3. clear Hemit.
  destruct (lanczos_tridiag _ iv _ _ _) as [basis mat] eqn:El.
  apply bind_Ok_inv in Hrun. destruct Hrun as [e [w0 [Heig Hrun]]].
  unfold contour_from_eigs in Hrun.
  apply bind_Ok_inv in Hrun. destruct Hrun as [[k2 min_eig] [w4 [Hcond Hrun]]].
  apply bind_Ok_inv in Hrun. destruct Hrun as [[fs fw] [w5 [Hflat Hrun]]].
  apply lift_Ok_inv in Hflat. destruct Hflat as [-> Hflat].
  apply lift_Ok_inv in Hrun. destruct Hrun as [-> Hshape].
  exists iv, e, w0, k2, min_eig, fs, fw. rewrite El. cbn [snd]. unfold logged. auto.
Qed.

(** The weights and shifts of the derivation have the output batch shape. *)
Lemma derive_shapes (lazy_tensor : LazyTensor R) (rhs : Tensor R) (mi N : nat)
    (obs : list nat) (w w1 : World R) (wts sh : Tensor R) :
  derive lazy_tensor rhs mi N obs w = (w1, Ok (wts, sh)) ->
  shape sh = (N + 1) :: obs /\ shape wts = N :: obs ++ [1; 1] /\
  wf sh /\ wf wts /\ index0 sh = Ok (zeros obs).
Proof.
  intros Hrun. apply derive_Ok in Hrun.
  destruct Hrun as [iv [e [w0 [k2 [min_eig [fs [fw [_ [_ [_ [Hflat Hshape]]]]]]]]]]].
  destruct (flat_shifts_weights_shape _ _ _ _ _ Hflat) as [S1 [S2 [L1 [L2 Hz]]]].
  destruct (shape_weights_shifts_spec _ _ _ _ _ _ _ S1 S2 L1 L2 Hz Hshape)
    as [A [B [C [D [E _]]]]].
  auto.
Qed.

Lemma derive_starts_with_lanczos (lazy_tensor : LazyTensor R) (rhs : Tensor R)
    (mi N : nat) (obs : list nat) (w w1 : World R) (wts sh : Tensor R) :
  derive lazy_tensor rhs mi N obs w = (w1, Ok (wts, sh)) ->
  exists iv evs, trace w1 = trace w ++ EvLanczos iv mi :: evs /\
                 Forall derivation_event evs.
Proof.
  intros Hrun. apply derive_Ok in Hrun.
  destruct Hrun as [iv [e [w0 [k2 [min_eig [fs [fw [_ [Heig [Hcond _]]]]]]]]]].
  destruct (approx_eigs_of_events _ _ _ _ _ Heig) as [e1 [T1 F1]].
  destruct (condition_events _ _ _ _ Hcond) as [e2 [T2 F2]].
  exists iv, (e1 ++ e2). split.
  - rewrite T2, T1. unfold logged. cbn [trace].
    now rewrite <- !app_assoc.
  - now apply Forall_app.
Qed.

Lemma contour_integral_quad_events (lazy_tensor : LazyTensor R) (rhs : Tensor R)
    (inverse : bool) (weights shifts : option (Tensor R)) (mi N : nat) :
  emits_only
    (fun e => (shifts = None /\ derivation_event e) \/ solve_event e \/
              diagnostic_event e)
    (contour_integral_quad lazy_tensor rhs inverse weights shifts mi N).
Proof.
  unfold contour_integral_quad.
  apply emits_only_bind; [emits_step | intros obs].
  apply emits_only_bind.
  { destruct shifts as [s|]; [emits_step|].
    apply emits_only_bind.
    - eapply emits_only_weaken; [|apply derive_events]. intros e He. left. auto.
    - intros [wts s]. emits_step. }
  intros [weights' shifts'].
  apply emits_only_bind.
  { apply emits_only_emit. right. left. constructor. }
  intros _.
  apply emits_only_bind; [emits_step | intros ns].
  apply emits_only_bind; [emits_step | intros inv].
  apply emits_only_bind.
  { destruct (negb inverse); [|emits_step].
    apply emits_only_bind; [|intros; emits_step].
    apply emits_only_emit. right. left. constructor. }
  intros sol.
  apply emits_only_bind; [|intros; emits_step].
  eapply emits_only_weaken; [|apply record_stats_events]. intros e He. auto.
Qed.

Lemma matmul_args_app (l1 l2 : list (Event R)) :
  matmul_args (l1 ++ l2) = matmul_args l1 ++ matmul_args l2.
Proof. apply flat_map_app. Qed.

Lemma minres_shifts_app (l1 l2 : list (Event R)) :
  minres_shifts (l1 ++ l2) = minres_shifts l1 ++ minres_shifts l2.
Proof. apply flat_map_app. Qed.

Lemma derivation_no_solve (evs : list (Event R)) :
  Forall derivation_event evs -> matmul_args evs = [] /\ minres_shifts evs = [].
Proof.
  induction 1 as [|e evs He _ [IH1 IH2]]; [now split|].
  unfold matmul_args, minres_shifts in *. cbn [flat_map].
  rewrite IH1, IH2. now destruct He.
Qed.

Lemma diagnostic_no_solve (evs : list (Event R)) :
  Forall diagnostic_event evs -> matmul_args evs = [] /\ minres_shifts evs = [].
Proof.
  induction 1 as [|e evs He _ [IH1 IH2]]; [now split|].
  unfold matmul_args, minres_shifts in *. cbn [flat_map].
  rewrite IH1, IH2. now destruct He.
Qed.

(** The events of a run that returns: those of the derivation (none when
    shifts were supplied), the solver call, the extra application of the
    operator unless [inverse], and those of the diagnostics. *)
Lemma contour_integral_quad_trace (lazy_tensor : LazyTensor R) (rhs : Tensor R)
    (inverse : bool) (weights shifts : option (Tensor R)) (mi N : nat)
    (w w' : World R) (sol : Tensor R) (ws : option (Tensor R)) (ns sh : Tensor R) :
  contour_integral_quad lazy_tensor rhs inverse weights shifts mi N w =
    (w', Ok (sol, ws, ns, sh)) ->
  exists ed eg inv,
    trace w' = trace w ++ ed ++
               (EvMinres rhs (lit (-1)%Q) sh ::
                if inverse then [] else [EvMatmul inv]) ++ eg /\
    Forall derivation_event ed /\
    (shifts <> None -> ed = []) /\
    Forall diagnostic_event eg /\
    slice_from1 (minres (fun v => _matmul lazy_tensor v) rhs (lit (-1)%Q) sh) = Ok inv /\
    sol = (if inverse then inv else _matmul lazy_tensor inv).
Proof.
  intros Hrun. apply contour_integral_quad_Ok in Hrun.
  destruct Hrun as [obs [w1 [inv [_ [Hsel [_ [Hsl [Hsol Hrec]]]]]]]].
  destruct (record_stats_events _ _ _ _ _ _ _ _ Hrec) as [eg [Tg Fg]].
  unfold logged in Tg. cbn [trace] in Tg.
  assert (Hd : exists ed, trace w1 = trace w ++ ed /\ Forall derivation_event ed /\
                          (shifts <> None -> ed = [])).
  { destruct shifts as [s|].
    - destruct Hsel as [-> _]. exists []. rewrite app_nil_r. auto.
    - destruct Hsel as [wts [Hd _]].
      destruct (derive_events _ _ _ _ _ _ _ _ Hd) as [ed [Td Fd]].
      exists ed. repeat split; auto. congruence. }
  destruct Hd as [ed [Td [Fd Hnil]]].
  exists ed, eg, inv. rewrite Tg, Td.
  repeat split; auto. now rewrite <- !app_assoc.
Qed.

(** C1. In a call that returns, the solver's stacked output without its
    zero-shift entry is the stack of inverse solves; with [inverse=False] the
    engine applies the operator's [_matmul] to that stack exactly once and
    returns the product, with [inverse=True] it applies it not at all and
    returns the stack itself. *)
Theorem one_more_matmul_unless_inverse (lazy_tensor : LazyTensor R) (rhs : Tensor R)
    (inverse : bool) (weights shifts : option (Tensor R)) (mi N : nat)
    (w w' : World R) (sol : Tensor R) (ws : option (Tensor R)) (ns sh : Tensor R)
    (Hrun : contour_integral_quad lazy_tensor rhs inverse weights shifts mi N w =
              (w', Ok (sol, ws, ns, sh))) :
  exists evs inverse_solves,
    trace w' = trace w ++ evs /\
    slice_from1 (minres (fun v => _matmul lazy_tensor v) rhs (lit (-1)%Q) sh) =
      Ok inverse_solves /\
    if inverse
    then sol = inverse_solves /\ matmul_args evs = []
    else sol = _matmul lazy_tensor inverse_solves /\
         matmul_args evs = [inverse_solves].
Proof.
  apply contour_integral_quad_trace in Hrun.
  destruct Hrun as [ed [eg [inv [Ht [Fd [_ [Fg [Hsl Hsol]]]]]]]].
  eexists. exists inv. split; [exact Ht|]. split; [exact Hsl|].
  destruct (derivation_no_solve _ Fd) as [Hd _].
  destruct (diagnostic_no_solve _ Fg) as [Hg _].
  rewrite !matmul_args_app, Hd, Hg.
  destruct inverse; split; auto.
Qed.

(** C3. In a call that derives the shifts (shifts is None) and returns, the
    returned shifts have [num_contour_quadrature + 1] entries for every
    element of the output batch shape, and the entry at index 0 is zero for
    every batch element. *)
Theorem derived_shifts_zero_first (lazy_tensor : LazyTensor R) (rhs : Tensor R)
    (inverse : bool) (weights : option (Tensor R)) (mi N : nat)
    (w w' : World R) (sol : Tensor R) (ws : option (Tensor R)) (ns sh : Tensor R)
    (Hrun : contour_integral_quad lazy_tensor rhs inverse weights None mi N w =
              (w', Ok (sol, ws, ns, sh))) :
  exists obs,
    _mul_broadcast_shape (batch_shape lazy_tensor) (drop_last2 (shape rhs)) = Ok obs /\
    shape sh = (N + 1) :: obs /\ wf sh /\ index0 sh = Ok (zeros obs).
Proof.
  apply contour_integral_quad_Ok in Hrun.
  destruct Hrun as [obs [w1 [inv [Hobs [[wts [Hd _]] _]]]]].
  exists obs. split; [exact Hobs|].
  destruct (derive_shapes _ _ _ _ _ _ _ _ _ Hd) as [A [_ [C [_ E]]]]. auto.
Qed.

(** C5, as the code has it. Only [shifts] decides on the derivation.  Its
    events (Lanczos run, eigenvalue estimation, condition number) are absent
    from every call that is given shifts, whatever weights are passed, and a
    call that returns ran the derivation exactly when shifts was None: given
    shifts, it returns the caller's weights (None included) and shifts;
    without, it ran Lanczos and returns the derived weights and shifts, and the
    weights that were passed are dropped. *)
Theorem derivation_skipped_iff_shifts_given (lazy_tensor : LazyTensor R)
    (rhs : Tensor R) (inverse : bool) (weights shifts : option (Tensor R))
    (mi N : nat) (w w' : World R)
    (r : result (Tensor R * option (Tensor R) * Tensor R * Tensor R))
    (Hrun : contour_integral_quad lazy_tensor rhs inverse weights shifts mi N w =
              (w', r)) :
  exists evs,
    trace w' = trace w ++ evs /\
    (shifts <> None -> Forall (fun e => ~ derivation_event e) evs) /\
    (forall sol ws ns sh, r = Ok (sol, ws, ns, sh) ->
       match shifts with
       | Some s => ws = weights /\ sh = s
       | None =>
           (exists iv, In (EvLanczos iv mi) evs) /\
           exists obs w1 wts,
             _mul_broadcast_shape (batch_shape lazy_tensor)
               (drop_last2 (shape rhs)) = Ok obs /\
             derive lazy_tensor rhs mi N obs w = (w1, Ok (wts, sh)) /\
             ws = Some wts
       end).
Proof.
  destruct (contour_integral_quad_events lazy_tensor rhs inverse weights shifts
              mi N _ _ _ Hrun) as [evs [Ht Fe]].
  exists evs. split; [exact Ht|]. split.
  - intros Hs. eapply Forall_impl; [|exact Fe].
    intros e [[Hn _] | [He | He]] Hd; [congruence | |];
      destruct He; inversion Hd.
  - intros sol ws ns sh ->.
    apply contour_integral_quad_Ok in Hrun.
    destruct Hrun as [obs [w1 [inv [Hobs [Hsel [_ [_ [_ Hrec]]]]]]]].
    destruct shifts as [s|].
    + destruct Hsel as [_ [-> ->]]. now split.
    + destruct Hsel as [wts [Hd ->]]. split; [|now exists obs, w1, wts].
      destruct (derive_starts_with_lanczos _ _ _ _ _ _ _ _ _ Hd) as [iv [e1 [T1 _]]].
      destruct (record_stats_events _ _ _ _ _ _ _ _ Hrec) as [eg [Tg _]].
      unfold logged in Tg. cbn [trace] in Tg.
      rewrite Tg, T1, <- !app_assoc in Ht. apply app_inv_head in Ht.
      exists iv. rewrite <- Ht. cbn. auto.
Qed.

(** C7, as the code has it. A call that returns yields four components: the
    solves, the weights, the unshifted solve and the shifts.  The solver was
    invoked once, with the returned shifts; the unshifted solve is entry 0 of
    its stacked output; the returned solves are the remaining entries, in
    order, when [inverse=True] and the operator applied to them when
    [inverse=False]; the returned weights are the ones the diagnostics ran
    with, the caller's when shifts were supplied and the derived ones
    otherwise. *)
Theorem returned_components (lazy_tensor : LazyTensor R) (rhs : Tensor R)
    (inverse : bool) (weights shifts : option (Tensor R)) (mi N : nat)
    (w w' : World R) (sol : Tensor R) (ws : option (Tensor R)) (ns sh : Tensor R)
    (Hrun : contour_integral_quad lazy_tensor rhs inverse weights shifts mi N w =
              (w', Ok (sol, ws, ns, sh))) :
  let stacked := minres (fun v => _matmul lazy_tensor v) rhs (lit (-1)%Q) sh in
  index0 stacked = Ok ns /\
  (exists rest,
      slice_from1 stacked = Ok rest /\
      sol = (if inverse then rest else _matmul lazy_tensor rest) /\
      exists w1, record_stats lazy_tensor rhs ns rest ws w1 = (w', Ok tt)) /\
  (exists evs, trace w' = trace w ++ evs /\ minres_shifts evs = [sh]) /\
  match shifts with
  | Some s => sh = s /\ ws = weights
  | None =>
      exists obs w1 wts,
        derive lazy_tensor rhs mi N obs w = (w1, Ok (wts, sh)) /\ ws = Some wts
  end.
Proof.
  intros stacked. subst stacked.
  pose proof (contour_integral_quad_trace _ _ _ _ _ _ _ _ _ _ _ _ _ Hrun) as Htr.
  apply contour_integral_quad_Ok in Hrun.
  destruct Hrun as [obs [w1 [inv [_ [Hsel [Hidx [Hsl [Hsol Hrec]]]]]]]].
  split; [exact Hidx|]. split; [|split].
  - exists inv. repeat split; auto. eexists. exact Hrec.
  - destruct Htr as [ed [eg [inv' [Ht [Fd [_ [Fg _]]]]]]].
    eexists. split; [exact Ht|].
    destruct (derivation_no_solve _ Fd) as [_ Hd].
    destruct (diagnostic_no_solve _ Fg) as [_ Hg].
    rewrite !minres_shifts_app, Hd, Hg.
    destruct inverse; reflexivity.
  - destruct shifts as [s|].
    + destruct Hsel as [_ [-> ->]]. now split.
    + destruct Hsel as [wts [Hd ->]]. now exists obs, w1, wts.
Qed.

(** C9, as the code has it. With the diagnostics off, a call that is given
    shifts and no weights makes only the solver call (and the extra
    application of the operator unless [inverse]), no step of the derivation,
    and returns None as weights and the given shifts, for batch shapes that
    broadcast and a solver output that has a zero-shift entry. *)
Theorem shifts_without_weights (lazy_tensor : LazyTensor R) (rhs : Tensor R)
    (inverse : bool) (s : Tensor R) (mi N : nat) (w : World R)
    (obs : list nat) (ns rest : Tensor R)
    (Hoff : on (settings w) = false)
    (Hobs : _mul_broadcast_shape (batch_shape lazy_tensor)
              (drop_last2 (shape rhs)) = Ok obs)
    (Hidx : index0 (minres (fun v => _matmul lazy_tensor v) rhs (lit (-1)%Q) s) = Ok ns)
    (Hsl : slice_from1 (minres (fun v => _matmul lazy_tensor v) rhs (lit (-1)%Q) s)
             = Ok rest) :
  contour_integral_quad lazy_tensor rhs inverse None (Some s) mi N w =
    (logged w (EvMinres rhs (lit (-1)%Q) s :: if inverse then [] else [EvMatmul rest]),
     Ok (if inverse then rest else _matmul lazy_tensor rest, None, ns, s)).
Proof.
  unfold contour_integral_quad, record_stats, bind, lift, ret, emit, get_stats, logged.
  rewrite Hobs, Hidx, Hsl. cbn [settings trace].
  destruct inverse; cbn [negb settings trace]; rewrite Hoff.
  - reflexivity.
  - now rewrite <- app_assoc.
Qed.

End RunFacts.

(** ** Concrete runs *)

Section Runs.
Import Toy NonLazy.

Lemma transpose_nonbatch_twice_run :
  wf m23 /\ 2 <= dim m23 /\
  evaluate (__init__ m23) = m23 /\
  exists t1 t2,
    _transpose_nonbatch (__init__ m23) = Ok t1 /\
    _transpose_nonbatch t1 = Ok t2 /\ evaluate t2 = m23.
Proof.
  assert (Hwf : wf m23) by reflexivity.
  assert (Hdim : 2 <= dim m23) by (vm_compute; lia).
  split; [exact Hwf|]. split; [exact Hdim|].
  exact (transpose_nonbatch_twice m23 Hwf Hdim).
Defined.

Lemma eigs_fallback_to_diag_run :
  let mat := snd (lanczos_tridiag (fun v => _matmul (K1 0) v) b1
                    (matrix_shape (K1 0)) (batch_shape (K1 0)) 7) in
  init_vecs (K1 0) b1 = Ok b1 /\
  (symeig mat = None \/
   (exists e m, symeig mat = Some e /\ tmin e = Ok m /\ fle m zero = true)) /\
  approx_eigs_of (K1 0) mat (logged world_on [EvLanczos b1 7]) =
    (logged world_on [EvLanczos b1 7; EvSymeig mat; EvDiag], Ok (diag (K1 0))) /\
  derive (K1 0) b1 7 2 [] world_on =
    contour_from_eigs 2 [] (diag (K1 0))
      (logged world_on [EvLanczos b1 7; EvSymeig mat; EvDiag]).
Proof.
  intros mat.
  assert (Hiv : init_vecs (K1 0) b1 = Ok b1) by reflexivity.
  assert (Hfail :
    let mat := snd (lanczos_tridiag (fun v => _matmul (K1 0) v) b1
                      (matrix_shape (K1 0)) (batch_shape (K1 0)) 7) in
    symeig mat = None \/
    (exists e m, symeig mat = Some e /\ tmin e = Ok m /\ fle m zero = true)).
  { right. exists (mkTensor [1] [0%Q]), 0%Q. repeat split; reflexivity. }
  split; [exact Hiv|]. split; [exact Hfail|].
  exact (eigs_fallback_to_diag (K1 0) b1 b1 7 2 [] world_on Hiv Hfail).
Defined.

Lemma one_more_matmul_unless_inverse_run :
  exists w' sol ws ns,
    contour_integral_quad (K1 4) b1 false (Some one_weight) (Some two_shifts) 7 1
      world_on = (w', Ok (sol, ws, ns, two_shifts)) /\
    exists evs inverse_solves,
      trace w' = trace world_on ++ evs /\
      slice_from1 (minres (fun v => _matmul (K1 4) v) b1 (lit (-1)%Q) two_shifts) =
        Ok inverse_solves /\
      sol = _matmul (K1 4) inverse_solves /\ matmul_args evs = [inverse_solves].
Proof.
  do 4 eexists.
  assert (Hrun : contour_integral_quad (K1 4) b1 false (Some one_weight)
                   (Some two_shifts) 7 1 world_on =
                 (fst (contour_integral_quad (K1 4) b1 false (Some one_weight)
                         (Some two_shifts) 7 1 world_on),
                  Ok (mkTensor [1; 1; 1] [(-2 # 3)%Q], Some one_weight,
                      mkTensor [1; 1] [(-1 # 4)%Q], two_shifts)))
    by (vm_compute; reflexivity).
  split; [exact Hrun|].
  exact (one_more_matmul_unless_inverse _ _ _ _ _ _ _ _ _ _ _ _ _ Hrun).
Defined.

Lemma derived_shifts_zero_first_run :
  exists w' sol ws ns sh,
    contour_integral_quad (K1 4) b1 true None None 7 2 world_off =
      (w', Ok (sol, ws, ns, sh)) /\
    exists obs,
      _mul_broadcast_shape (batch_shape (K1 4)) (drop_last2 (shape b1)) = Ok obs /\
      shape sh = (2 + 1) :: obs /\ wf sh /\ index0 sh = Ok (zeros obs).
Proof.
  do 5 eexists. split.
  - vm_compute. reflexivity.
  - eapply (derived_shifts_zero_first (K1 4) b1 true None 7 2 world_off).
    vm_compute. reflexivity.
Defined.

Lemma derivation_skipped_iff_shifts_given_run :
  exists w' r,
    contour_integral_quad (K1 4) b1 false (Some one_weight) (Some two_shifts) 7 1
      world_on = (w', r) /\
    exists evs,
      trace w' = trace world_on ++ evs /\
      (Some two_shifts <> None -> Forall (fun e => ~ derivation_event e) evs) /\
      (forall sol ws ns sh, r = Ok (sol, ws, ns, sh) ->
         ws = Some one_weight /\ sh = two_shifts).
Proof.
  do 2 eexists. split.
  - vm_compute. reflexivity.
  - eapply (derivation_skipped_iff_shifts_given (K1 4) b1 false (Some one_weight)
              (Some two_shifts) 7 1 world_on).
    vm_compute. reflexivity.
Defined.

Lemma returned_components_run :
  exists w' sol ws ns,
    contour_integral_quad (K1 4) b1 true (Some one_weight) (Some two_shifts) 7 1
      world_on = (w', Ok (sol, ws, ns, two_shifts)) /\
    let stacked := minres (fun v => _matmul (K1 4) v) b1 (lit (-1)%Q) two_shifts in
    index0 stacked = Ok ns /\
    (exists rest,
        slice_from1 stacked = Ok rest /\
        sol = rest /\
        exists w1, record_stats (K1 4) b1 ns rest ws w1 = (w', Ok tt)) /\
    (exists evs, trace w' = trace world_on ++ evs /\ minres_shifts evs = [two_shifts]) /\
    two_shifts = two_shifts /\ ws = Some one_weight.
Proof.
  do 4 eexists. split.
  - vm_compute. reflexivity.
  - eapply (returned_components (K1 4) b1 true (Some one_weight) (Some two_shifts)
              7 1 world_on).
    vm_compute. reflexivity.
Defined.

Lemma shifts_without_weights_run :
  on (settings world_off) = false /\
  _mul_broadcast_shape (batch_shape (K1 4)) (drop_last2 (shape b1)) = Ok [] /\
  index0 (minres (fun v => _matmul (K1 4) v) b1 (lit (-1)%Q) two_shifts) =
    Ok (mkTensor [1; 1] [(-1 # 4)%Q]) /\
  slice_from1 (minres (fun v => _matmul (K1 4) v) b1 (lit (-1)%Q) two_shifts) =
    Ok (mkTensor [1; 1; 1] [(-1 # 6)%Q]) /\
  contour_integral_quad (K1 4) b1 false None (Some two_shifts) 7 7 world_off =
    (logged world_off [EvMinres b1 (lit (-1)%Q) two_shifts;
                       EvMatmul (mkTensor [1; 1; 1] [(-1 # 6)%Q])],
     Ok (_matmul (K1 4) (mkTensor [1; 1; 1] [(-1 # 6)%Q]), None,
         mkTensor [1; 1] [(-1 # 4)%Q], two_shifts)).
Proof.
  assert (Hoff : on (settings world_off) = false) by reflexivity.
  assert (Hobs : _mul_broadcast_shape (batch_shape (K1 4)) (drop_last2 (shape b1))
                 = Ok []) by reflexivity.
  assert (Hidx : index0 (minres (fun v => _matmul (K1 4) v) b1 (lit (-1)%Q) two_shifts)
                 = Ok (mkTensor [1; 1] [(-1 # 4)%Q])) by (vm_compute; reflexivity).
  assert (Hsl : slice_from1 (minres (fun v => _matmul (K1 4) v) b1 (lit (-1)%Q) two_shifts)
                = Ok (mkTensor [1; 1; 1] [(-1 # 6)%Q])) by (vm_compute; reflexivity).
  repeat (split; [assumption|]).
  exact (shifts_without_weights (K1 4) b1 false two_shifts 7 7 world_off [] _ _
           Hoff Hobs Hidx Hsl).
Defined.

(** C7 fails as stated: with inverse=False the solves that are returned are
    the operator applied to the per-shift solutions, not these solutions. *)
Lemma returned_solves_are_not_the_shifted_solutions :
  exists w' sol ws ns sh rest,
    contour_integral_quad (K1 4) b1 false (Some one_weight) (Some two_shifts) 7 1
      world_off = (w', Ok (sol, ws, ns, sh)) /\
    slice_from1 (minres (fun v => _matmul (K1 4) v) b1 (lit (-1)%Q) sh) = Ok rest /\
    sol <> rest.
Proof.
  do 6 eexists. split; [vm_compute; reflexivity|].
  split; [vm_compute; reflexivity|].
  intros Heq. discriminate Heq.
Qed.

(** C9 fails as stated: with the diagnostics on, a call with shifts and
    without weights does not return; it raises TypeError where the inverse
    solves are multiplied by the weights. *)
Lemma shifts_without_weights_raises_with_diagnostics :
  snd (contour_integral_quad (K1 4) b1 false None (Some two_shifts) 7 7 world_on) =
    Raise TypeError.
Proof. vm_compute. reflexivity. Qed.

End Runs.

(** * Further properties *)

(** ** Elements of blocks and of transposed matrices *)

Section ElementFacts.
Context {R : Type} `{Scalar R}.

Lemma nth_concat_uniform (m : nat) (d : R) (cs : list (list R)) :
  Forall (fun c => length c = m) cs ->
  forall j i, j < length cs -> i < m ->
    nth (j * m + i) (concat cs) d = nth i (nth j cs []) d.
Proof.
  induction 1 as [|c cs Hc _ IH]; intros j i Hj Hi; simpl in Hj; [lia|].
  destruct j as [|j]; simpl.
  - rewrite app_nth1 by lia. reflexivity.
  - rewrite app_nth2 by lia.
    replace (m + j * m + i - length c) with (j * m + i) by lia.
    apply IH; lia.
Qed.

Lemma nth_chunks (k n : nat) (l : list R) :
  forall i, i < k -> nth i (chunks k n l) [] = firstn n (skipn (i * n) l).
Proof.
  revert l; induction k as [|k IH]; intros l i Hi; [lia|].
  destruct i as [|i]; simpl; [reflexivity|].
  rewrite IH by lia. now rewrite skipn_skipn, Nat.add_comm.
Qed.

Lemma nth_firstn_skipn (n off j : nat) (d : R) (l : list R) :
  j < n -> nth j (firstn n (skipn off l)) d = nth (off + j) l d.
Proof.
  intros Hj. rewrite nth_firstn.
  apply Nat.ltb_lt in Hj. rewrite Hj. apply nth_skipn.
Qed.

Lemma nth_transpose_block (m n i j : nat) (d : R) (l : list R) :
  i < m -> j < n -> length l = m * n ->
  nth (j * m + i) (transpose_block m n l) d = nth (i * n + j) l d.
Proof.
  intros Hi Hj Hl. unfold transpose_block.
  pose proof (columns_each n (chunks m n l)) as Hcols.
  rewrite chunks_length in Hcols.
  rewrite (nth_concat_uniform m d _ Hcols) by (rewrite ?columns_length; lia).
  unfold columns.
  rewrite nth_indep with (d' := (fun j0 => map (fun row => nth j0 row zero) (chunks m n l)) 0)
    by (now rewrite length_map, length_seq).
  rewrite map_nth with (f := fun j0 => map (fun row => nth j0 row zero) (chunks m n l)).
  rewrite seq_nth by assumption. cbn [Nat.add].
  rewrite nth_indep with (d' := (fun row => nth j row zero) [])
    by (now rewrite length_map, chunks_length).
  rewrite map_nth with (f := fun row => nth j row zero).
  rewrite nth_chunks by assumption.
  rewrite nth_firstn_skipn by assumption.
  apply nth_indep. nia.
Qed.

Lemma single_block (k : nat) (l : list R) :
  k < length l -> firstn 1 (skipn (k * 1) l) = [nth k l zero].
Proof.
  rewrite Nat.mul_1_r. revert k; induction l as [|x l IH]; intros k Hk; simpl in Hk; [lia|].
  destruct k as [|k]; [reflexivity|].
  simpl. apply IH. lia.
Qed.

Lemma transpose_matrix (m n : nat) (l : list R) :
  length l = m * n ->
  transpose_last2 (mkTensor [m; n] l) = Ok (mkTensor [n; m] (transpose_block m n l)).
Proof.
  intros Hl. change [m; n] with ([] ++ [m; n]). rewrite transpose_last2_shape.
  cbn [app prod_shape fold_right chunks flat_map].
  now rewrite app_nil_r, <- Hl, firstn_all.
Qed.

End ElementFacts.

(** ** Index tensors *)

Section IndexFacts.
Context {R : Type} `{Scalar R}.

Lemma wrap_index_cases (n : nat) (i : Z) :
  wrap_index n i = Raise IndexError \/ exists k, wrap_index n i = Ok k /\ k < n.
Proof.
  unfold wrap_index.
  destruct ((0 <=? i) && (i <? Z.of_nat n))%Z eqn:E1.
  - right. eexists. split; [reflexivity|]. lia.
  - destruct ((i <? 0) && (- Z.of_nat n <=? i))%Z eqn:E2.
    + right. eexists. split; [reflexivity|]. lia.
    + now left.
Qed.

(** an index within [-n, n) stands for its residue modulo [n] *)
Lemma wrap_index_in_range (n : nat) (i : Z) :
  (- Z.of_nat n <= i < Z.of_nat n)%Z ->
  wrap_index n i = Ok (Z.to_nat (i mod Z.of_nat n)).
Proof.
  intros Hi. unfold wrap_index.
  destruct ((0 <=? i) && (i <? Z.of_nat n))%Z eqn:E1.
  - rewrite Z.mod_small by lia. reflexivity.
  - destruct ((i <? 0) && (- Z.of_nat n <=? i))%Z eqn:E2; [|lia].
    do 2 f_equal.
    apply Z.mod_unique with (q := (-1)%Z); lia.
Qed.

Lemma wrap_index_out_of_range (n : nat) (i : Z) :
  (i < - Z.of_nat n \/ Z.of_nat n <= i)%Z -> wrap_index n i = Raise IndexError.
Proof.
  intros Hi. unfold wrap_index.
  destruct ((0 <=? i) && (i <? Z.of_nat n))%Z eqn:E1; [lia|].
  destruct ((i <? 0) && (- Z.of_nat n <=? i))%Z eqn:E2; [lia|]. reflexivity.
Qed.

Lemma broadcast_len_swap (a b : nat) :
  broadcast_len [a; b] = broadcast_len [b; a].
Proof.
  unfold broadcast_len. cbn [filter].
  destruct (a =? 1) eqn:Ea, (b =? 1) eqn:Eb; cbn [negb forallb andb]; try reflexivity.
  destruct (a =? b) eqn:Eab.
  - apply Nat.eqb_eq in Eab. subst. now rewrite Nat.eqb_refl.
  - rewrite Nat.eqb_sym, Eab. reflexivity.
Qed.

Lemma broadcast_len_same (k : nat) : broadcast_len [k; k] = Ok k.
Proof.
  unfold broadcast_len. cbn [filter].
  destruct (k =? 1) eqn:Ek; cbn [negb forallb andb].
  - apply Nat.eqb_eq in Ek. now subst.
  - now rewrite Nat.eqb_refl.
Qed.

Lemma stretch_same (l : list Z) : stretch (length l) l = l.
Proof. unfold stretch. now rewrite Nat.eqb_refl. Qed.

Lemma rmapM_swap {A B C} (f : A * B -> result C) (g : B * A -> result C)
    (la : list A) (lb : list B) :
  (forall a b, f (a, b) = g (b, a)) ->
  rmapM f (combine la lb) = rmapM g (combine lb la).
Proof.
  intros Hfg. revert lb; induction la as [|a la IH]; intros [|b lb]; simpl; auto.
  now rewrite Hfg, IH.
Qed.

Lemma rmapM_Ok_in {A B} (f : A -> result B) (g : A -> B) (l : list A) :
  (forall a, In a l -> f a = Ok (g a)) -> rmapM f l = Ok (map g l).
Proof.
  induction l as [|a l IH]; intros Hf; simpl; [reflexivity|].
  rewrite Hf by now left. simpl. rewrite IH; [reflexivity|].
  intros b Hb. apply Hf. now right.
Qed.

Lemma rmapM_Raise_in {A B} (f : A -> result B) (e : exn) (l : list A) :
  (forall a, In a l -> f a = Raise e \/ exists b, f a = Ok b) ->
  (exists a, In a l /\ f a = Raise e) -> rmapM f l = Raise e.
Proof.
  induction l as [|a l IH]; intros Hall [x [Hin Hx]]; [contradiction|].
  simpl. destruct (Hall a (or_introl eq_refl)) as [Ha | [b Ha]]; rewrite Ha; simpl.
  - reflexivity.
  - rewrite IH; [reflexivity | |].
    + intros y Hy. apply Hall. now right.
    + destruct Hin as [-> | Hin]; [congruence|]. now exists x.
Qed.

Lemma concat_singletons {A} (f : A -> R) (l : list A) :
  concat (map (fun a => [f a]) l) = map f l.
Proof. induction l as [|a l IH]; simpl; [reflexivity | now rewrite IH]. Qed.

End IndexFacts.

(** ** The other methods of NonLazyVariable *)

Section NonLazyMethodFacts.
Context {R : Type} `{Scalar R}.
Import NonLazy NonLazyMethods.

(** X1. Transposition needs a matrix: on fewer than two dimensions it raises
    IndexError; otherwise it succeeds, swaps the last two sizes, keeps the
    batch sizes, and the result holds as many elements as its size says. *)
Theorem transpose_nonbatch_size (self : @NonLazyVariable R) (Hwf : wf (var self)) :
  (dim (var self) < 2 /\ _transpose_nonbatch self = Raise IndexError) \/
  (exists pre m n t,
      size self = pre ++ [m; n] /\ _transpose_nonbatch self = Ok t /\
      size t = pre ++ [n; m] /\ wf (var t)).
Proof.
  destruct self as [[s l]]. unfold size, dim, wf, numel in *. cbn [var shape data] in *.
  destruct (le_lt_dec 2 (length s)) as [Hd | Hd].
  - right. destruct (shape_split2 s Hd) as [pre [m [n ->]]].
    exists pre, m, n. eexists. split; [reflexivity|].
    unfold _transpose_nonbatch. cbn [var]. rewrite transpose_last2_shape. cbn [rbind].
    split; [reflexivity|]. cbn [var shape data]. split; [reflexivity|].
    rewrite prod_shape_app, prod_shape2 in Hwf.
    rewrite prod_shape_app, prod_shape2.
    rewrite flat_map_concat_map.
    rewrite length_concat_each with (n := n * m).
    + rewrite length_map, chunks_length. reflexivity.
    + apply Forall_forall. intros c Hc. apply in_map_iff in Hc.
      destruct Hc as [c0 [<- _]]. apply transpose_block_length.
  - left. split; [assumption|].
    unfold _transpose_nonbatch, transpose_last2. cbn [var shape].
    destruct s as [|a [|b s]]; [reflexivity | reflexivity | simpl in Hd; lia].
Qed.

(** X2. Reading the entries (left, right) of a matrix is reading the entries
    (right, left) of its transpose, errors included. *)
Theorem get_indices_of_transposed (v : Tensor R) (m n : nat)
    (left_indices right_indices : list Z)
    (Hs : shape v = [m; n]) (Hwf : wf v) :
  rbind (_transpose_nonbatch (__init__ v))
        (fun t => _get_indices t right_indices left_indices) =
  _get_indices (__init__ v) left_indices right_indices.
Proof.
  destruct v as [s l]. cbn [shape] in Hs. subst s.
  unfold wf, numel in Hwf. cbn [shape data] in Hwf. rewrite prod_shape2 in Hwf.
  unfold _transpose_nonbatch, _get_indices. cbn [var].
  rewrite transpose_matrix by assumption. cbn [rbind var].
  unfold index_pairs. cbn [shape].
  rewrite (broadcast_len_swap (length right_indices) (length left_indices)).
  destruct (broadcast_len [length left_indices; length right_indices]) as [len|e];
    [|reflexivity].
  cbn [rbind].
  erewrite rmapM_swap; [reflexivity|].
  intros j i. cbn [fst snd].
  destruct (wrap_index_cases n j) as [-> | [j' [-> Hj]]];
    destruct (wrap_index_cases m i) as [-> | [i' [-> Hi]]]; cbn [rbind]; try reflexivity.
  f_equal. unfold block_at. cbn [data prod_shape fold_right].
  rewrite !single_block.
  - f_equal. now apply nth_transpose_block.
  - nia.
  - rewrite transpose_block_length. nia.
Qed.

(** X3. The diagonal of a matrix is what [_get_indices] reads at the index
    pairs (0, 0), (1, 1), ... *)
Theorem diag_is_get_indices (v : Tensor R) (m n : nat)
    (Hs : shape v = [m; n]) (Hwf : wf v) :
  diag (__init__ v) =
  _get_indices (__init__ v) (arange (Nat.min m n)) (arange (Nat.min m n)).
Proof.
  destruct v as [s l]. cbn [shape] in Hs. subst s.
  unfold wf, numel in Hwf. cbn [shape data] in Hwf. rewrite prod_shape2 in Hwf.
  unfold diag, _get_indices, tdiag, index_pairs. cbn [var shape data].
  set (k := Nat.min m n).
  assert (Hlen : length (arange k) = k) by (unfold arange; now rewrite length_map, length_seq).
  rewrite Hlen, broadcast_len_same. cbn [rbind].
  assert (Hst : stretch k (arange k) = arange k)
    by (unfold stretch; now rewrite Hlen, Nat.eqb_refl).
  rewrite Hst.
  unfold arange. rewrite combine_map.
  rewrite (rmapM_Ok_in _ (fun p => [nth (Z.to_nat (fst p) * n + Z.to_nat (snd p)) l zero])).
  - cbn [rbind]. do 2 f_equal. rewrite map_map.
    rewrite (concat_singletons
               (fun i => nth (Z.to_nat (Z.of_nat i) * n + Z.to_nat (Z.of_nat i)) l zero)).
    apply map_ext. intros i. now rewrite Nat2Z.id.
  - intros [a b] Hin. apply in_map_iff in Hin. destruct Hin as [i [Hi Hin]].
    inversion Hi. subst a b. apply in_seq in Hin. cbn [fst snd].
    rewrite !wrap_index_in_range by lia.
    rewrite !Z.mod_small by lia. cbn [rbind]. rewrite !Nat2Z.id.
    f_equal. unfold block_at. cbn [data prod_shape fold_right].
    apply single_block. nia.
Qed.

(** X4. A matrix and its transpose have the same diagonal. *)
Theorem diag_of_transposed (v : Tensor R) (m n : nat)
    (Hs : shape v = [m; n]) (Hwf : wf v) :
  rbind (_transpose_nonbatch (__init__ v)) diag = diag (__init__ v).
Proof.
  destruct v as [s l]. cbn [shape] in Hs. subst s.
  unfold wf, numel in Hwf. cbn [shape data] in Hwf. rewrite prod_shape2 in Hwf.
  unfold _transpose_nonbatch, diag. cbn [var].
  rewrite transpose_matrix by assumption. cbn [rbind var].
  unfold tdiag. cbn [shape data]. rewrite (Nat.min_comm n m).
  do 2 f_equal. apply map_ext_in. intros i Hi. apply in_seq in Hi.
  apply nth_transpose_block; lia.
Qed.

(** X5. On a vector [diag] builds the diagonal matrix, and the diagonal of that
    matrix is the vector again. *)
Theorem diag_of_vector_round_trip (v : Tensor R) (n : nat)
    (Hs : shape v = [n]) (Hwf : wf v) :
  exists d,
    diag (__init__ v) = Ok d /\ shape d = [n; n] /\ wf d /\
    diag (__init__ d) = Ok v.
Proof.
  destruct v as [s l]. cbn [shape] in Hs. subst s.
  unfold wf, numel in Hwf. cbn [shape data] in Hwf.
  assert (Hl : length l = n) by (unfold prod_shape in Hwf; simpl in Hwf; lia).
  unfold diag, tdiag. cbn [var shape data].
  eexists. split; [reflexivity|]. cbn [shape]. split; [reflexivity|].
  set (row := fun i => map (fun j => if i =? j then nth i l zero else zero) (seq 0 n)).
  assert (Hrows : Forall (fun c => length c = n) (map row (seq 0 n))).
  { apply Forall_forall. intros c Hc. apply in_map_iff in Hc.
    destruct Hc as [i [<- _]]. unfold row. now rewrite length_map, length_seq. }
  split.
  - unfold wf, numel. cbn [shape data]. rewrite prod_shape2, flat_map_concat_map.
    fold row. rewrite (length_concat_each _ _ Hrows).
    now rewrite length_map, length_seq.
  - cbn [var shape data]. rewrite Nat.min_id. do 2 f_equal.
    rewrite flat_map_concat_map. fold row.
    transitivity (map (fun j => nth j l zero) (seq 0 (length l)));
      [|apply map_nth_seq].
    rewrite Hl.
    apply map_ext_in. intros i Hi. apply in_seq in Hi.
    rewrite (nth_concat_uniform n zero _ Hrows)
      by (rewrite ?length_map, ?length_seq; lia).
    rewrite nth_indep with (d' := row 0) by (now rewrite length_map, length_seq).
    rewrite map_nth, seq_nth by lia. cbn [Nat.add]. unfold row.
    rewrite nth_indep with (d' := (fun j => if i =? j then nth i l zero else zero) 0)
      by (now rewrite length_map, length_seq).
    rewrite map_nth with (f := fun j => if i =? j then nth i l zero else zero).
    rewrite seq_nth by lia. cbn [Nat.add]. now rewrite Nat.eqb_refl.
Qed.

End NonLazyMethodFacts.

Section GetIndicesFacts.
Context {R : Type} `{Scalar R}.
Import NonLazy NonLazyMethods.

Lemma in_combine_left {A B} (x : A) (l : list A) (r : list B) :
  length l = length r -> In x l -> exists y, In (x, y) (combine l r).
Proof.
  revert r; induction l as [|a l IH]; intros [|b r] Hlen Hin; simpl in *;
    try contradiction; try discriminate.
  destruct Hin as [-> | Hin].
  - exists b. now left.
  - destruct (IH r) as [y Hy]; [lia | assumption|]. exists y. now right.
Qed.

Lemma in_combine_right {A B} (y : B) (l : list A) (r : list B) :
  length l = length r -> In y r -> exists x, In (x, y) (combine l r).
Proof.
  revert r; induction l as [|a l IH]; intros [|b r] Hlen Hin; simpl in *;
    try contradiction; try discriminate.
  destruct Hin as [-> | Hin].
  - exists a. now left.
  - destruct (IH r) as [x Hx]; [lia | assumption|]. exists x. now right.
Qed.

(** X6. With as many left as right indices, all within the bounds of the matrix
    (negative ones counting from the end), [_get_indices] returns one entry
    per index pair: the entry of the matrix at that row and column. *)
Theorem get_indices_in_range (v : Tensor R) (m n : nat)
    (left_indices right_indices : list Z)
    (Hs : shape v = [m; n]) (Hwf : wf v)
    (Hlen : length left_indices = length right_indices)
    (Hl : Forall (fun i => (- Z.of_nat m <= i < Z.of_nat m)%Z) left_indices)
    (Hr : Forall (fun j => (- Z.of_nat n <= j < Z.of_nat n)%Z) right_indices) :
  _get_indices (__init__ v) left_indices right_indices =
    Ok (mkTensor [length left_indices]
          (map (fun p => nth (Z.to_nat (fst p mod Z.of_nat m) * n +
                              Z.to_nat (snd p mod Z.of_nat n)) (data v) zero)
               (combine left_indices right_indices))).
Proof.
  destruct v as [s l]. cbn [shape] in Hs. subst s.
  unfold wf, numel in Hwf. cbn [shape data] in Hwf. rewrite prod_shape2 in Hwf.
  unfold _get_indices, index_pairs. cbn [var shape data].
  rewrite <- Hlen, broadcast_len_same. cbn [rbind].
  rewrite stretch_same. rewrite Hlen at 1. rewrite stretch_same.
  rewrite (rmapM_Ok_in _
             (fun p => [nth (Z.to_nat (fst p mod Z.of_nat m) * n +
                             Z.to_nat (snd p mod Z.of_nat n)) l zero])).
  - cbn [rbind]. do 2 f_equal.
    apply (concat_singletons
             (fun p : Z * Z => nth (Z.to_nat (fst p mod Z.of_nat m) * n +
                                    Z.to_nat (snd p mod Z.of_nat n)) l zero)).
  - intros [i j] Hin. cbn [fst snd].
    rewrite Forall_forall in Hl, Hr.
    pose proof (Hl i (in_combine_l _ _ _ _ Hin)) as Hi.
    pose proof (Hr j (in_combine_r _ _ _ _ Hin)) as Hj.
    rewrite !wrap_index_in_range by assumption. cbn [rbind].
    f_equal. unfold block_at. cbn [data prod_shape fold_right].
    apply single_block.
    assert (Hmi : (0 <= i mod Z.of_nat m < Z.of_nat m)%Z)
      by (apply Z.mod_pos_bound; lia).
    assert (Hnj : (0 <= j mod Z.of_nat n < Z.of_nat n)%Z)
      by (apply Z.mod_pos_bound; lia).
    nia.
Qed.

(** X7. With as many left as right indices, one index outside the bounds of the
    matrix makes [_get_indices] raise IndexError. *)
Theorem get_indices_out_of_range (v : Tensor R) (m n : nat)
    (left_indices right_indices : list Z)
    (Hs : shape v = [m; n])
    (Hlen : length left_indices = length right_indices)
    (Hbad : Exists (fun i => (i < - Z.of_nat m \/ Z.of_nat m <= i)%Z) left_indices \/
            Exists (fun j => (j < - Z.of_nat n \/ Z.of_nat n <= j)%Z) right_indices) :
  _get_indices (__init__ v) left_indices right_indices = Raise IndexError.
Proof.
  unfold _get_indices, index_pairs. cbn [var]. rewrite Hs.
  rewrite <- Hlen, broadcast_len_same. cbn [rbind].
  rewrite stretch_same. rewrite Hlen at 1. rewrite stretch_same.
  rewrite (rmapM_Raise_in _ IndexError); [reflexivity | |].
  - intros [i j] _. cbn [fst snd].
    destruct (wrap_index_cases m i) as [-> | [i' [-> _]]]; cbn [rbind]; [now left|].
    destruct (wrap_index_cases n j) as [-> | [j' [-> _]]]; cbn [rbind]; [now left|].
    right. eauto.
  - destruct Hbad as [Hb | Hb]; apply Exists_exists in Hb; destruct Hb as [x [Hin Hx]].
    + destruct (in_combine_left x _ _ Hlen Hin) as [y Hy].
      exists (x, y). split; [assumption|]. cbn [fst snd].
      now rewrite (wrap_index_out_of_range m x Hx).
    + destruct (in_combine_right x _ _ Hlen Hin) as [y Hy].
      exists (y, x). split; [assumption|]. cbn [fst snd].
      rewrite (wrap_index_out_of_range n x Hx).
      destruct (wrap_index_cases m y) as [-> | [i' [-> _]]]; reflexivity.
Qed.

End GetIndicesFacts.

(** ** Repetition *)

Section RepeatFacts.
Context {R : Type} `{Scalar R}.
Import NonLazy.

Lemma tile_length (reps : list nat) :
  forall (sh : list nat) (l : list R),
    length reps = length sh -> length l = prod_shape sh ->
    length (tile reps sh l) =
      prod_shape (map (fun p => fst p * snd p) (combine reps sh)).
Proof.
  induction reps as [|r reps IH]; intros [|d sh] l Hlen Hl; try discriminate.
  - exact Hl.
  - cbn [tile combine map fst snd]. rewrite !prod_shape_cons in *.
    rewrite length_concat_repeat, flat_map_concat_map.
    rewrite length_concat_each
      with (n := prod_shape (map (fun p => fst p * snd p) (combine reps sh))).
    + rewrite length_map, chunks_length. lia.
    + apply Forall_forall. intros c Hc. apply in_map_iff in Hc.
      destruct Hc as [c0 [<- Hc0]]. apply IH; [simpl in Hlen; lia|].
      pose proof (@chunks_each R d (prod_shape sh) l) as He.
      rewrite Forall_forall in He. apply He; [lia | assumption].
Qed.

Lemma tile_ones (sh : list nat) :
  forall l : list R,
    length l = prod_shape sh -> tile (List.repeat 1 (length sh)) sh l = l.
Proof.
  induction sh as [|d sh IH]; intros l Hl; [reflexivity|].
  cbn [length List.repeat tile concat]. rewrite app_nil_r.
  rewrite prod_shape_cons in Hl.
  rewrite flat_map_concat_map.
  rewrite map_ext_in with (g := fun c => c).
  - rewrite map_id. now apply concat_chunks.
  - intros c Hc. apply IH.
    pose proof (@chunks_each R d (prod_shape sh) l) as He.
    rewrite Forall_forall in He. apply He; [lia | assumption].
Qed.

Lemma ones_times (sh : list nat) :
  map (fun p => fst p * snd p) (combine (List.repeat 1 (length sh)) sh) = sh.
Proof.
  induction sh as [|d sh IH]; [reflexivity|].
  cbn [length List.repeat combine map fst snd]. rewrite IH. f_equal. lia.
Qed.

Lemma pad_shape_length (k : nat) (s : list nat) :
  length s <= k -> length (pad_shape k s) = k.
Proof. intros Hk. unfold pad_shape. rewrite length_app, repeat_length. lia. Qed.

Lemma prod_shape_pad (k : nat) (s : list nat) :
  prod_shape (pad_shape k s) = prod_shape s.
Proof.
  unfold pad_shape. rewrite prod_shape_app.
  induction (k - length s) as [|j IH]; [simpl; lia|].
  cbn [List.repeat]. rewrite prod_shape_cons. lia.
Qed.

(** X8. [repeat] called without a size raises TypeError; with sizes, but
    fewer than the matrix has dimensions, it raises RuntimeError; otherwise
    every size of the result is the size asked for times the size of the
    matrix in that dimension (1 for the dimensions the matrix lacks in
    front), and the result holds as many elements as that says. *)
Theorem repeat_size (v : Tensor R) (sizes : list nat) (Hwf : wf v) :
  (sizes = [] /\
   NonLazyMethods.repeat (__init__ v) sizes = Raise TypeError) \/
  (sizes <> [] /\ length sizes < dim v /\
   NonLazyMethods.repeat (__init__ v) sizes = Raise RuntimeError) \/
  (sizes <> [] /\ dim v <= length sizes /\
   exists t,
     NonLazyMethods.repeat (__init__ v) sizes = Ok t /\
     size t = map (fun p => fst p * snd p)
                  (combine sizes (pad_shape (length sizes) (shape v))) /\
     wf (var t)).
Proof.
  unfold NonLazyMethods.repeat, trepeat. cbn [var].
  destruct sizes as [|r sizes]; [left; now split | right].
  destruct (length (r :: sizes) <? dim v) eqn:E.
  - left. apply Nat.ltb_lt in E. repeat split; [discriminate | assumption].
  - right. apply Nat.ltb_ge in E. split; [discriminate|]. split; [assumption|].
    cbn [rbind]. eexists. split; [reflexivity|].
    unfold size. cbn [var shape data]. split; [reflexivity|].
    unfold wf, numel. cbn [shape data].
    apply tile_length.
    + symmetry. now apply pad_shape_length.
    + rewrite prod_shape_pad. exact Hwf.
Qed.

(** X9. Repeating a tensor once along each of its dimensions gives the tensor
    back, unless it has no dimension: then no size is passed and [repeat]
    raises TypeError. *)
Theorem repeat_once_is_identity (v : Tensor R) (Hwf : wf v) :
  (dim v = 0 /\
   NonLazyMethods.repeat (__init__ v) (List.repeat 1 (dim v)) = Raise TypeError) \/
  (1 <= dim v /\
   exists t,
     NonLazyMethods.repeat (__init__ v) (List.repeat 1 (dim v)) = Ok t /\
     evaluate t = v).
Proof.
  unfold NonLazyMethods.repeat, trepeat. cbn [var].
  destruct v as [s l]. unfold dim, wf, numel in *. cbn [shape data] in *.
  destruct s as [|d s]; [left; now split | right].
  split; [simpl; lia|].
  cbn [length List.repeat]. rewrite repeat_length.
  replace (S (length s) <? S (length s)) with false
    by (symmetry; apply Nat.ltb_irrefl).
  cbn [rbind]. eexists. split; [reflexivity|]. unfold evaluate. cbn [var].
  unfold pad_shape. cbn [length]. rewrite Nat.sub_diag. cbn [List.repeat app].
  f_equal.
  - exact (ones_times (d :: s)).
  - exact (tile_ones (d :: s) l Hwf).
Qed.

End RepeatFacts.

(** ** The eigenvalue estimates, in full *)

Section EstimateFacts.
Context {R : Type} `{Scalar R} `{Collaborators R}.
Local Open Scope ciq_scope.

(** X10. The estimation never raises.  It returns the eigenvalues of the Lanczos
    matrix, without consulting the operator's diagonal, when the decomposition
    succeeds and their minimum is positive; in every other case (failure, no
    eigenvalue at all, a minimum that is not positive) it returns the
    operator's diagonal. *)
Theorem eigenvalue_estimates_never_raise (lazy_tensor : LazyTensor R)
    (mat : Tensor R) (w : World R) :
  (exists e m,
      symeig mat = Some e /\ tmin e = Ok m /\ fle m zero = false /\
      approx_eigs_of lazy_tensor mat w = (logged w [EvSymeig mat], Ok e)) \/
  ((symeig mat = None \/
    exists e, symeig mat = Some e /\
              (tmin e = Raise RuntimeError \/
               exists m, tmin e = Ok m /\ fle m zero = true)) /\
   approx_eigs_of lazy_tensor mat w =
     (logged w [EvSymeig mat; EvDiag], Ok (diag lazy_tensor))).
Proof.
  unfold approx_eigs_of, try_except_RuntimeError, bind, emit, lift, raise, ret, logged.
  destruct (symeig mat) as [e|] eqn:Es; cbn [settings trace].
  - unfold tmin. destruct (data e) as [|x l] eqn:Ed; cbn [settings trace].
    + right. split; [|now rewrite <- app_assoc].
      right. exists e. split; [reflexivity|]. left. unfold tmin. now rewrite Ed.
    + destruct (fle (fold_left fmin l x) zero) eqn:Ef; cbn [settings trace].
      * right. split; [|now rewrite <- app_assoc].
        right. exists e. split; [reflexivity|]. right.
        exists (fold_left fmin l x). unfold tmin. rewrite Ed. now split.
      * left. exists e, (fold_left fmin l x). unfold tmin. rewrite Ed.
        repeat split; auto.
  - right. split; [now left | now rewrite <- app_assoc].
Qed.

Lemma approx_eigs_of_settings (lazy_tensor : LazyTensor R) (mat : Tensor R)
    (w w' : World R) (r : result (Tensor R)) :
  approx_eigs_of lazy_tensor mat w = (w', r) -> settings w' = settings w.
Proof.
  unfold approx_eigs_of, try_except_RuntimeError, bind, emit, lift, raise, ret.
  intros Hrun.
  destruct (symeig mat) as [e|]; cbn [settings trace] in Hrun.
  - destruct (tmin e) as [m|x]; cbn [settings trace] in Hrun.
    + destruct (fle m zero); cbn [settings trace] in Hrun;
        inversion Hrun; reflexivity.
    + destruct x; inversion Hrun; reflexivity.
  - inversion Hrun; reflexivity.
Qed.

End EstimateFacts.

(** ** The diagnostics record *)

Section StatsFacts.
Context {R : Type} `{Scalar R} `{Collaborators R}.
Local Open Scope ciq_scope.

Lemma untouched_here (w : World R) :
  settings w = settings w /\
  exists evs, trace w = trace w ++ evs /\
              Forall (fun e : Event R => is_stats_event e = false) evs.
Proof. split; [reflexivity|]. exists []. now rewrite app_nil_r. Qed.

Lemma stats_untouched_ret {A} (a : A) : stats_untouched (@ret R A a).
Proof. intros w w' r Hr _. inversion Hr. subst. apply untouched_here. Qed.

Lemma stats_untouched_lift {A} (x : result A) : stats_untouched (@lift R A x).
Proof. intros w w' r Hr _. inversion Hr. subst. apply untouched_here. Qed.

Lemma stats_untouched_raise {A} (e : exn) : stats_untouched (@raise R A e).
Proof. intros w w' r Hr _. inversion Hr. subst. apply untouched_here. Qed.

Lemma stats_untouched_emit (e : Event R) :
  is_stats_event e = false -> stats_untouched (emit e).
Proof.
  intros He w w' r Hr _. inversion Hr. subst. cbn [settings trace].
  split; [reflexivity|]. exists [e]. auto.
Qed.

Lemma stats_untouched_bind {A B} (m : M R A) (f : A -> M R B) :
  stats_untouched m -> (forall a, stats_untouched (f a)) -> stats_untouched (bind m f).
Proof.
  intros Hm Hf w w' r. unfold bind.
  destruct (m w) as [w1 [a|e]] eqn:Em; intros Hr Hoff.
  - destruct (Hm _ _ _ Em Hoff) as [S1 [e1 [T1 F1]]].
    assert (Hoff1 : on (settings w1) = false) by now rewrite S1.
    destruct (Hf a _ _ _ Hr Hoff1) as [S2 [e2 [T2 F2]]].
    split; [now rewrite S2|].
    exists (e1 ++ e2). split; [now rewrite T2, T1, app_assoc | now apply Forall_app].
  - inversion Hr. subst. now apply (Hm _ _ _ Em Hoff).
Qed.

Lemma stats_untouched_when_off {A} (f : Stats R -> M R A) :
  (forall s, on s = false -> stats_untouched (f s)) ->
  stats_untouched (bind get_stats f).
Proof.
  intros Hf w w' r. unfold bind, get_stats. intros Hr Hoff.
  now apply (Hf (settings w) Hoff w w' r).
Qed.

Lemma stats_untouched_try {A} (body handler : M R A) :
  stats_untouched body -> stats_untouched handler ->
  stats_untouched (try_except_RuntimeError body handler).
Proof.
  intros Hb Hh w w' r. unfold try_except_RuntimeError.
  destruct (body w) as [w1 [a|e]] eqn:Eb; intros Hr Hoff.
  - inversion Hr. subst. now apply (Hb _ _ _ Eb Hoff).
  - destruct (Hb _ _ _ Eb Hoff) as [S1 [e1 [T1 F1]]].
    destruct e; try (inversion Hr; subst; split; [assumption | now exists e1]).
    assert (Hoff1 : on (settings w1) = false) by now rewrite S1.
    destruct (Hh _ _ _ Hr Hoff1) as [S2 [e2 [T2 F2]]].
    split; [now rewrite S2|].
    exists (e1 ++ e2). split; [now rewrite T2, T1, app_assoc | now apply Forall_app].
Qed.

Ltac untouched_step :=
  first
    [ apply stats_untouched_ret
    | apply stats_untouched_lift
    | apply stats_untouched_raise
    | apply stats_untouched_emit; reflexivity
    | apply stats_untouched_when_off; intros ? ?
    | apply stats_untouched_bind; [|intros ?] ].

Lemma derive_stats_untouched (lazy_tensor : LazyTensor R) (rhs : Tensor R)
    (mi N : nat) (obs : list nat) :
  stats_untouched (derive lazy_tensor rhs mi N obs).
Proof.
  unfold derive. repeat untouched_step.
  destruct (lanczos_tridiag _ _ _ _ _) as [basis mat].
  apply stats_untouched_bind.
  - unfold approx_eigs_of. apply stats_untouched_try.
    + repeat untouched_step.
      * destruct (symeig mat); untouched_step.
      * destruct (fle _ _); untouched_step.
    + repeat untouched_step.
  - intros e. unfold contour_from_eigs, condition.
    apply stats_untouched_bind.
    + repeat untouched_step.
      match goal with Hs : on _ = false |- _ => rewrite Hs end.
      repeat untouched_step.
    + intros [k2 min_eig]. apply stats_untouched_bind; [untouched_step|].
      intros [fs fw]. untouched_step.
Qed.

(** X11. With the diagnostics off, whatever a call does, it leaves the diagnostics
    record exactly as it found it and performs none of the diagnostic work: no
    extra application of the operator through [@], no division for the
    condition number or for the residuals. *)
Theorem diagnostics_off_untouched (lazy_tensor : LazyTensor R) (rhs : Tensor R)
    (inverse : bool) (weights shifts : option (Tensor R)) (mi N : nat)
    (w w' : World R)
    (r : result (Tensor R * option (Tensor R) * Tensor R * Tensor R))
    (Hrun : contour_integral_quad lazy_tensor rhs inverse weights shifts mi N w =
              (w', r))
    (Hoff : on (settings w) = false) :
  settings w' = settings w /\
  exists evs, trace w' = trace w ++ evs /\
              Forall (fun e => is_stats_event e = false) evs.
Proof.
  revert w w' r Hrun Hoff.
  change (stats_untouched
            (contour_integral_quad lazy_tensor rhs inverse weights shifts mi N)).
  unfold contour_integral_quad.
  apply stats_untouched_bind; [untouched_step | intros obs].
  apply stats_untouched_bind.
  { destruct shifts as [s|]; [untouched_step|].
    apply stats_untouched_bind; [apply derive_stats_untouched|].
    intros [wts s]. untouched_step. }
  intros [weights' shifts'].
  repeat untouched_step.
  - destruct (negb inverse); repeat untouched_step.
  - match goal with Hs : on _ = false |- _ => rewrite Hs end. untouched_step.
Qed.

End StatsFacts.

Section StatsOnFacts.
Context {R : Type} `{Scalar R} `{Collaborators R}.
Local Open Scope ciq_scope.

Ltac run_step Hrun a w1 Hm :=
  apply bind_Ok_inv in Hrun; destruct Hrun as [a [w1 [Hm Hrun]]].

Ltac run_lift Hrun a Hm :=
  let w1 := fresh "w" in
  run_step Hrun a w1 Hm; apply lift_Ok_inv in Hm; destruct Hm as [-> Hm].

Ltac run_emit Hrun Hs :=
  let a := fresh "u" in let w1 := fresh "w" in let Hm := fresh "Hm" in
  run_step Hrun a w1 Hm; apply emit_inv in Hm; destruct Hm as [Hs _].

Lemma set_minres_residual_run (x : R) (w w' : World R) (r : result unit) :
  set_minres_residual x w = (w', r) ->
  settings w' = {| on := on (settings w);
                   condition_number := condition_number (settings w);
                   minres_residual := Some x;
                   ciq_diff := ciq_diff (settings w) |}.
Proof. intros Hr. inversion Hr. reflexivity. Qed.

Lemma set_ciq_diff_run (x : R) (w w' : World R) (r : result unit) :
  set_ciq_diff x w = (w', r) ->
  settings w' = {| on := on (settings w);
                   condition_number := condition_number (settings w);
                   minres_residual := minres_residual (settings w);
                   ciq_diff := Some x |}.
Proof. intros Hr. inversion Hr. reflexivity. Qed.

Lemma set_condition_number_run (x : R) (w w' : World R) (r : result unit) :
  set_condition_number x w = (w', r) ->
  settings w' = {| on := on (settings w);
                   condition_number := Some x;
                   minres_residual := minres_residual (settings w);
                   ciq_diff := ciq_diff (settings w) |}.
Proof. intros Hr. inversion Hr. reflexivity. Qed.

Lemma float_div_Ok (x y z : R) :
  float_div x y = Ok z -> is_zero y = false /\ z = fdiv x y.
Proof.
  unfold float_div. destruct (is_zero y); [discriminate|].
  intros Hz. inversion Hz. auto.
Qed.

(** What a run of lines 66-70 that goes on has computed. *)
Lemma condition_Ok (approx_eigs k2 min_eig : Tensor R) (w0 w1 : World R) :
  condition approx_eigs w0 = (w1, Ok (k2, min_eig)) ->
  exists max_eig,
    reduce_last fmax approx_eigs = Ok max_eig /\
    reduce_last fmin approx_eigs = Ok min_eig /\
    binop fdiv min_eig max_eig = Ok k2 /\
    (on (settings w0) = true ->
     is_zero (mean_item k2) = false /\
     settings w1 = {| on := true;
                      condition_number := Some (fdiv (lit 1%Q) (mean_item k2));
                      minres_residual := minres_residual (settings w0);
                      ciq_diff := ciq_diff (settings w0) |}).
Proof.
  unfold condition. intros Hrun.
  run_lift Hrun max_eig Hmax. run_lift Hrun min_eig' Hmin.
  run_emit Hrun Hs1. run_lift Hrun k2' Hk2.
  run_step Hrun s ws Hget. inversion Hget. subst ws s. clear Hget.
  run_step Hrun ub wu Hbranch.
  apply ret_Ok_inv in Hrun. destruct Hrun as [-> Hp]. inversion Hp. subst k2' min_eig'.
  exists max_eig. do 3 (split; [assumption|]).
  intros Hon. rewrite Hs1, Hon in Hbranch.
  run_emit Hbranch Hs2. run_lift Hbranch c Hc.
  apply float_div_Ok in Hc. destruct Hc as [Hz ->].
  apply set_condition_number_run in Hbranch.
  split; [exact Hz|]. rewrite Hbranch, Hs2, Hs1, Hon. reflexivity.
Qed.

(** What a run of the derivation that returns has computed, step by step:
    every intermediate value is given by its equation. *)
Lemma derive_chain (lazy_tensor : LazyTensor R) (rhs : Tensor R) (mi N : nat)
    (obs : list nat) (w w1 : World R) (wts sh : Tensor R) :
  derive lazy_tensor rhs mi N obs w = (w1, Ok (wts, sh)) ->
  exists iv approx_eigs max_eig min_eig k2 fs fw,
    init_vecs lazy_tensor rhs = Ok iv /\
    snd (approx_eigs_of lazy_tensor
           (snd (lanczos_tridiag (fun v => _matmul lazy_tensor v) iv
                   (matrix_shape lazy_tensor) (batch_shape lazy_tensor) mi))
           (logged w [EvLanczos iv mi])) = Ok approx_eigs /\
    reduce_last fmax approx_eigs = Ok max_eig /\
    reduce_last fmin approx_eigs = Ok min_eig /\
    binop fdiv min_eig max_eig = Ok k2 /\
    flat_shifts_weights N k2 min_eig = Ok (fs, fw) /\
    shape_weights_shifts N (shape k2) obs fs fw = Ok (wts, sh) /\
    (on (settings w) = true ->
     is_zero (mean_item k2) = false /\
     settings w1 = {| on := true;
                      condition_number := Some (fdiv (lit 1%Q) (mean_item k2));
                      minres_residual := minres_residual (settings w);
                      ciq_diff := ciq_diff (settings w) |}).
Proof.
  intros Hd. apply derive_Ok in Hd.
  destruct Hd as [iv [e [w0 [k2 [min_eig [fs [fw [Hiv [Heig [Hcond [Hflat Hshape]]]]]]]]]]].
  pose proof (approx_eigs_of_settings _ _ _ _ _ Heig) as Hset.
  cbn [logged settings] in Hset.
  apply condition_Ok in Hcond. destruct Hcond as [max_eig [Hmax [Hmin [Hk2 Hst]]]].
  exists iv, e, max_eig, min_eig, k2, fs, fw.
  split; [exact Hiv|]. split; [now rewrite Heig|].
  do 5 (split; [assumption|]).
  intros Hon. rewrite <- Hset in Hon. destruct (Hst Hon) as [Hz Hs1].
  split; [exact Hz|]. now rewrite Hs1, Hset.
Qed.

(** What the diagnostics of a run that returns have computed and recorded. *)
Lemma record_stats_on_Ok (lazy_tensor : LazyTensor R) (rhs ns inv : Tensor R)
    (ws : option (Tensor R)) (w1 w' : World R) :
  record_stats lazy_tensor rhs ns inv ws w1 = (w', Ok tt) ->
  on (settings w1) = true ->
  exists wt r0 n r1 r2 p0 p1 q0 q1 q2 q3 q4,
    ws = Some wt /\
    binop fadd (matmul lazy_tensor ns) rhs = Ok r0 /\
    reduce_dim_m2 norm_list true rhs = Ok n /\
    binop_ fdiv r0 (clamp_min_ n (lit (1 # 10000000000)%Q)) = Ok r1 /\
    reduce_dim_m2 norm_list false r1 = Ok r2 /\
    binop fmul ns rhs = Ok p0 /\
    reduce_dim_m2 sum_list false p0 = Ok p1 /\
    binop fmul inv wt = Ok q0 /\
    reduce_dim sum_list 0 false q0 = Ok q1 /\
    reduce_dim_m2 sum_list false (tmap (fun x => fmul x x) q1) = Ok q2 /\
    binop_ fsub q2 (tmap (fun x => fmul x (lit (-1)%Q)) p1) = Ok q3 /\
    binop_ fdiv q3 (clamp_min_ (tmap (fun x => fmul x (lit (-1)%Q)) p1)
                      (lit (1 # 100000)%Q)) = Ok q4 /\
    settings w' = {| on := true;
                     condition_number := condition_number (settings w1);
                     minres_residual := Some (mean_item r2);
                     ciq_diff := Some (mean_item (tmap fabs q4)) |}.
Proof.
  unfold record_stats. intros Hrun Hon.
  run_step Hrun s wsx Hget. inversion Hget. subst wsx s. clear Hget.
  rewrite Hon in Hrun.
  run_emit Hrun Hs1. run_lift Hrun r0 Hr0. run_lift Hrun n Hn. cbv zeta in Hrun.
  run_emit Hrun Hs2. run_lift Hrun r1 Hr1. run_lift Hrun r2 Hr2.
  run_step Hrun u1 wm Hset1. apply set_minres_residual_run in Hset1.
  run_lift Hrun p0 Hp0. run_lift Hrun p1 Hp1.
  run_step Hrun wt ww Hw.
  destruct ws as [wt'|]; [|discriminate].
  apply ret_Ok_inv in Hw. destruct Hw as [-> ->].
  run_lift Hrun q0 Hq0. run_lift Hrun q1 Hq1. run_lift Hrun q2 Hq2.
  run_lift Hrun q3 Hq3. run_emit Hrun Hs3. run_lift Hrun q4 Hq4.
  apply set_ciq_diff_run in Hrun.
  exists wt', r0, n, r1, r2, p0, p1, q0, q1, q2, q3, q4.
  do 12 (split; [assumption || reflexivity|]).
  rewrite Hrun, Hs3, Hset1, Hs2, Hs1, Hon. cbn. reflexivity.
Qed.

(** The record as the diagnostics find it, in a run that returns with the
    diagnostics on. *)
Lemma stats_before_diagnostics (lazy_tensor : LazyTensor R) (rhs : Tensor R)
    (inverse : bool) (weights shifts : option (Tensor R)) (mi N : nat)
    (w w' : World R) (sol : Tensor R) (ws : option (Tensor R)) (ns sh : Tensor R) :
  contour_integral_quad lazy_tensor rhs inverse weights shifts mi N w =
    (w', Ok (sol, ws, ns, sh)) ->
  on (settings w) = true ->
  exists inv w1,
    slice_from1 (minres (fun v => _matmul lazy_tensor v) rhs (lit (-1)%Q) sh) = Ok inv /\
    record_stats lazy_tensor rhs ns inv ws w1 = (w', Ok tt) /\
    on (settings w1) = true /\
    match shifts with
    | None =>
        exists iv approx_eigs max_eig min_eig k2,
          init_vecs lazy_tensor rhs = Ok iv /\
          snd (approx_eigs_of lazy_tensor
                 (snd (lanczos_tridiag (fun v => _matmul lazy_tensor v) iv
                         (matrix_shape lazy_tensor) (batch_shape lazy_tensor) mi))
                 (logged w [EvLanczos iv mi])) = Ok approx_eigs /\
          reduce_last fmax approx_eigs = Ok max_eig /\
          reduce_last fmin approx_eigs = Ok min_eig /\
          binop fdiv min_eig max_eig = Ok k2 /\
          is_zero (mean_item k2) = false /\
          condition_number (settings w1) = Some (fdiv (lit 1%Q) (mean_item k2))
    | Some _ => condition_number (settings w1) = condition_number (settings w)
    end.
Proof.
  intros Hrun Hon. apply contour_integral_quad_Ok in Hrun.
  destruct Hrun as [obs [w1 [inv [_ [Hsel [_ [Hsl [_ Hrec]]]]]]]].
  exists inv. eexists. split; [exact Hsl|]. split; [exact Hrec|].
  cbn [logged settings].
  destruct shifts as [s|].
  - destruct Hsel as [-> _]. now split.
  - destruct Hsel as [wts [Hd _]]. apply derive_chain in Hd.
    destruct Hd as [iv [e [max_eig [min_eig [k2 [fs [fw
      [Hiv [Heig [Hmax [Hmin [Hk2 [_ [_ Hst]]]]]]]]]]]]]].
    destruct (Hst Hon) as [Hz Hs1]. rewrite Hs1. cbn. split; [reflexivity|].
    exists iv, e, max_eig, min_eig, k2. repeat (split; [assumption|]). reflexivity.
Qed.


(** X12. With the diagnostics on, a call that returns was given or derived
    weights, leaves the flag on, and has overwritten the residual and the
    discrepancy of the record; when the shifts were derived, the condition
    number is overwritten with 1.0 / k2.mean(), where k2 is min_eig / max_eig
    of the eigenvalue estimates of this call and its mean is not zero; when
    they were supplied it is left as it was. *)
Theorem diagnostics_on_recorded (lazy_tensor : LazyTensor R) (rhs : Tensor R)
    (inverse : bool) (weights shifts : option (Tensor R)) (mi N : nat)
    (w w' : World R) (sol : Tensor R) (ws : option (Tensor R)) (ns sh : Tensor R)
    (Hrun : contour_integral_quad lazy_tensor rhs inverse weights shifts mi N w =
              (w', Ok (sol, ws, ns, sh)))
    (Hon : on (settings w) = true) :
  exists wt a b,
    ws = Some wt /\
    on (settings w') = true /\
    minres_residual (settings w') = Some a /\
    ciq_diff (settings w') = Some b /\
    match shifts with
    | None =>
        exists iv approx_eigs max_eig min_eig k2,
          init_vecs lazy_tensor rhs = Ok iv /\
          snd (approx_eigs_of lazy_tensor
                 (snd (lanczos_tridiag (fun v => _matmul lazy_tensor v) iv
                         (matrix_shape lazy_tensor) (batch_shape lazy_tensor) mi))
                 (logged w [EvLanczos iv mi])) = Ok approx_eigs /\
          reduce_last fmax approx_eigs = Ok max_eig /\
          reduce_last fmin approx_eigs = Ok min_eig /\
          binop fdiv min_eig max_eig = Ok k2 /\
          is_zero (mean_item k2) = false /\
          condition_number (settings w') = Some (fdiv (lit 1%Q) (mean_item k2))
    | Some _ => condition_number (settings w') = condition_number (settings w)
    end.
Proof.
  destruct (stats_before_diagnostics _ _ _ _ _ _ _ _ _ _ _ _ _ Hrun Hon)
    as [inv [w1 [_ [Hrec [Hon1 Hcn]]]]].
  destruct (record_stats_on_Ok _ _ _ _ _ _ _ Hrec Hon1)
    as [wt [r0 [n [r1 [r2 [p0 [p1 [q0 [q1 [q2 [q3 [q4 [Hws [_ [_ [_ [_ [_ [_ [_ [_ [_
       [_ [_ Hset]]]]]]]]]]]]]]]]]]]]]]]].
  exists wt, (mean_item r2), (mean_item (tmap fabs q4)).
  rewrite Hset. cbn [on minres_residual ciq_diff condition_number].
  repeat (split; [assumption || reflexivity|]). exact Hcn.
Qed.

End StatsOnFacts.

(** ** No quadrature node *)

Section EdgeFacts.
Context {R : Type} `{Scalar R}.

Lemma flat_shifts_weights_total (N : nat) (k2 min_eig : Tensor R) :
  wf k2 -> wf min_eig -> shape min_eig = shape k2 ->
  exists fs fw, flat_shifts_weights N k2 min_eig = Ok (fs, fw).
Proof.
  unfold wf. intros Hk Hm Hs.
  destruct (zeros_2d (N + 1) (numel k2)) as [Zs1 _].
  destruct (zeros_2d N (numel k2)) as [Zs2 _].
  unfold flat_shifts_weights.
  apply (@store_loop_total R _ N (numel k2)); [assumption | assumption|].
  rewrite length_combine, Hm, Hk. unfold numel. rewrite Hs. lia.
Qed.

Lemma view_total (t : Tensor R) (s : list nat) :
  prod_shape s = numel t -> view t s = Ok (mkTensor s (data t)).
Proof. intros Hp. unfold view. apply Nat.eqb_eq in Hp. now rewrite Hp. Qed.

(** X13. With num_contour_quadrature = 0 the loop still succeeds.  If the shape
    of [k2] is the output batch shape, the weights are an empty tensor and the
    shifts are the single zero row; if it is not, stacking the expanded
    weights, of which there are none, raises RuntimeError. *)
Theorem no_quadrature_node (k2 min_eig : Tensor R) (obs : list nat)
    (Hk : wf k2) (Hm : wf min_eig) (Hs : shape min_eig = shape k2) :
  exists fs fw,
    flat_shifts_weights 0 k2 min_eig = Ok (fs, fw) /\
    (shape k2 <> obs ->
     shape_weights_shifts 0 (shape k2) obs fs fw = Raise RuntimeError) /\
    shape_weights_shifts 0 (shape k2) (shape k2) fs fw =
      Ok (mkTensor (0 :: shape k2 ++ [1; 1]) [], zeros (1 :: shape k2)).
Proof.
  destruct (flat_shifts_weights_total 0 k2 min_eig Hk Hm Hs) as [fs [fw Hrun]].
  exists fs, fw. split; [exact Hrun|].
  destruct (flat_shifts_weights_shape _ _ _ _ _ Hrun) as [S1 [S2 [L1 [L2 Hz]]]].
  destruct fs as [sfs dfs], fw as [sfw dfw]. cbn [shape data] in *. subst sfs sfw.
  assert (Hdfw : dfw = []) by (apply length_zero_iff_nil; lia).
  subst dfw.
  assert (Hdfs : dfs = List.repeat zero (numel k2)).
  { rewrite <- (firstn_all dfs) in Hz |- * at 1.
    replace (length dfs) with (numel k2) in Hz |- * by lia.
    rewrite firstn_firstn, Nat.min_id in Hz.
    rewrite (all_zero_repeat _ Hz) at 1. rewrite length_firstn. f_equal. lia. }
  subst dfs.
  assert (Vw : view (mkTensor [0; numel k2] (@nil R)) (0 :: shape k2 ++ [1; 1]) =
               Ok (mkTensor (0 :: shape k2 ++ [1; 1]) [])).
  { apply view_total. reflexivity. }
  assert (Vs : view (mkTensor [0 + 1; numel k2] (List.repeat zero (numel k2)))
                 ((0 + 1) :: shape k2) =
               Ok (mkTensor ((0 + 1) :: shape k2) (List.repeat zero (numel k2)))).
  { apply view_total. unfold numel. cbn [shape]. rewrite prod_shape2, prod_shape_cons.
    fold (numel k2). lia. }
  unfold shape_weights_shifts. rewrite Vw, Vs. cbn [rbind]. split.
  - intros Hne. unfold shape_eqb.
    destruct (list_eq_dec Nat.eq_dec (shape k2) obs) as [Heq | _]; [contradiction|].
    reflexivity.
  - unfold shape_eqb.
    destruct (list_eq_dec Nat.eq_dec (shape k2) (shape k2)) as [_ | Hne];
      [|now contradiction Hne].
    unfold zeros. rewrite prod_shape_cons, Nat.mul_1_l. reflexivity.
Qed.

End EdgeFacts.

(** ** The Lanczos seed *)

Section SeedFacts.
Context {R : Type} `{Scalar R}.

Lemma expand_aligned_same (s : list nat) :
  forall l : list R, length l = prod_shape s -> expand_aligned s s l = Ok l.
Proof.
  induction s as [|d s IH]; intros l Hl; [reflexivity|].
  cbn [expand_aligned]. rewrite Nat.eqb_refl. rewrite prod_shape_cons in Hl.
  rewrite (rmapM_Ok_in _ (fun c => c)).
  - cbn [rbind]. rewrite map_id. f_equal. now apply concat_chunks.
  - intros c Hc. apply IH.
    pose proof (@chunks_each R d (prod_shape s) l) as He.
    rewrite Forall_forall in He. apply He; [lia | assumption].
Qed.

Lemma expand_same (t : Tensor R) : wf t -> expand t (shape t) = Ok t.
Proof.
  intros Hw. unfold expand. destruct t as [s l]. cbn [shape data].
  destruct s as [|d s]; cbn [expand_data]; rewrite Nat.eqb_refl;
    rewrite expand_aligned_same by exact Hw; reflexivity.
Qed.

Lemma last_two (pre : list nat) (n k : nat) : last (pre ++ [n; k]) 0 = k.
Proof.
  replace (pre ++ [n; k]) with ((pre ++ [n]) ++ [k]) by now rewrite <- app_assoc.
  apply last_last.
Qed.

Lemma drop_last_two (pre : list nat) (n k : nat) :
  drop_last (pre ++ [n; k]) = pre ++ [n].
Proof.
  unfold drop_last.
  replace (pre ++ [n; k]) with ((pre ++ [n]) ++ [k]) by now rewrite <- app_assoc.
  apply removelast_last.
Qed.

(** X14. When the right-hand side has the dimensions of the operator, the same
    batch and row sizes and at least one column, Lanczos is seeded with its
    first column: a tensor with one column whose rows are the first entries of
    the rows of the right-hand side. *)
Theorem lanczos_seed_is_first_column (lazy_tensor : LazyTensor R) (rhs : Tensor R)
    (pre : list nat) (n k c : nat)
    (Hrs : shape rhs = pre ++ [n; k]) (Hls : lt_shape lazy_tensor = pre ++ [n; c])
    (Hk : 1 <= k) (Hwf : wf rhs) :
  exists iv,
    init_vecs lazy_tensor rhs = Ok iv /\
    shape iv = pre ++ [n; 1] /\ wf iv /\
    forall i, i < prod_shape pre * n ->
      nth i (data iv) zero = nth (i * k) (data rhs) zero.
Proof.
  destruct rhs as [s l]. cbn [shape] in Hrs. subst s.
  unfold wf, numel in Hwf. cbn [shape data] in Hwf.
  rewrite prod_shape_app, prod_shape2 in Hwf.
  set (cols := map (firstn 1) (chunks (prod_shape (pre ++ [n])) k l)).
  assert (Hcols : Forall (fun x => length x = 1) cols).
  { apply Forall_forall. intros x Hx. apply in_map_iff in Hx.
    destruct Hx as [x0 [<- Hx0]]. rewrite length_firstn.
    pose proof (@chunks_each R (prod_shape (pre ++ [n])) k l) as He.
    rewrite Forall_forall in He. rewrite He; [lia | | assumption].
    rewrite prod_shape_app. unfold prod_shape at 2. simpl. nia. }
  assert (Hcount : length cols = prod_shape pre * n).
  { unfold cols. rewrite length_map, chunks_length, prod_shape_app.
    unfold prod_shape at 2. simpl. lia. }
  assert (Hfc : first_col (mkTensor (pre ++ [n; k]) l) =
                Ok (mkTensor (pre ++ [n; 1]) (concat cols))).
  { unfold first_col, dim. cbn [shape data].
    rewrite length_app. simpl length.
    replace (length pre + 2 <? 2) with false by (symmetry; apply Nat.ltb_ge; lia).
    rewrite last_two, drop_last_two.
    replace (Nat.min 1 k) with 1 by lia.
    now rewrite <- app_assoc. }
  assert (Hwfc : wf (mkTensor (pre ++ [n; 1]) (concat cols))).
  { unfold wf, numel. cbn [shape data].
    rewrite (length_concat_each _ _ Hcols), prod_shape_app, prod_shape2. lia. }
  exists (mkTensor (pre ++ [n; 1]) (concat cols)).
  split.
  - unfold init_vecs, dim. cbn [shape]. rewrite Hls, !length_app. simpl length.
    rewrite Nat.sub_diag. cbn [index0_n rbind]. rewrite Hfc. cbn [rbind].
    rewrite drop_last_two, <- app_assoc. cbn [app].
    exact (expand_same _ Hwfc).
  - split; [reflexivity|]. split; [exact Hwfc|].
    intros i Hi. cbn [data].
    replace i with (i * 1 + 0) at 1 by lia.
    rewrite (nth_concat_uniform 1 zero cols Hcols) by lia.
    unfold cols.
    rewrite nth_indep with (d' := firstn 1 []) by (now rewrite <- Hcount in Hi).
    rewrite map_nth.
    rewrite nth_chunks
      by (rewrite prod_shape_app; unfold prod_shape at 2; simpl; lia).
    rewrite firstn_firstn. replace (Nat.min 1 k) with 1 by lia.
    rewrite nth_firstn_skipn by lia. f_equal. lia.
Qed.

End SeedFacts.

(** ** Indexing a batch of matrices *)

Section BatchIndexFacts.
Context {R : Type} `{Scalar R}.
Import NonLazy NonLazyMethods.

Lemma stretch_length (len : nat) (l : list Z) : length (stretch len l) = len.
Proof.
  unfold stretch. destruct (length l =? len) eqn:E.
  - now apply Nat.eqb_eq in E.
  - apply repeat_length.
Qed.

Lemma stretch_one (len : nat) (k : Z) : stretch len [k] = List.repeat k len.
Proof.
  unfold stretch. cbn [length hd].
  destruct (1 =? len) eqn:E; [|reflexivity].
  apply Nat.eqb_eq in E. now subst.
Qed.

Lemma broadcast_len_one (lens : list nat) :
  broadcast_len (1 :: lens) = broadcast_len lens.
Proof. reflexivity. Qed.

Lemma broadcast_len_same3 (k : nat) : broadcast_len [k; k; k] = Ok k.
Proof.
  unfold broadcast_len. cbn [filter].
  destruct (k =? 1) eqn:Ek; cbn [negb forallb andb].
  - apply Nat.eqb_eq in Ek. now subst.
  - now rewrite Nat.eqb_refl.
Qed.

Lemma rmapM_constant_first {A B C} (k : Z) (f : Z * A * B -> result C)
    (g : A * B -> result C) (len : nat) (la : list A) (lb : list B) :
  length la <= len ->
  (forall a b, f (k, a, b) = g (a, b)) ->
  rmapM f (combine (combine (List.repeat k len) la) lb) = rmapM g (combine la lb).
Proof.
  intros Hlen Hfg. revert len lb Hlen.
  induction la as [|a la IH]; intros len lb Hlen.
  - destruct len; reflexivity.
  - destruct len as [|len]; [simpl in Hlen; lia|].
    destruct lb as [|b lb]; [reflexivity|].
    cbn [List.repeat combine rmapM]. rewrite Hfg, IH by (simpl in Hlen; lia).
    reflexivity.
Qed.

Lemma block_in_block (s a c o : nat) (l : list R) :
  a + s <= c ->
  firstn s (skipn a (firstn c (skipn o l))) = firstn s (skipn (o + a) l).
Proof.
  intros Hle. rewrite skipn_firstn_comm, firstn_firstn, skipn_skipn.
  rewrite Nat.min_l by lia. now rewrite Nat.add_comm.
Qed.

Lemma exists_in_combine3 (P Q S : Z -> Prop) (la lb lc : list Z) :
  length la = length lb -> length lb = length lc ->
  Exists P la \/ Exists Q lb \/ Exists S lc ->
  exists p, In p (combine (combine la lb) lc) /\
            (P (fst (fst p)) \/ Q (snd (fst p)) \/ S (snd p)).
Proof.
  revert lb lc; induction la as [|a la IH]; intros [|b lb] [|c lc] Hab Hbc Hex;
    simpl in Hab, Hbc; try discriminate.
  - destruct Hex as [Hex | [Hex | Hex]]; inversion Hex.
  - assert (Hcase : (P a \/ Q b \/ S c) \/
                    (Exists P la \/ Exists Q lb \/ Exists S lc)).
    { destruct Hex as [Hex | [Hex | Hex]]; inversion Hex; subst; tauto. }
    destruct Hcase as [Hhere | Hlater].
    + exists (a, b, c). split; [now left | exact Hhere].
    + destruct (IH lb lc) as [p [Hin Hp]]; [lia | lia | assumption|].
      exists p. split; [now right | exact Hp].
Qed.

(** X15. Indexing a batch of matrices with one batch index that is within bounds
    is indexing that matrix of the batch: same entries, same errors. *)
Theorem batch_get_indices_single_batch (v : Tensor R) (b m n : nat) (k : Z)
    (left_indices right_indices : list Z)
    (Hs : shape v = [b; m; n]) (Hwf : wf v)
    (Hk : (- Z.of_nat b <= k < Z.of_nat b)%Z) :
  _batch_get_indices (__init__ v) [k] left_indices right_indices =
  _get_indices
    (__init__ (mkTensor [m; n] (block_at v (Z.to_nat (k mod Z.of_nat b)) (m * n))))
    left_indices right_indices.
Proof.
  destruct v as [s l]. cbn [shape] in Hs. subst s.
  unfold wf, numel in Hwf. cbn [shape data] in Hwf.
  unfold _batch_get_indices, _get_indices, index_triples, index_pairs.
  cbn [var shape data length]. rewrite broadcast_len_one.
  destruct (broadcast_len [length left_indices; length right_indices])
    as [len|e]; cbn [rbind]; [|reflexivity].
  rewrite stretch_one.
  rewrite (rmapM_constant_first k _
             (fun p => rbind (wrap_index m (fst p)) (fun i =>
                       rbind (wrap_index n (snd p)) (fun j =>
                       Ok (block_at
                             (mkTensor [m; n]
                                (block_at (mkTensor [b; m; n] l)
                                   (Z.to_nat (k mod Z.of_nat b)) (m * n)))
                             (i * n + j) (prod_shape [])))))).
  - reflexivity.
  - now rewrite stretch_length.
  - intros i j. cbn [fst snd].
    rewrite (wrap_index_in_range b k Hk). cbn [rbind].
    destruct (wrap_index_cases m i) as [-> | [i' [-> Hi]]]; cbn [rbind]; [reflexivity|].
    destruct (wrap_index_cases n j) as [-> | [j' [-> Hj]]]; cbn [rbind]; [reflexivity|].
    f_equal. unfold block_at. cbn [data prod_shape fold_right].
    rewrite block_in_block by nia.
    f_equal. f_equal. lia.
Qed.

(** X16. With as many batch, left and right indices, one index outside the bounds
    of its dimension makes [_batch_get_indices] raise IndexError. *)
Theorem batch_get_indices_out_of_range (v : Tensor R) (b m n : nat)
    (batch_indices left_indices right_indices : list Z)
    (Hs : shape v = [b; m; n])
    (Hbl : length batch_indices = length left_indices)
    (Hlr : length left_indices = length right_indices)
    (Hbad :
       Exists (fun k => (k < - Z.of_nat b \/ Z.of_nat b <= k)%Z) batch_indices \/
       Exists (fun i => (i < - Z.of_nat m \/ Z.of_nat m <= i)%Z) left_indices \/
       Exists (fun j => (j < - Z.of_nat n \/ Z.of_nat n <= j)%Z) right_indices) :
  _batch_get_indices (__init__ v) batch_indices left_indices right_indices =
    Raise IndexError.
Proof.
  destruct (exists_in_combine3 _ _ _ _ _ _ Hbl Hlr Hbad) as [[[k i] j] [Hin Hp]].
  cbn [fst snd] in Hp.
  unfold _batch_get_indices, index_triples. cbn [var]. rewrite Hs.
  rewrite <- Hlr, <- Hbl, broadcast_len_same3. cbn [rbind].
  rewrite stretch_same. rewrite Hbl at 1. rewrite stretch_same.
  rewrite Hbl, Hlr at 1. rewrite stretch_same.
  rewrite (rmapM_Raise_in _ IndexError); [reflexivity | |].
  - intros [[k0 i0] j0] _. cbn [fst snd].
    destruct (wrap_index_cases b k0) as [-> | [k' [-> _]]]; cbn [rbind]; [now left|].
    destruct (wrap_index_cases m i0) as [-> | [i' [-> _]]]; cbn [rbind]; [now left|].
    destruct (wrap_index_cases n j0) as [-> | [j' [-> _]]]; cbn [rbind]; [now left|].
    right. eauto.
  - exists (k, i, j). split; [assumption|]. cbn [fst snd].
    destruct Hp as [Hp | [Hp | Hp]].
    + now rewrite (wrap_index_out_of_range b k Hp).
    + rewrite (wrap_index_out_of_range m i Hp).
      destruct (wrap_index_cases b k) as [-> | [k' [-> _]]]; reflexivity.
    + rewrite (wrap_index_out_of_range n j Hp).
      destruct (wrap_index_cases b k) as [-> | [k' [-> _]]]; cbn [rbind];
        [reflexivity|].
      destruct (wrap_index_cases m i) as [-> | [i' [-> _]]]; reflexivity.
Qed.

End BatchIndexFacts.

(** ** The derived shifts and weights of a call *)

Section DerivedFacts.
Context {R : Type} `{Scalar R} `{Collaborators R}.
Local Open Scope ciq_scope.

Lemma map2_length (f : R -> R -> R) (l1 l2 : list R) :
  length l1 = length l2 -> length (map2 f l1 l2) = length l1.
Proof.
  revert l2; induction l1 as [|x l1 IH]; intros [|y l2] Hl; simpl in *;
    try reflexivity; try discriminate.
  f_equal. apply IH. lia.
Qed.

Lemma broadcast_aligned_same (s : list nat) : broadcast_aligned s s = Ok s.
Proof.
  induction s as [|a s IH]; [reflexivity|].
  cbn [broadcast_aligned]. rewrite IH. cbn [rbind]. now rewrite Nat.eqb_refl.
Qed.

Lemma broadcast_shapes_same (s : list nat) : broadcast_shapes s s = Ok s.
Proof.
  unfold broadcast_shapes, pad_shape. rewrite Nat.max_id, Nat.sub_diag.
  cbn [repeat app]. apply broadcast_aligned_same.
Qed.

(** a reduction of the last dimension of a well-formed tensor *)
Lemma reduce_last_wf (f : R -> R -> R) (t t' : Tensor R) :
  reduce_last f t = Ok t' -> wf t -> wf t' /\ shape t' = drop_last (shape t).
Proof.
  unfold reduce_last. intros Hr Hw.
  destruct (shape t) as [|d s] eqn:Es.
  - inversion Hr. subst t'. rewrite Es. now split.
  - destruct (last (d :: s) 0 =? 0); [discriminate|].
    inversion Hr. cbn [shape]. split; [|reflexivity].
    unfold wf, numel. cbn [shape data].
    now rewrite length_map, chunks_length.
Qed.

(** an operator on two well-formed tensors of one shape *)
Lemma binop_same_shape (f : R -> R -> R) (a b c : Tensor R) :
  binop f a b = Ok c -> shape a = shape b -> wf a -> wf b ->
  shape c = shape a /\ wf c.
Proof.
  unfold binop. intros Hb Hs Ha Hbw.
  rewrite <- Hs, broadcast_shapes_same in Hb. cbn [rbind] in Hb.
  rewrite (expand_same a Ha) in Hb. cbn [rbind] in Hb.
  rewrite Hs, (expand_same b Hbw) in Hb. cbn [rbind] in Hb.
  inversion Hb. cbn [shape]. split; [now symmetry|].
  unfold wf, numel in *. cbn [shape data].
  rewrite map2_length; [now rewrite Ha, Hs | now rewrite Ha, Hbw, Hs].
Qed.

(** lines 100-106 when the shape of [k2] is the output batch shape: views *)
Lemma shape_weights_shifts_same (N : nat) (s : list nat) (fs fw wts sh : Tensor R) :
  shape_weights_shifts N s s fs fw = Ok (wts, sh) ->
  wts = mkTensor (N :: s ++ [1; 1]) (data fw) /\ sh = mkTensor ((N + 1) :: s) (data fs).
Proof.
  unfold shape_weights_shifts. intros Hrun.
  destruct (view fw (N :: s ++ [1; 1])) as [weights|e] eqn:Ew;
    cbn [rbind] in Hrun; [|discriminate].
  destruct (view fs ((N + 1) :: s)) as [shifts|e] eqn:Es;
    cbn [rbind] in Hrun; [|discriminate].
  apply view_Ok in Ew. destruct Ew as [-> _].
  apply view_Ok in Es. destruct Es as [-> _].
  unfold shape_eqb in Hrun.
  destruct (list_eq_dec Nat.eq_dec s s) as [_ | Hne]; [|now contradiction Hne].
  inversion Hrun. now split.
Qed.

(** C2. In a call that derives the shifts and returns, let [approx_eigs] be
    the eigenvalue estimates of this call (those of the Lanczos matrix of the
    seed, or the diagonal), well-formed; min_eig and max_eig are their
    minimum and maximum over the last dimension and k2 = min_eig / max_eig.
    Then the loop has stored, for every batch element [i] and every contour
    node [j], at row [1 + j], column [i] of the flat shifts the real part of
    the square of sqrt(min_eig) times the transformed sn at the [j]-th
    contour point, and at row [j], column [i] of the flat weights cn * dn at
    that point times -2 * Kp * sqrt(min_eig) / (pi * N), Kp = ellipk(1 - k2);
    the shifts and weights that the call uses and returns are these flat
    tensors, viewed in the shape of k2 and expanded to the output batch shape
    by lines 100-106: the very same elements when the two shapes agree. *)
Theorem derived_shifts_weights_formulas (lazy_tensor : LazyTensor R) (rhs : Tensor R)
    (inverse : bool) (weights : option (Tensor R)) (mi N : nat)
    (w w' : World R) (sol : Tensor R) (ws : option (Tensor R)) (ns sh : Tensor R)
    (iv approx_eigs : Tensor R)
    (Hrun : contour_integral_quad lazy_tensor rhs inverse weights None mi N w =
              (w', Ok (sol, ws, ns, sh)))
    (Hiv : init_vecs lazy_tensor rhs = Ok iv)
    (Heig : snd (approx_eigs_of lazy_tensor
                   (snd (lanczos_tridiag (fun v => _matmul lazy_tensor v) iv
                           (matrix_shape lazy_tensor) (batch_shape lazy_tensor) mi))
                   (logged w [EvLanczos iv mi])) = Ok approx_eigs)
    (Hwf : wf approx_eigs) :
  exists obs max_eig min_eig k2 fs fw wts,
    _mul_broadcast_shape (batch_shape lazy_tensor) (drop_last2 (shape rhs)) = Ok obs /\
    reduce_last fmax approx_eigs = Ok max_eig /\
    reduce_last fmin approx_eigs = Ok min_eig /\
    binop fdiv min_eig max_eig = Ok k2 /\
    flat_shifts_weights N k2 min_eig = Ok (fs, fw) /\
    shape fs = [N + 1; numel k2] /\ shape fw = [N; numel k2] /\
    (forall i j, i < numel k2 -> j < N ->
       nth ((1 + j) * numel k2 + i) (data fs) zero =
         shift_formula N (nth i (data k2) zero) (nth i (data min_eig) zero) j /\
       nth (j * numel k2 + i) (data fw) zero =
         weight_formula N (nth i (data k2) zero) (nth i (data min_eig) zero) j) /\
    shape_weights_shifts N (shape k2) obs fs fw = Ok (wts, sh) /\
    ws = Some wts /\
    (shape k2 = obs -> data sh = data fs /\ data wts = data fw).
Proof.
  apply contour_integral_quad_Ok in Hrun.
  destruct Hrun as [obs [w1 [inv [Hobs [[wts [Hd ->]] _]]]]].
  apply derive_chain in Hd.
  destruct Hd as [iv' [e [max_eig [min_eig [k2 [fs [fw
    [Hiv' [Heig' [Hmax [Hmin [Hk2 [Hflat [Hshape _]]]]]]]]]]]]]].
  rewrite Hiv in Hiv'. injection Hiv' as <-.
  rewrite Heig in Heig'. injection Heig' as <-.
  destruct (reduce_last_wf _ _ _ Hmax Hwf) as [Wmax Smax].
  destruct (reduce_last_wf _ _ _ Hmin Hwf) as [Wmin Smin].
  assert (Hsame : shape min_eig = shape max_eig) by now rewrite Smin, Smax.
  destruct (binop_same_shape _ _ _ _ Hk2 Hsame Wmin Wmax) as [Sk2 Wk2].
  destruct (flat_shifts_weights_formulas N k2 min_eig Wk2 Wmin (eq_sym Sk2))
    as [fs' [fw' [Hflat' [S1 [S2 Hform]]]]].
  rewrite Hflat in Hflat'. injection Hflat' as <- <-.
  exists obs, max_eig, min_eig, k2, fs, fw, wts.
  do 9 (split; [assumption || reflexivity|]).
  split; [reflexivity|].
  intros Heq. rewrite Heq in Hshape.
  apply shape_weights_shifts_same in Hshape. destruct Hshape as [-> ->]. now split.
Qed.

(** C8. In a call that derives the shifts and returns, with k2 = min_eig /
    max_eig of the eigenvalue estimates of this call and the flat shifts and
    weights the loop has stored for it: the weights and shifts handed to the
    solver, once, and returned have the output batch shape; when the shape of
    k2 differs from it they are, slice by slice along dimension 0, the slices
    of the flat tensors in the shape of k2, each expanded to the output batch
    shape; when it does not they are the flat tensors viewed in that shape. *)
Theorem derived_expanded_to_output_batch (lazy_tensor : LazyTensor R)
    (rhs : Tensor R) (inverse : bool) (weights : option (Tensor R)) (mi N : nat)
    (w w' : World R) (sol : Tensor R) (ws : option (Tensor R)) (ns sh : Tensor R)
    (Hrun : contour_integral_quad lazy_tensor rhs inverse weights None mi N w =
              (w', Ok (sol, ws, ns, sh))) :
  exists obs iv approx_eigs max_eig min_eig k2 fs fw wts,
    _mul_broadcast_shape (batch_shape lazy_tensor) (drop_last2 (shape rhs)) = Ok obs /\
    init_vecs lazy_tensor rhs = Ok iv /\
    snd (approx_eigs_of lazy_tensor
           (snd (lanczos_tridiag (fun v => _matmul lazy_tensor v) iv
                   (matrix_shape lazy_tensor) (batch_shape lazy_tensor) mi))
           (logged w [EvLanczos iv mi])) = Ok approx_eigs /\
    reduce_last fmax approx_eigs = Ok max_eig /\
    reduce_last fmin approx_eigs = Ok min_eig /\
    binop fdiv min_eig max_eig = Ok k2 /\
    flat_shifts_weights N k2 min_eig = Ok (fs, fw) /\
    ws = Some wts /\
    shape sh = (N + 1) :: obs /\ shape wts = N :: obs ++ [1; 1] /\
    (shape k2 <> obs ->
     exists srows wrows,
       rmapM (fun s => expand s obs)
         (map (mkTensor (shape k2)) (chunks (N + 1) (numel k2) (data fs))) = Ok srows /\
       unbind sh = Ok srows /\
       rmapM (fun x => expand x (obs ++ [1; 1]))
         (map (mkTensor (shape k2 ++ [1; 1])) (chunks N (numel k2) (data fw))) = Ok wrows /\
       unbind wts = Ok wrows) /\
    (shape k2 = obs ->
     sh = mkTensor ((N + 1) :: obs) (data fs) /\
     wts = mkTensor (N :: obs ++ [1; 1]) (data fw)) /\
    exists evs, trace w' = trace w ++ evs /\ minres_shifts evs = [sh].
Proof.
  pose proof (contour_integral_quad_trace _ _ _ _ _ _ _ _ _ _ _ _ _ Hrun) as Htr.
  apply contour_integral_quad_Ok in Hrun.
  destruct Hrun as [obs [w1 [inv [Hobs [[wts [Hd ->]] _]]]]].
  apply derive_chain in Hd.
  destruct Hd as [iv [e [max_eig [min_eig [k2 [fs [fw
    [Hiv [Heig [Hmax [Hmin [Hk2 [Hflat [Hshape _]]]]]]]]]]]]]].
  destruct (flat_shifts_weights_shape _ _ _ _ _ Hflat) as [S1 [S2 [L1 [L2 Hz]]]].
  destruct (shape_weights_shifts_spec _ _ _ _ _ _ _ S1 S2 L1 L2 Hz Hshape)
    as [A [B [_ [_ [_ Hrows]]]]].
  exists obs, iv, e, max_eig, min_eig, k2, fs, fw, wts.
  do 10 (split; [assumption || reflexivity|]).
  split; [exact Hrows|]. split.
  - intros Heq. rewrite Heq in Hshape.
    apply shape_weights_shifts_same in Hshape. destruct Hshape as [-> ->]. now split.
  - destruct Htr as [ed [eg [inv' [Ht [Fd [_ [Fg _]]]]]]].
    eexists. split; [exact Ht|].
    destruct (derivation_no_solve _ Fd) as [_ Hd].
    destruct (diagnostic_no_solve _ Fg) as [_ Hg].
    rewrite !minres_shifts_app, Hd, Hg.
    destruct inverse; reflexivity.
Qed.

(** X17. With the diagnostics on and no shifts given, when the mean of
    k2 = min_eig / max_eig of this call's eigenvalue estimates is zero, the
    call raises ZeroDivisionError at the condition number: the record is as it
    was and the solver has not been called. *)
Theorem zero_mean_raises (lazy_tensor : LazyTensor R) (rhs : Tensor R)
    (inverse : bool) (weights : option (Tensor R)) (mi N : nat) (w : World R)
    (obs : list nat) (iv approx_eigs max_eig min_eig k2 : Tensor R)
    (Hobs : _mul_broadcast_shape (batch_shape lazy_tensor) (drop_last2 (shape rhs))
              = Ok obs)
    (Hiv : init_vecs lazy_tensor rhs = Ok iv)
    (Heig : snd (approx_eigs_of lazy_tensor
                   (snd (lanczos_tridiag (fun v => _matmul lazy_tensor v) iv
                           (matrix_shape lazy_tensor) (batch_shape lazy_tensor) mi))
                   (logged w [EvLanczos iv mi])) = Ok approx_eigs)
    (Hmax : reduce_last fmax approx_eigs = Ok max_eig)
    (Hmin : reduce_last fmin approx_eigs = Ok min_eig)
    (Hk2 : binop fdiv min_eig max_eig = Ok k2)
    (Hon : on (settings w) = true)
    (Hz : is_zero (mean_item k2) = true) :
  exists w',
    contour_integral_quad lazy_tensor rhs inverse weights None mi N w =
      (w', Raise ZeroDivisionError) /\
    settings w' = settings w /\
    minres_shifts (trace w') = minres_shifts (trace w).
Proof.
  destruct (approx_eigs_of lazy_tensor
              (snd (lanczos_tridiag (fun v => _matmul lazy_tensor v) iv
                      (matrix_shape lazy_tensor) (batch_shape lazy_tensor) mi))
              (logged w [EvLanczos iv mi])) as [w0 r] eqn:Ea.
  cbn [snd] in Heig. subst r.
  pose proof (approx_eigs_of_settings _ _ _ _ _ Ea) as Hset.
  destruct (approx_eigs_of_events _ _ _ _ _ Ea) as [evs [Htr Fev]].
  cbn [logged settings trace] in Hset, Htr.
  unfold contour_integral_quad, derive, contour_from_eigs, condition.
  unfold bind at 1. unfold lift at 1. rewrite Hobs.
  unfold bind at 1. unfold bind at 1. unfold bind at 1. unfold lift at 1. rewrite Hiv.
  unfold bind at 1. unfold emit at 1.
  change {| settings := settings w; trace := trace w ++ [EvLanczos iv mi] |}
    with (logged w [EvLanczos iv mi]).
  destruct (lanczos_tridiag (fun v => _matmul lazy_tensor v) iv
              (matrix_shape lazy_tensor) (batch_shape lazy_tensor) mi)
    as [basis mat] eqn:El.
  cbn [snd] in Ea.
  unfold bind at 1. rewrite Ea.
  unfold bind, lift, emit, get_stats, ret. rewrite Hmax, Hmin. cbn [settings trace].
  rewrite Hk2. cbn [settings trace]. rewrite Hset, Hon.
  unfold float_div. rewrite Hz.
  eexists. split; [reflexivity|]. cbn [settings trace].
  split; [reflexivity|].
  destruct (derivation_no_solve _ Fev) as [_ He].
  rewrite Htr, <- !app_assoc, !minres_shifts_app, He.
  cbn. now rewrite app_nil_r.
Qed.

End DerivedFacts.

(** ** More concrete runs *)

Section MoreRuns.
Import Toy NonLazy.

Lemma transpose_nonbatch_size_run :
  wf (var (__init__ m23)) /\
  ((dim (var (__init__ m23)) < 2 /\
    _transpose_nonbatch (__init__ m23) = Raise IndexError) \/
   (exists pre m n t,
       size (__init__ m23) = pre ++ [m; n] /\
       _transpose_nonbatch (__init__ m23) = Ok t /\
       size t = pre ++ [n; m] /\ wf (var t))).
Proof.
  assert (Hwf : wf (var (__init__ m23))) by reflexivity.
  split; [exact Hwf|].
  exact (transpose_nonbatch_size (__init__ m23) Hwf).
Defined.

Lemma get_indices_of_transposed_run :
  shape m23 = [2; 3] /\ wf m23 /\
  rbind (_transpose_nonbatch (__init__ m23))
        (fun t => NonLazyMethods._get_indices t [2%Z; (-1)%Z; 7%Z] [0%Z; 1%Z; 0%Z]) =
  NonLazyMethods._get_indices (__init__ m23) [0%Z; 1%Z; 0%Z] [2%Z; (-1)%Z; 7%Z].
Proof.
  assert (Hs : shape m23 = [2; 3]) by reflexivity.
  assert (Hwf : wf m23) by reflexivity.
  split; [exact Hs|]. split; [exact Hwf|].
  exact (get_indices_of_transposed m23 2 3 [0%Z; 1%Z; 0%Z] [2%Z; (-1)%Z; 7%Z] Hs Hwf).
Defined.

Lemma diag_is_get_indices_run :
  shape m23 = [2; 3] /\ wf m23 /\
  NonLazyMethods.diag (__init__ m23) =
  NonLazyMethods._get_indices (__init__ m23) (arange (Nat.min 2 3)) (arange (Nat.min 2 3)).
Proof.
  assert (Hs : shape m23 = [2; 3]) by reflexivity.
  assert (Hwf : wf m23) by reflexivity.
  split; [exact Hs|]. split; [exact Hwf|].
  exact (diag_is_get_indices m23 2 3 Hs Hwf).
Defined.

Lemma diag_of_transposed_run :
  shape m23 = [2; 3] /\ wf m23 /\
  rbind (_transpose_nonbatch (__init__ m23)) NonLazyMethods.diag =
  NonLazyMethods.diag (__init__ m23).
Proof.
  assert (Hs : shape m23 = [2; 3]) by reflexivity.
  assert (Hwf : wf m23) by reflexivity.
  split; [exact Hs|]. split; [exact Hwf|].
  exact (diag_of_transposed m23 2 3 Hs Hwf).
Defined.

Lemma diag_of_vector_round_trip_run :
  let v := mkTensor [3] [1%Q; 2%Q; 3%Q] in
  shape v = [3] /\ wf v /\
  exists d,
    NonLazyMethods.diag (__init__ v) = Ok d /\ shape d = [3; 3] /\ wf d /\
    NonLazyMethods.diag (__init__ d) = Ok v.
Proof.
  intros v.
  assert (Hs : shape v = [3]) by reflexivity.
  assert (Hwf : wf v) by reflexivity.
  split; [exact Hs|]. split; [exact Hwf|].
  exact (diag_of_vector_round_trip v 3 Hs Hwf).
Defined.

Lemma get_indices_in_range_run :
  shape m23 = [2; 3] /\ wf m23 /\
  length [0%Z; (-1)%Z] = length [2%Z; (-3)%Z] /\
  Forall (fun i => (- Z.of_nat 2 <= i < Z.of_nat 2)%Z) [0%Z; (-1)%Z] /\
  Forall (fun j => (- Z.of_nat 3 <= j < Z.of_nat 3)%Z) [2%Z; (-3)%Z] /\
  NonLazyMethods._get_indices (__init__ m23) [0%Z; (-1)%Z] [2%Z; (-3)%Z] =
    Ok (mkTensor [length [0%Z; (-1)%Z]]
          (map (fun p => nth (Z.to_nat (fst p mod Z.of_nat 2) * 3 +
                              Z.to_nat (snd p mod Z.of_nat 3)) (data m23) zero)
               (combine [0%Z; (-1)%Z] [2%Z; (-3)%Z]))).
Proof.
  assert (Hs : shape m23 = [2; 3]) by reflexivity.
  assert (Hwf : wf m23) by reflexivity.
  assert (Hlen : length [0%Z; (-1)%Z] = length [2%Z; (-3)%Z]) by reflexivity.
  assert (Hl : Forall (fun i => (- Z.of_nat 2 <= i < Z.of_nat 2)%Z) [0%Z; (-1)%Z])
    by (repeat constructor; simpl; lia).
  assert (Hr : Forall (fun j => (- Z.of_nat 3 <= j < Z.of_nat 3)%Z) [2%Z; (-3)%Z])
    by (repeat constructor; simpl; lia).
  repeat (split; [assumption|]).
  exact (get_indices_in_range m23 2 3 _ _ Hs Hwf Hlen Hl Hr).
Defined.

Lemma get_indices_out_of_range_run :
  shape m23 = [2; 3] /\
  length [0%Z; 2%Z] = length [1%Z; 1%Z] /\
  (Exists (fun i => (i < - Z.of_nat 2 \/ Z.of_nat 2 <= i)%Z) [0%Z; 2%Z] \/
   Exists (fun j => (j < - Z.of_nat 3 \/ Z.of_nat 3 <= j)%Z) [1%Z; 1%Z]) /\
  NonLazyMethods._get_indices (__init__ m23) [0%Z; 2%Z] [1%Z; 1%Z] = Raise IndexError.
Proof.
  assert (Hs : shape m23 = [2; 3]) by reflexivity.
  assert (Hlen : length [0%Z; 2%Z] = length [1%Z; 1%Z]) by reflexivity.
  assert (Hbad :
    Exists (fun i => (i < - Z.of_nat 2 \/ Z.of_nat 2 <= i)%Z) [0%Z; 2%Z] \/
    Exists (fun j => (j < - Z.of_nat 3 \/ Z.of_nat 3 <= j)%Z) [1%Z; 1%Z]).
  { left. apply Exists_cons_tl. apply Exists_cons_hd. simpl. lia. }
  repeat (split; [assumption|]).
  exact (get_indices_out_of_range m23 2 3 _ _ Hs Hlen Hbad).
Defined.

Lemma repeat_size_run :
  wf m23 /\
  (([2; 1; 2] = [] /\
    NonLazyMethods.repeat (__init__ m23) [2; 1; 2] = Raise TypeError) \/
   ([2; 1; 2] <> [] /\ length [2; 1; 2] < dim m23 /\
    NonLazyMethods.repeat (__init__ m23) [2; 1; 2] = Raise RuntimeError) \/
   ([2; 1; 2] <> [] /\ dim m23 <= length [2; 1; 2] /\
    exists t,
      NonLazyMethods.repeat (__init__ m23) [2; 1; 2] = Ok t /\
      size t = map (fun p => fst p * snd p)
                   (combine [2; 1; 2] (pad_shape (length [2; 1; 2]) (shape m23))) /\
      wf (var t))).
Proof.
  assert (Hwf : wf m23) by reflexivity.
  split; [exact Hwf|].
  exact (repeat_size m23 [2; 1; 2] Hwf).
Defined.

Lemma repeat_once_is_identity_run :
  wf m23 /\
  ((dim m23 = 0 /\
    NonLazyMethods.repeat (__init__ m23) (List.repeat 1 (dim m23)) = Raise TypeError) \/
   (1 <= dim m23 /\
    exists t,
      NonLazyMethods.repeat (__init__ m23) (List.repeat 1 (dim m23)) = Ok t /\
      evaluate t = m23)).
Proof.
  assert (Hwf : wf m23) by reflexivity.
  split; [exact Hwf|].
  exact (repeat_once_is_identity m23 Hwf).
Defined.

Lemma diagnostics_off_untouched_run :
  exists w' r,
    contour_integral_quad (K1 4) b1 false None None 7 2 world_off = (w', r) /\
    on (settings world_off) = false /\
    settings w' = settings world_off /\
    exists evs, trace w' = trace world_off ++ evs /\
                Forall (fun e => is_stats_event e = false) evs.
Proof.
  do 2 eexists. split; [vm_compute; reflexivity|].
  assert (Hoff : on (settings world_off) = false) by reflexivity.
  split; [exact Hoff|].
  eapply (diagnostics_off_untouched (K1 4) b1 false None None 7 2 world_off);
    [vm_compute; reflexivity | exact Hoff].
Defined.

Lemma diagnostics_on_recorded_run :
  exists w' sol ws ns sh,
    contour_integral_quad (K1 4) b1 false None None 7 2 world_on =
      (w', Ok (sol, ws, ns, sh)) /\
    on (settings world_on) = true /\
    exists wt a b,
      ws = Some wt /\
      on (settings w') = true /\
      minres_residual (settings w') = Some a /\
      ciq_diff (settings w') = Some b /\
      exists iv approx_eigs max_eig min_eig k2,
        init_vecs (K1 4) b1 = Ok iv /\
        snd (approx_eigs_of (K1 4)
               (snd (lanczos_tridiag (fun v => _matmul (K1 4) v) iv
                       (matrix_shape (K1 4)) (batch_shape (K1 4)) 7))
               (logged world_on [EvLanczos iv 7])) = Ok approx_eigs /\
        reduce_last fmax approx_eigs = Ok max_eig /\
        reduce_last fmin approx_eigs = Ok min_eig /\
        binop fdiv min_eig max_eig = Ok k2 /\
        is_zero (mean_item k2) = false /\
        condition_number (settings w') = Some (fdiv (lit 1%Q) (mean_item k2)).
Proof.
  do 5 eexists. split; [vm_compute; reflexivity|].
  assert (Hon : on (settings world_on) = true) by reflexivity.
  split; [exact Hon|].
  eapply (diagnostics_on_recorded (K1 4) b1 false None None 7 2 world_on);
    [vm_compute; reflexivity | exact Hon].
Defined.

Lemma no_quadrature_node_run :
  let k2 := mkTensor [2] [(1 # 4)%Q; 1%Q] in
  let min_eig := mkTensor [2] [1%Q; 4%Q] in
  wf k2 /\ wf min_eig /\ shape min_eig = shape k2 /\
  exists fs fw,
    flat_shifts_weights 0 k2 min_eig = Ok (fs, fw) /\
    (shape k2 <> [3; 2] ->
     shape_weights_shifts 0 (shape k2) [3; 2] fs fw = Raise RuntimeError) /\
    shape_weights_shifts 0 (shape k2) (shape k2) fs fw =
      Ok (mkTensor (0 :: shape k2 ++ [1; 1]) [], zeros (1 :: shape k2)).
Proof.
  intros k2 min_eig.
  assert (Hk : wf k2) by reflexivity.
  assert (Hm : wf min_eig) by reflexivity.
  assert (Hs : shape min_eig = shape k2) by reflexivity.
  split; [exact Hk|]. split; [exact Hm|]. split; [exact Hs|].
  exact (no_quadrature_node k2 min_eig [3; 2] Hk Hm Hs).
Defined.

Lemma lanczos_seed_is_first_column_run :
  let K := {| lt_shape := [2; 2];
              _matmul := fun v : Tensor Q => v;
              diag := mkTensor [2] [1%Q; 1%Q];
              matmul := fun v : Tensor Q => v |} in
  shape m23 = [] ++ [2; 3] /\ lt_shape K = [] ++ [2; 2] /\ 1 <= 3 /\ wf m23 /\
  exists iv,
    init_vecs K m23 = Ok iv /\
    shape iv = [] ++ [2; 1] /\ wf iv /\
    forall i, i < prod_shape [] * 2 ->
      nth i (data iv) zero = nth (i * 3) (data m23) zero.
Proof.
  intros K.
  assert (Hrs : shape m23 = [] ++ [2; 3]) by reflexivity.
  assert (Hls : lt_shape K = [] ++ [2; 2]) by reflexivity.
  assert (Hk : 1 <= 3) by lia.
  assert (Hwf : wf m23) by reflexivity.
  repeat (split; [assumption|]).
  exact (lanczos_seed_is_first_column K m23 [] 2 3 2 Hrs Hls Hk Hwf).
Defined.

Lemma batch_get_indices_single_batch_run :
  let v := mkTensor [2; 2; 2] [1%Q; 2%Q; 3%Q; 4%Q; 5%Q; 6%Q; 7%Q; 8%Q] in
  shape v = [2; 2; 2] /\ wf v /\
  (- Z.of_nat 2 <= -1 < Z.of_nat 2)%Z /\
  NonLazyMethods._batch_get_indices (__init__ v) [(-1)%Z] [0%Z; 1%Z] [1%Z; (-2)%Z] =
  NonLazyMethods._get_indices
    (__init__ (mkTensor [2; 2] (block_at v (Z.to_nat (-1 mod Z.of_nat 2)) (2 * 2))))
    [0%Z; 1%Z] [1%Z; (-2)%Z].
Proof.
  intros v.
  assert (Hs : shape v = [2; 2; 2]) by reflexivity.
  assert (Hwf : wf v) by reflexivity.
  assert (Hk : (- Z.of_nat 2 <= -1 < Z.of_nat 2)%Z) by (simpl; lia).
  repeat (split; [assumption|]).
  exact (batch_get_indices_single_batch v 2 2 2 (-1)%Z [0%Z; 1%Z] [1%Z; (-2)%Z]
           Hs Hwf Hk).
Defined.

Lemma batch_get_indices_out_of_range_run :
  let v := mkTensor [2; 2; 2] [1%Q; 2%Q; 3%Q; 4%Q; 5%Q; 6%Q; 7%Q; 8%Q] in
  shape v = [2; 2; 2] /\
  length [0%Z; 1%Z] = length [1%Z; 0%Z] /\
  length [1%Z; 0%Z] = length [0%Z; (-3)%Z] /\
  (Exists (fun k => (k < - Z.of_nat 2 \/ Z.of_nat 2 <= k)%Z) [0%Z; 1%Z] \/
   Exists (fun i => (i < - Z.of_nat 2 \/ Z.of_nat 2 <= i)%Z) [1%Z; 0%Z] \/
   Exists (fun j => (j < - Z.of_nat 2 \/ Z.of_nat 2 <= j)%Z) [0%Z; (-3)%Z]) /\
  NonLazyMethods._batch_get_indices (__init__ v) [0%Z; 1%Z] [1%Z; 0%Z] [0%Z; (-3)%Z] =
    Raise IndexError.
Proof.
  intros v.
  assert (Hs : shape v = [2; 2; 2]) by reflexivity.
  assert (Hbl : length [0%Z; 1%Z] = length [1%Z; 0%Z]) by reflexivity.
  assert (Hlr : length [1%Z; 0%Z] = length [0%Z; (-3)%Z]) by reflexivity.
  assert (Hbad :
    Exists (fun k => (k < - Z.of_nat 2 \/ Z.of_nat 2 <= k)%Z) [0%Z; 1%Z] \/
    Exists (fun i => (i < - Z.of_nat 2 \/ Z.of_nat 2 <= i)%Z) [1%Z; 0%Z] \/
    Exists (fun j => (j < - Z.of_nat 2 \/ Z.of_nat 2 <= j)%Z) [0%Z; (-3)%Z]).
  { right. right. apply Exists_cons_tl. apply Exists_cons_hd. simpl. lia. }
  repeat (split; [assumption|]).
  exact (batch_get_indices_out_of_range v 2 2 2 _ _ _ Hs Hbl Hlr Hbad).
Defined.



Lemma derived_shifts_weights_formulas_run :
  exists w' sol ws ns sh,
    contour_integral_quad (K1 4) b1 true None None 7 2 world_off =
      (w', Ok (sol, ws, ns, sh)) /\
    init_vecs (K1 4) b1 = Ok b1 /\
    snd (approx_eigs_of (K1 4)
           (snd (lanczos_tridiag (fun v => _matmul (K1 4) v) b1
                   (matrix_shape (K1 4)) (batch_shape (K1 4)) 7))
           (logged world_off [EvLanczos b1 7])) = Ok (mkTensor [1] [4%Q]) /\
    wf (mkTensor [1] [4%Q]) /\
    exists obs max_eig min_eig k2 fs fw wts,
      _mul_broadcast_shape (batch_shape (K1 4)) (drop_last2 (shape b1)) = Ok obs /\
      reduce_last fmax (mkTensor [1] [4%Q]) = Ok max_eig /\
      reduce_last fmin (mkTensor [1] [4%Q]) = Ok min_eig /\
      binop fdiv min_eig max_eig = Ok k2 /\
      flat_shifts_weights 2 k2 min_eig = Ok (fs, fw) /\
      shape fs = [2 + 1; numel k2] /\ shape fw = [2; numel k2] /\
      (forall i j, i < numel k2 -> j < 2 ->
         nth ((1 + j) * numel k2 + i) (data fs) zero =
           shift_formula 2 (nth i (data k2) zero) (nth i (data min_eig) zero) j /\
         nth (j * numel k2 + i) (data fw) zero =
           weight_formula 2 (nth i (data k2) zero) (nth i (data min_eig) zero) j) /\
      shape_weights_shifts 2 (shape k2) obs fs fw = Ok (wts, sh) /\
      ws = Some wts /\
      (shape k2 = obs -> data sh = data fs /\ data wts = data fw).
Proof.
  do 5 eexists.
  assert (Hiv : init_vecs (K1 4) b1 = Ok b1) by reflexivity.
  assert (Heig : snd (approx_eigs_of (K1 4)
                        (snd (lanczos_tridiag (fun v => _matmul (K1 4) v) b1
                                (matrix_shape (K1 4)) (batch_shape (K1 4)) 7))
                        (logged world_off [EvLanczos b1 7])) = Ok (mkTensor [1] [4%Q]))
    by (vm_compute; reflexivity).
  assert (Hwf : wf (mkTensor [1] [4%Q])) by reflexivity.
  split; [vm_compute; reflexivity|].
  split; [exact Hiv|]. split; [exact Heig|]. split; [exact Hwf|].
  eapply (derived_shifts_weights_formulas (K1 4) b1 true None 7 2 world_off);
    [vm_compute; reflexivity | exact Hiv | exact Heig | exact Hwf].
Defined.

Lemma derived_expanded_to_output_batch_run :
  exists w' sol ws ns sh,
    contour_integral_quad (K1 4) (mkTensor [2; 1; 1] [1%Q; 3%Q]) true None None 7 2
      world_off = (w', Ok (sol, ws, ns, sh)) /\
    exists obs iv approx_eigs max_eig min_eig k2 fs fw wts,
      _mul_broadcast_shape (batch_shape (K1 4)) (drop_last2 [2; 1; 1]) = Ok obs /\
      init_vecs (K1 4) (mkTensor [2; 1; 1] [1%Q; 3%Q]) = Ok iv /\
      snd (approx_eigs_of (K1 4)
             (snd (lanczos_tridiag (fun v => _matmul (K1 4) v) iv
                     (matrix_shape (K1 4)) (batch_shape (K1 4)) 7))
             (logged world_off [EvLanczos iv 7])) = Ok approx_eigs /\
      reduce_last fmax approx_eigs = Ok max_eig /\
      reduce_last fmin approx_eigs = Ok min_eig /\
      binop fdiv min_eig max_eig = Ok k2 /\
      flat_shifts_weights 2 k2 min_eig = Ok (fs, fw) /\
      ws = Some wts /\
      shape sh = (2 + 1) :: obs /\ shape wts = 2 :: obs ++ [1; 1] /\
      (shape k2 <> obs ->
       exists srows wrows,
         rmapM (fun s => expand s obs)
           (map (mkTensor (shape k2)) (chunks (2 + 1) (numel k2) (data fs))) = Ok srows /\
         unbind sh = Ok srows /\
         rmapM (fun x => expand x (obs ++ [1; 1]))
           (map (mkTensor (shape k2 ++ [1; 1])) (chunks 2 (numel k2) (data fw))) = Ok wrows /\
         unbind wts = Ok wrows) /\
      (shape k2 = obs ->
       sh = mkTensor ((2 + 1) :: obs) (data fs) /\
       wts = mkTensor (2 :: obs ++ [1; 1]) (data fw)) /\
      exists evs, trace w' = trace world_off ++ evs /\ minres_shifts evs = [sh].
Proof.
  do 5 eexists. split.
  - vm_compute. reflexivity.
  - eapply (derived_expanded_to_output_batch (K1 4) (mkTensor [2; 1; 1] [1%Q; 3%Q])
              true None 7 2 world_off).
    vm_compute. reflexivity.
Defined.

(** C5 fails as stated: the weights play no part in the decision.  A call that
    is given precomputed weights and no shifts runs the derivation and
    returns derived weights, not the caller's; a call that is given shifts
    and no weights skips the derivation and returns no weights. *)
Lemma derivation_ignores_weights :
  (exists w' sol ws ns sh,
      contour_integral_quad (K1 4) b1 false (Some one_weight) None 7 1 world_off =
        (w', Ok (sol, ws, ns, sh)) /\
      In (EvLanczos b1 7) (trace w') /\
      ws <> Some one_weight) /\
  (exists w' sol ns,
      contour_integral_quad (K1 4) b1 false None (Some two_shifts) 7 1 world_off =
        (w', Ok (sol, None, ns, two_shifts)) /\
      Forall (fun e => ~ derivation_event e) (trace w')).
Proof.
  split.
  - do 5 eexists. split; [vm_compute; reflexivity|].
    split; [cbn; auto|]. intros Heq. discriminate Heq.
  - do 3 eexists. split; [vm_compute; reflexivity|].
    repeat constructor; intros Hd; inversion Hd.
Qed.

Lemma zero_mean_raises_run :
  _mul_broadcast_shape (batch_shape D01) (drop_last2 (shape e1)) = Ok [] /\
  init_vecs D01 e1 = Ok e1 /\
  snd (@approx_eigs_of Q ScalarQ CollaboratorsOneStep D01
         (snd (@lanczos_tridiag Q CollaboratorsOneStep (fun v => _matmul D01 v) e1
                 (matrix_shape D01) (batch_shape D01) 1))
         (logged world_on [EvLanczos e1 1])) = Ok (mkTensor [2] [0%Q; 1%Q]) /\
  reduce_last fmax (mkTensor [2] [0%Q; 1%Q]) = Ok (mkTensor [] [1%Q]) /\
  reduce_last fmin (mkTensor [2] [0%Q; 1%Q]) = Ok (mkTensor [] [0%Q]) /\
  binop fdiv (mkTensor [] [0%Q]) (mkTensor [] [1%Q]) = Ok (mkTensor [] [0%Q]) /\
  on (settings world_on) = true /\
  is_zero (mean_item (mkTensor [] [0%Q])) = true /\
  exists w',
    @contour_integral_quad Q ScalarQ CollaboratorsOneStep D01 e1 false None None 1 7
      world_on = (w', Raise ZeroDivisionError) /\
    settings w' = settings world_on /\
    minres_shifts (trace w') = minres_shifts (trace world_on).
Proof.
  assert (Hobs : _mul_broadcast_shape (batch_shape D01) (drop_last2 (shape e1)) = Ok [])
    by reflexivity.
  assert (Hiv : init_vecs D01 e1 = Ok e1) by reflexivity.
  assert (Heig :
    snd (@approx_eigs_of Q ScalarQ CollaboratorsOneStep D01
           (snd (@lanczos_tridiag Q CollaboratorsOneStep (fun v => _matmul D01 v) e1
                   (matrix_shape D01) (batch_shape D01) 1))
           (logged world_on [EvLanczos e1 1])) = Ok (mkTensor [2] [0%Q; 1%Q]))
    by (vm_compute; reflexivity).
  assert (Hmax : reduce_last fmax (mkTensor [2] [0%Q; 1%Q]) = Ok (mkTensor [] [1%Q]))
    by (vm_compute; reflexivity).
  assert (Hmin : reduce_last fmin (mkTensor [2] [0%Q; 1%Q]) = Ok (mkTensor [] [0%Q]))
    by (vm_compute; reflexivity).
  assert (Hk2 : binop fdiv (mkTensor [] [0%Q]) (mkTensor [] [1%Q]) =
                Ok (mkTensor [] [0%Q])) by (vm_compute; reflexivity).
  assert (Hon : on (settings world_on) = true) by reflexivity.
  assert (Hz : is_zero (mean_item (mkTensor [] [0%Q])) = true)
    by (vm_compute; reflexivity).
  repeat (split; [assumption|]).
  exact (@zero_mean_raises Q ScalarQ CollaboratorsOneStep D01 e1 false None 1 7
           world_on [] e1 _ _ _ _ Hobs Hiv Heig Hmax Hmin Hk2 Hon Hz).
Defined.

End MoreRuns.
